(** * rules_gitops: image resolver, release-train branch selection,
      push coordinator and GitHub-App hosting client

    A shallow embedding of the Go sources

    - [resolver] package ([ResolveImages] and the [imageTagTransformer]),
    - [gitops/prer/create_gitops_prs.go] ([main], [processResolvedImages]),
    - [gitops/git/github_app/github_app.go] ([CreatePR], [createPR],
      [CreateCommit]),

    together with the properties of these functions that the specification
    states.  Go maps with string keys and flat values ([imgmap],
    [trains], [currentTargets]) are stdpp finite maps; the untyped
    document tree of [unstructured.Unstructured] is an inductive type
    whose mappings are association lists, the list order standing for the
    order in which Go's [range] happens to visit the keys.  A key is read
    and written at its first binding; a decoded document has no key
    twice. *)

From Stdlib Require Import ZArith Ascii String List Lia Permutation.
From stdpp Require Import base strings pretty gmap list.

Set Warnings "-register-all".
Open Scope string_scope.

(** ** Go strings *)

Module Strings.

(** [strings.HasPrefix(s, prefix)] *)
Definition HasPrefix (s p : string) : bool := String.prefix p s.

(** [strings.Contains(s, substr)] *)
Fixpoint Contains (s substr : string) : bool :=
  String.prefix substr s ||
  match s with
  | EmptyString => false
  | String _ s' => Contains s' substr
  end.

(** [strings.Cut(s, sep)]: the text before and after the first [sep],
    and whether [sep] occurs. *)
Definition Cut (s sep : string) : string * string * bool :=
  match String.index 0 sep s with
  | Some n =>
      (String.substring 0 n s,
       String.substring (n + String.length sep)
         (String.length s - (n + String.length sep)) s,
       true)
  | None => (s, EmptyString, false)
  end.

(** [strings.Replace(s, old, new, 1)] *)
Definition Replace1 (s old new : string) : string :=
  match Cut s old with
  | (before, after, true) => before ++ new ++ after
  | (_, _, false) => s
  end.

(** [strings.TrimSuffix(s, suffix)] for a suffix of one byte. *)
Fixpoint TrimSuffixByte (s : string) (c : Ascii.ascii) : string :=
  match s with
  | EmptyString => EmptyString
  | String a EmptyString => if Ascii.eqb a c then EmptyString else s
  | String a s' => String a (TrimSuffixByte s' c)
  end.

(** The double quote character. *)
Definition quote : string := String (Ascii.ascii_of_nat 34) EmptyString.

(** [strings.Join(elems, sep)] *)
Definition Join (elems : list string) (sep : string) : string :=
  String.concat sep elems.

(** [s[1:]] on a non-empty string, which is also what
    [strings.TrimPrefix(s, p)] yields for a one-byte [p] that [s] starts
    with. *)
Definition tail (s : string) : string :=
  match s with
  | EmptyString => EmptyString
  | String _ s' => s'
  end.

(** [strings.TrimPrefix(s, prefix)] *)
Definition TrimPrefix (s p : string) : string :=
  if String.prefix p s then String.substring (String.length p)
                              (String.length s - String.length p) s
  else s.

End Strings.

(** ** The functions of [path/filepath] that the code calls (Unix) *)

Module Filepath.

(** The elements of a path: what stands between its separators. *)
Fixpoint elements (path : string) : list string :=
  match path with
  | EmptyString => [EmptyString]
  | String c path' =>
      if Ascii.eqb c "/" then EmptyString :: elements path'
      else
        match elements path' with
        | e :: es => String c e :: es
        | [] => [String c EmptyString]
        end
  end.

(** One element in the loop of [Clean]; [out] holds the elements
    written so far, the last one first.  An empty element and [.] are
    dropped; [..] takes back the last element written unless that is
    itself [..] or nothing is written, in which case it is written when
    the path is not rooted and dropped when it is. *)
Definition cleanStep (rooted : bool) (out : list string) (e : string)
    : list string :=
  if String.eqb e EmptyString || String.eqb e "." then out
  else if String.eqb e ".." then
    match out with
    | top :: out' => if String.eqb top ".." then ".." :: out else out'
    | [] => if rooted then [] else [".."]
    end
  else e :: out.

(** [filepath.Clean(path)] *)
Definition Clean (path : string) : string :=
  let rooted := Strings.HasPrefix path "/" in
  let out := fold_left (cleanStep rooted) (elements path) [] in
  let body := String.concat "/" (rev out) in
  if rooted then "/" ++ body
  else match out with [] => "." | _ => body end.

(** [filepath.Join(a, b)]: empty elements are ignored, the rest is
    joined with the separator and cleaned; nothing but empty elements
    gives the empty string. *)
Definition Join (a b : string) : string :=
  if negb (String.eqb a EmptyString) then Clean (a ++ "/" ++ b)
  else if negb (String.eqb b EmptyString) then Clean b
  else EmptyString.

End Filepath.

(** ** The document tree

    [map[string]interface{}] as produced by the YAML/JSON decoder: every
    node is nil, a bool, a number, a string, a [[]interface{}] or a
    [map[string]interface{}]. *)

Inductive value : Type :=
| VNil
| VBool (b : bool)
| VNum (n : Z)
| VStr (s : string)
| VSeq (l : list value)
| VMap (m : list (string * value)).

Abbreviation object := (list (string * value)).

(** [obj[k]] with the comma-ok result. *)
Fixpoint mget (k : string) (m : object) : option value :=
  match m with
  | [] => None
  | (k', v) :: m' => if String.eqb k k' then Some v else mget k m'
  end.

(** [obj[k] = v]: overwrite the binding of [k], or add one. *)
Fixpoint mset (k : string) (v : value) (m : object) : object :=
  match m with
  | [] => [(k, v)]
  | (k', v') :: m' =>
      if String.eqb k k' then (k, v) :: m' else (k', v') :: mset k v m'
  end.

(** [_, found = obj[k]] *)
Definition has (k : string) (m : object) : bool :=
  match mget k m with Some _ => true | None => false end.

Definition is_map (v : value) : bool :=
  match v with VMap _ => true | _ => false end.

Definition is_seq (v : value) : bool :=
  match v with VSeq _ => true | _ => false end.

(** Nesting depth of a tree; the traversal below never needs more steps
    than this. *)
Fixpoint height (v : value) : nat :=
  match v with
  | VSeq l => S (foldr (fun x acc => Nat.max (height x) acc) 0 l)
  | VMap m => S (foldr (fun kv acc => Nat.max (height kv.2) acc) 0 m)
  | _ => 0
  end.

(** The height of the children of a mapping and of the elements of a
    sequence. *)
Abbreviation hobj m :=
  (foldr (fun (kv : string * value) acc => Nat.max (height kv.2) acc) 0 m).

Abbreviation hseq l :=
  (foldr (fun (x : value) acc => Nat.max (height x) acc) 0 l).

(** ** Outcomes of the transformer's methods

    The methods mutate the tree in place and return an [error].  A call
    therefore ends in one of three ways, and in the first two the caller
    still holds the (partly) rewritten tree:
    - [Ok t]: returned [nil], the tree is now [t];
    - [Err e t]: returned the error [e], the tree is [t] (everything
      rewritten before the [return] stays rewritten);
    - [Panic]: a failed unchecked type assertion.
    [OutOfFuel] belongs to the model only: the recursion is bounded by a
    counter, and [ResolverFacts.transform_total] shows that the bound is
    never hit. *)

Inductive outcome (A : Type) : Type :=
| Ok (a : A)
| Err (e : string) (a : A)
| Panic
| OutOfFuel.

Arguments Ok {A} a.
Arguments Err {A} e a.
Arguments Panic {A}.
Arguments OutOfFuel {A}.

(** Continue with [k] after a call that returned [nil]; on an error return
    immediately, [wrap] putting the callee's tree back into the caller's. *)
Definition andThen {A B : Type} (x : outcome A) (wrap : A -> B)
    (k : A -> outcome B) : outcome B :=
  match x with
  | Ok a => k a
  | Err e a => Err e (wrap a)
  | Panic => Panic
  | OutOfFuel => OutOfFuel
  end.

Definition omap {A B : Type} (f : A -> B) (x : outcome A) : outcome B :=
  andThen x f (fun a => Ok (f a)).

(** The tree that the caller holds after a call that returned. *)
Definition tree_of {A : Type} (x : outcome A) : option A :=
  match x with
  | Ok a | Err _ a => Some a
  | _ => None
  end.

(** ** The resolver package *)

Module Resolver.

Import Strings.

Section Transformer.

(** [imageTagTransformer.images] *)
Variable images : gmap string string.

(** [pt.images[k]] without comma-ok: the zero value for a missing key. *)
Definition images_at (k : string) : string := default EmptyString (images !! k).

Definition resolveImageName (imagename : string) : string * bool :=
  match images !! imagename with
  | Some newname => (newname, true)
  | None =>
      match (if HasPrefix imagename ":"
             then images !! TrimPrefix imagename ":" else None) with
      | Some newname => (newname, true)
      | None =>
          match (if HasPrefix imagename "@"
                 then images !! TrimPrefix imagename "@" else None) with
          | Some newname => (newname, true)
          | None => (EmptyString, false)
          end
      end
  end.

(** The body of the loop of [updateContainerEnv] on one [kv] whose
    name matched and whose value is the string [envValue]. *)
Definition rewriteEnvValue (kv : object) (envValue : string) : object :=
  let kv :=
    if HasPrefix envValue "//"
    then mset "value" (VStr (images_at envValue)) kv else kv in
  if HasPrefix envValue ":"
  then mset "value" (VStr (images_at (tail envValue))) kv else kv.

(** [for _, kvInterface := range env]; each [return] of the source
    leaves the remaining entries as they are. *)
Fixpoint updateEnvEntries (env : list value) : list value :=
  match env with
  | [] => []
  | VMap kv :: rest =>
      match mget "name" kv with
      | Some (VStr envName) =>
          if Contains envName "IMAGE_URL" then
            match mget "value" kv with
            | Some (VStr envValue) =>
                VMap (rewriteEnvValue kv envValue) :: updateEnvEntries rest
            | _ => env
            end
          else VMap kv :: updateEnvEntries rest
      | _ => env
      end
  | _ :: _ => env
  end.

Definition updateContainerEnv (container : object) : object :=
  match mget "env" container with
  | Some (VSeq env) => mset "env" (VSeq (updateEnvEntries env)) container
  | _ => container
  end.

(** [for i := range containers] of [updateContainers]. *)
Fixpoint updateContainerList (containers : list value)
    : outcome (list value) :=
  match containers with
  | [] => Ok []
  | VMap container :: rest =>
      let container := updateContainerEnv container in
      let continue (c : object) :=
        omap (cons (VMap c)) (updateContainerList rest) in
      match mget "image" container with
      | None => continue container
      | Some (VStr imagename) =>
          match resolveImageName imagename with
          | (newname, true) =>
              continue (mset "image" (VStr newname) container)
          | (_, false) =>
              if HasPrefix imagename "//"
              then Err ("Unresolved image found: " ++ imagename)
                       (VMap container :: rest)
              else continue container
          end
      | Some _ => continue container
      end
  | _ :: _ => Panic
  end.

Definition updateContainers (obj : object) (path : string)
    : outcome object :=
  match mget path obj with
  | Some (VSeq containers) =>
      omap (fun cs => mset path (VSeq cs) obj)
           (updateContainerList containers)
  | _ => Panic
  end.

Definition updateContainer (obj : object) (path : string)
    : outcome object :=
  match mget path obj with
  | Some (VMap container) =>
      let container := updateContainerEnv container in
      let obj' := mset path (VMap container) obj in
      match mget "image" container with
      | Some (VStr imagename) =>
          if HasPrefix imagename "//"
          then Err ("unresolved image found: " ++ imagename) obj'
          else
            match resolveImageName imagename with
            | (newname, true) =>
                Ok (mset path
                      (VMap (mset "image" (VStr newname) container)) obj)
            | (_, false) => Ok obj'
            end
      | _ => Ok obj'
      end
  | _ => Panic
  end.

(** [for _, path := range paths { _, found = obj[path]; if found {...} }]:
    the one variable [found] is assigned on every iteration. *)
Fixpoint forPaths (update : object -> string -> outcome object)
    (paths : list string) (found : bool) (obj : object)
    : outcome (bool * object) :=
  match paths with
  | [] => Ok (found, obj)
  | path :: paths' =>
      let found := has path obj in
      if found
      then andThen (update obj path) (fun o => (found, o))
                   (fun o => forPaths update paths' found o)
      else forPaths update paths' found obj
  end.

(** The [[]interface{}] case of [findContainers]: every element that is
    a mapping is visited, the others are skipped. *)
Fixpoint visitItems (visit : object -> outcome object)
    (items : list value) : outcome (list value) :=
  match items with
  | [] => Ok []
  | VMap typedItem :: rest =>
      andThen (visit typedItem) (fun t => VMap t :: rest)
              (fun t => omap (cons (VMap t)) (visitItems visit rest))
  | item :: rest => omap (cons item) (visitItems visit rest)
  end.

(** [for key := range obj { switch typedV := obj[key].(type) ... }] *)
Fixpoint visitChildren (visit : object -> outcome object)
    (obj : object) : outcome object :=
  match obj with
  | [] => Ok []
  | (key, VMap typedV) :: rest =>
      andThen (visit typedV) (fun t => (key, VMap t) :: rest)
              (fun t => omap (cons (key, VMap t))
                             (visitChildren visit rest))
  | (key, VSeq typedV) :: rest =>
      andThen (visitItems visit typedV) (fun l => (key, VSeq l) :: rest)
              (fun l => omap (cons (key, VSeq l))
                             (visitChildren visit rest))
  | kv :: rest => omap (cons kv) (visitChildren visit rest)
  end.

(** The two loops at the head of [findAndReplaceTag]: the container
    shapes of this node are handled, and [found] comes out as the last
    loop iteration left it. *)
Definition handleShapes (obj : object) : outcome (bool * object) :=
  andThen (forPaths updateContainer ["container"; "spec"] false obj) id
    (fun '(found, obj) =>
       forPaths updateContainers ["containers"; "initContainers"]
                found obj).

(** [findAndReplaceTag] and [findContainers] call each other; [fuel]
    bounds the depth of these calls. *)
Fixpoint findAndReplaceTag (fuel : nat) (obj : object) : outcome object :=
  match fuel with
  | O => OutOfFuel
  | S fuel' =>
      andThen (handleShapes obj) snd
        (fun '(found, obj) =>
           if negb found
           then visitChildren (findAndReplaceTag fuel') obj
           else Ok obj)
  end.

Definition findContainers (fuel : nat) (obj : object) : outcome object :=
  visitChildren (findAndReplaceTag fuel) obj.

(** The transformer run on one decoded document. *)
Definition transform (obj : object) : outcome object :=
  findAndReplaceTag (S (height (VMap obj))) obj.

End Transformer.

(** *** Accessors of [unstructured.Unstructured]

    [GetKind] and [GetName] read a nested string and answer the empty
    string when the field is missing or is not a string. *)

Definition GetKind (obj : object) : string :=
  match mget "kind" obj with
  | Some (VStr s) => s
  | _ => EmptyString
  end.

Definition GetName (obj : object) : string :=
  match mget "metadata" obj with
  | Some (VMap metadata) =>
      match mget "name" metadata with
      | Some (VStr s) => s
      | _ => EmptyString
      end
  | _ => EmptyString
  end.

(** *** The decoding loop *)

(** What successive calls of [decoder.Decode(&obj)] hand back: an object
    or an error; when the list is used up the decoder answers [io.EOF]. *)
Inductive decoded : Type :=
| Decoded (obj : object)
| DecodeError (msg : string).

(** The non-nil errors [ResolveImages] returns. *)
Inductive error : Type :=
| DecodeFailed (msg : string)
| MissingName (obj : object)
| MissingKind (obj : object)
| UnableToMarshal (obj : object)
| WriteFailed (msg : string).

(** How a call of [ResolveImages] ends: it returns ([None] is [nil]) or a
    type assertion inside the transformer panics. *)
Inductive result : Type :=
| Return (err : option error)
| Panicked.

Definition isEmptyYamlError (msg : string) : bool :=
  Contains msg "is missing in 'null'".

(** The bytes of [---] followed by a line feed. *)
Definition separator : string :=
  String.append "---" (String (Ascii.ascii_of_nat 10) EmptyString).

Section Streams.

(** [yamlenc.Marshal]: the bytes, or [None] when it fails. *)
Variable marshal : object -> option string.

(** The [io.Writer]: [write written p] is the error of writing [p]
    after the chunks [written], [None] when the write succeeds. *)
Variable write : list string -> string -> option string.

Variable images : gmap string string.

(** [out.Write(p)] *)
Definition Write (out : list string) (p : string)
    : option string * list string :=
  match write out p with
  | Some e => (Some e, out)
  | None => (None, (out ++ [p])%list)
  end.

(** [for err == nil || isEmptyYamlError(err)]; [out] collects what has
    been written so far. *)
Fixpoint decodeLoop (input : list decoded) (firstObj : bool)
    (out : list string) : result * list string :=
  match input with
  | [] => (Return None, out)
  | DecodeError msg :: input' =>
      if isEmptyYamlError msg
      then decodeLoop input' firstObj out
      else (Return (Some (DecodeFailed msg)), out)
  | Decoded obj :: input' =>
      if String.eqb (GetName obj) EmptyString
      then (Return (Some (MissingName obj)), out)
      else if String.eqb (GetKind obj) EmptyString
      then (Return (Some (MissingKind obj)), out)
      else
        (* pt.findAndReplaceTag(obj.Object): the error is not looked at *)
        match tree_of (transform images obj) with
        | None => (Panicked, out)
        | Some obj =>
            match marshal obj with
            | None => (Return (Some (UnableToMarshal obj)), out)
            | Some buf =>
                let '(err, out) :=
                  if firstObj then (None, out) else Write out separator in
                match err with
                | Some e => (Return (Some (WriteFailed e)), out)
                | None =>
                    let '(err, out) := Write out buf in
                    match err with
                    | Some e => (Return (Some (WriteFailed e)), out)
                    | None => decodeLoop input' false out
                    end
                end
            end
        end
  end.

Definition ResolveImages (input : list decoded) : result * list string :=
  decodeLoop input true [].

End Streams.

(** The item at which the loop gives up, with the error it returns: a
    decode error other than the one of an empty document, or a document
    without [metadata.name] or without [kind]. *)
Definition refused (d : decoded) : option error :=
  match d with
  | DecodeError msg =>
      if isEmptyYamlError msg then None else Some (DecodeFailed msg)
  | Decoded obj =>
      if String.eqb (GetName obj) EmptyString then Some (MissingName obj)
      else if String.eqb (GetKind obj) EmptyString then Some (MissingKind obj)
      else None
  end.


(** An element of a [containers] sequence at which [updateContainers]
    returns its error: the image is a string that starts with the
    build-target prefix and no rule resolves it. *)
Definition unresolvedRef (images : gmap string string) (c : value) : bool :=
  match c with
  | VMap container =>
      match mget "image" (updateContainerEnv images container) with
      | Some (VStr imagename) =>
          negb (snd (resolveImageName images imagename))
          && HasPrefix imagename "//"
      | _ => false
      end
  | _ => false
  end.

(** An [env] entry after which the loop of [updateContainerEnv] goes on
    to the next one: a mapping with a string [name] and, when the name
    contains [IMAGE_URL], a string [value]. *)
Definition entryScanned (e : value) : bool :=
  match e with
  | VMap kv =>
      match mget "name" kv with
      | Some (VStr envName) =>
          if Contains envName "IMAGE_URL"
          then match mget "value" kv with
               | Some (VStr _) => true
               | _ => false
               end
          else true
      | _ => false
      end
  | _ => false
  end.

(** A serializer to run examples with: documents in YAML flow style. *)
Fixpoint render (v : value) : string :=
  match v with
  | VNil => "null"
  | VBool b => if b then "true" else "false"
  | VNum n => pretty n
  | VStr s => s
  | VSeq l => "[" ++ String.concat ", " (map render l) ++ "]"
  | VMap m =>
      "{" ++ String.concat ", "
               (map (fun kv => kv.1 ++ ": " ++ render kv.2) m) ++ "}"
  end.

Definition renderDoc (obj : object) : option string :=
  Some (render (VMap obj)).

(** A writer that never fails (a buffer in memory). *)
Definition buffer (written : list string) (p : string) : option string :=
  None.

(** *** Documents to run the resolver on *)

Definition appImages : gmap string string :=
  {[ "//app:image" := "registry.example.com/app:abc123" ]}.

(** A pod whose one container refers to the build target [image]. *)
Definition pod (image : string) : object :=
  [("apiVersion", VStr "v1"); ("kind", VStr "Pod");
   ("metadata", VMap [("name", VStr "app")]);
   ("spec", VMap [("containers",
      VSeq [VMap [("name", VStr "main"); ("image", VStr image)]])])].

(** An object whose [spec] holds a single [container] mapping. *)
Definition task (image : string) : object :=
  [("kind", VStr "Task");
   ("metadata", VMap [("name", VStr "build")]);
   ("spec", VMap [("container", VMap [("image", VStr image)])])].

(** A document without [metadata.name]. *)
Definition nameless : object := [("kind", VStr "Pod")].



(** A [containers] sequence whose second element is not a mapping. *)
Definition badSequence : object :=
  [("containers", VSeq [VMap [("image", VStr "//missing")]; VNum 5])].

(** A container whose first [env] entry takes its value from elsewhere. *)
Definition envFromSecret : object :=
  [("image", VStr "app");
   ("env", VSeq [
      VMap [("name", VStr "BASE_IMAGE_URL");
            ("valueFrom", VMap [("secretKeyRef", VStr "base")])];
      VMap [("name", VStr "APP_IMAGE_URL"); ("value", VStr "//app:image")]])].

(** A container with one [env] entry that names an unmapped target. *)
Definition envUnmapped : object :=
  [("image", VStr "app");
   ("env", VSeq [
      VMap [("name", VStr "APP_IMAGE_URL"); ("value", VStr "//other:image")]])].

End Resolver.

(** ** Processes: external effects, [log.Fatal] and [defer]

    The command-line tool talks to git, to the build tool and to the
    hosting API.  A run is modelled by the list of the external effects it
    performs and by the way it ends.  Log output is not part of the
    model, except for the message of a fatal exit. *)

Inductive event : Type :=
| Chdir (dir : string)
| BazelCquery (query : string)
| MkdirTemp (base pattern : string)
| RemoveAll (dir : string)
| GitClone (repo dir mirror branch path : string)
| SwitchToBranch (branch primary : string)
| GetLastCommitMessage
| RecreateBranch (branch primary : string)
| Exec (command : list string)
| GetModifiedFiles
| WorkdirCommit (message path : string)
| WorkdirPush (branches : list string)
| ServerCreatePR (host from to title body : string)
| ApiGetRef (ref : string)
| ApiCreateRef (ref : string)
| ReadFile (path : string)
| ApiCreateTree (paths : list string)
| ApiGetCommit
| ApiCreateCommit (message : string)
| ApiUpdateRef
| ApiCreatePullRequest (head base title body : string).

Module Go.

(** The ways a goroutine does not come to its end.  [log.Fatal],
    [log.Fatalf] print and call [os.Exit(1)]: the process ends at once
    and deferred calls are not run.  A panic unwinds the stack and runs
    them.  A goroutine that blocks for ever does neither: nothing after
    the blocking statement happens and the process does not end. *)
Inductive halt : Type :=
| Fatal (msg : string)
| Panics (msg : string)
| Blocked.

Definition Proc (A : Type) : Type :=
  list event -> (A + halt) * list event.

Definition ret {A : Type} (a : A) : Proc A := fun tr => (inl a, tr).

Definition bind {A B : Type} (m : Proc A) (k : A -> Proc B) : Proc B :=
  fun tr =>
    match m tr with
    | (inl a, tr') => k a tr'
    | (inr h, tr') => (inr h, tr')
    end.

Definition emit (e : event) : Proc unit := fun tr => (inl tt, (tr ++ [e])%list).

Definition fatal {A : Type} (msg : string) : Proc A :=
  fun tr => (inr (Fatal msg), tr).

Definition panic {A : Type} (msg : string) : Proc A :=
  fun tr => (inr (Panics msg), tr).

Definition block {A : Type} : Proc A := fun tr => (inr Blocked, tr).

(** [defer d] followed by [body], the rest of the function. *)
Definition deferring {A : Type} (d : Proc unit) (body : Proc A) : Proc A :=
  fun tr =>
    match body tr with
    | (inl a, tr') => (inl a, snd (d tr'))
    | (inr (Panics msg), tr') => (inr (Panics msg), snd (d tr'))
    | (inr (Fatal msg), tr') => (inr (Fatal msg), tr')
    | (inr Blocked, tr') => (inr Blocked, tr')
    end.

(** [for _, x := range l { body x }] *)
Fixpoint forEach {A : Type} (l : list A) (body : A -> Proc unit)
    : Proc unit :=
  match l with
  | [] => ret tt
  | x :: l' => bind (body x) (fun _ => forEach l' body)
  end.

Definition run {A : Type} (m : Proc A) : (A + halt) * list event := m [].

(** *** What a process adds to the trace *)

(** Every event that [m] performs satisfies [P]. *)
Definition emits (P : event -> Prop) {A : Type} (m : Proc A) : Prop :=
  forall tr, exists evs, snd (m tr) = (tr ++ evs)%list /\ Forall P evs.

(** The same, for the runs of [m] that end in a fatal exit. *)
Definition emits_if_fatal (P : event -> Prop) {A : Type} (m : Proc A)
    : Prop :=
  forall tr msg tr', m tr = (inr (Fatal msg), tr') ->
    exists evs, tr' = (tr ++ evs)%list /\ Forall P evs.

(** Any event but the removal of a directory. *)
Definition keeps (e : event) : Prop := forall dir, e <> RemoveAll dir.

End Go.

#[global] Instance proc_ret : MRet Go.Proc := @Go.ret.
#[global] Instance proc_bind : MBind Go.Proc := fun A B k m => Go.bind m k.

(** ** The github_app package *)

Module GithubApp.

Import Go.

(** The package-level flags. *)
Record Flags : Type := {
  repoOwner : string;
  repo : string;
  githubEnterpriseHost : string;
  privateKey : string;
  gitHubAppId : Z;
  gitHubAppInstallationId : Z
}.

Record FileEntry : Type := {
  RelativePath : string;   (* path for the repository *)
  FullPath : string        (* path for reading the local file *)
}.

(** [*github.Response] as far as the code reads it: the status code and
    what [io.ReadAll(resp.Body)] gives ([None] when reading fails). *)
Record Response : Type := {
  StatusCode : Z;
  Body : option string
}.

(** What [gh.PullRequests.Create] hands back: the new request ([err] is
    nil), or an error together with the response, which is itself nil
    when the request never reached the provider. *)
Inductive CreateResult : Type :=
| Created (url : string)
| Rejected (err : string) (resp : option Response).

(** [http.StatusUnprocessableEntity]: the status with which the provider
    refuses a pull request that already exists for the branch pair. *)
Definition StatusUnprocessableEntity : Z := 422.

(** The hosting provider and the local files, as the code consults
    them; an [option string] answer is the error, [None] for nil. *)
Record Provider : Type := {
  NewKeyFromFile : Z -> Z -> string -> option string;
  NewEnterpriseClient : string -> string -> option string;
  PullRequestsCreate : string -> string -> string -> string -> CreateResult;
  (** [os.Stat]: whether the path is a directory, or the error *)
  Stat : string -> bool + string;
  Walk : string -> string -> list FileEntry + string;
  GetRef : string -> option string;
  CreateRef : string -> option string;
  ReadFileContent : string -> option string;
  CreateTree : list string -> option string;
  GetCommit : option string;
  CreateGitCommit : string -> option string;
  UpdateRef : option string
}.

Section Client.

Variable flags : Flags.
Variable gh : Provider.

(** [CreatePR] returns an [error]: [None] is nil. *)
Definition CreatePR (from to title body : string)
    : Proc (option string) :=
  if String.eqb (repoOwner flags) EmptyString
  then ret (Some "github_app_repo_owner must be set")
  else if String.eqb (repo flags) EmptyString
  then ret (Some "github_app_repo must be set")
  else if Z.eqb (gitHubAppId flags) 0
  then ret (Some "github_app_id must be set")
  else
    match NewKeyFromFile gh (gitHubAppId flags)
            (gitHubAppInstallationId flags) (privateKey flags) with
    | Some err => ret (Some err)
    | None =>
        let create :=
          emit (ApiCreatePullRequest from to title body) ;;
          match PullRequestsCreate gh from to title body with
          | Created url => ret None
          | Rejected err None =>
              panic "invalid memory address or nil pointer dereference"
          | Rejected err (Some resp) =>
              if Z.eqb (StatusCode resp) StatusUnprocessableEntity
              then ret None
              else ret (Some err)
          end in
        if negb (String.eqb (githubEnterpriseHost flags) EmptyString)
        then
          let baseUrl :=
            "https://" ++ githubEnterpriseHost flags ++ "/api/v3/" in
          let uploadUrl :=
            "https://" ++ githubEnterpriseHost flags ++ "/api/uploads/" in
          match NewEnterpriseClient gh baseUrl uploadUrl with
          | Some err => ret None
          | None => create
          end
        else create
    end.

(** [createPR], the last step of [CreateCommit]. *)
Definition createPR (baseBranch commitBranch prSubject prDescription
    : string) : Proc unit :=
  emit (ApiCreatePullRequest commitBranch baseBranch prSubject
          prDescription) ;;
  match PullRequestsCreate gh commitBranch baseBranch prSubject
          prDescription with
  | Rejected err _ => fatal ("failed to create PR: " ++ err)
  | Created url => ret tt
  end.

Definition createGithubClient : Proc unit :=
  if String.eqb (repoOwner flags) EmptyString
  then fatal "github_app_repo_owner must be set"
  else if String.eqb (repo flags) EmptyString
  then fatal "github_app_repo must be set"
  else if Z.eqb (gitHubAppId flags) 0
  then fatal "github_app_id must be set"
  else
    match NewKeyFromFile gh (gitHubAppId flags)
            (gitHubAppInstallationId flags) (privateKey flags) with
    | Some err => fatal err
    | None => ret tt
    end.

(** The loop of [getFilesToCommit]; [Walk gitopsPath dir] answers with
    the entries of the regular files below [dir], their paths taken
    relative to [gitopsPath], or with the error of the walk. *)
Fixpoint collectFiles (gitopsPath : string) (inputPaths : list string)
    : list FileEntry + string :=
  match inputPaths with
  | [] => inl []
  | inputPath :: rest =>
      let inputPath := Strings.TrimSuffixByte inputPath "/"%char in
      let absInputPath := Filepath.Join gitopsPath inputPath in
      match Stat gh absInputPath with
      | inr err =>
          inr ("failed to access input path " ++ absInputPath ++ ": "
               ++ err)
      | inl isDir =>
          let here :=
            if isDir then
              match Walk gh gitopsPath absInputPath with
              | inl files => inl files
              | inr err => inr ("failed to walk input directory: " ++ err)
              end
            else inl [{| RelativePath := inputPath;
                         FullPath := absInputPath |}] in
          match here with
          | inr err => inr err
          | inl files =>
              match collectFiles gitopsPath rest with
              | inl more => inl (files ++ more)%list
              | inr err => inr err
              end
          end
      end
  end.

Definition getFilesToCommit (gitopsPath : string) (inputPaths : list string)
    : list FileEntry + string :=
  match collectFiles gitopsPath inputPaths with
  | inl [] =>
      inr ("no files found in input paths ["
           ++ Strings.Join inputPaths " " ++ "]")
  | r => r
  end.

Definition getRef (baseBranch commitBranch : string) : Proc unit :=
  emit (ApiGetRef ("refs/heads/" ++ baseBranch)) ;;
  match GetRef gh ("refs/heads/" ++ baseBranch) with
  | Some err => fatal ("failed to get base branch ref: " ++ err)
  | None =>
      emit (ApiCreateRef ("refs/heads/" ++ commitBranch)) ;;
      match CreateRef gh ("refs/heads/" ++ commitBranch) with
      | Some err => fatal ("failed to create branch ref: " ++ err)
      | None => ret tt
      end
  end.

Fixpoint readFiles (files : list FileEntry) : Proc (option string) :=
  match files with
  | [] => ret None
  | file :: rest =>
      emit (ReadFile (FullPath file)) ;;
      match ReadFileContent gh (FullPath file) with
      | Some err =>
          ret (Some ("failed to read file " ++ FullPath file ++ ": "
                     ++ err))
      | None => readFiles rest
      end
  end.

Definition getTree (files : list FileEntry) : Proc (option string) :=
  err ← readFiles files;
  match err with
  | Some e => ret (Some e)
  | None =>
      emit (ApiCreateTree (map RelativePath files)) ;;
      ret (CreateTree gh (map RelativePath files))
  end.

Definition pushCommit (commitMessage : string) : Proc unit :=
  emit ApiGetCommit ;;
  match GetCommit gh with
  | Some err => fatal ("failed to get parent commit: " ++ err)
  | None =>
      emit (ApiCreateCommit commitMessage) ;;
      match CreateGitCommit gh commitMessage with
      | Some err => fatal ("failed to create commit: " ++ err)
      | None =>
          emit ApiUpdateRef ;;
          match UpdateRef gh with
          | Some err => fatal ("failed to update ref: " ++ err)
          | None => ret tt
          end
      end
  end.

Definition CreateCommit (baseBranch commitBranch gitopsPath : string)
    (files : list string) (prTitle prDescription : string) : Proc unit :=
  createGithubClient ;;
  match getFilesToCommit gitopsPath files with
  | inr err => fatal ("failed to get files to commit: " ++ err)
  | inl fileEntries =>
      getRef baseBranch commitBranch ;;
      err ← getTree fileEntries;
      match err with
      | Some e => fatal ("failed to create tree: " ++ e)
      | None =>
          pushCommit prTitle ;;
          createPR baseBranch commitBranch prTitle prDescription
      end
  end.

End Client.

(** *** A provider to run the client against *)

Definition appFlags : Flags :=
  {| repoOwner := "acme"; repo := "deployments";
     githubEnterpriseHost := EmptyString;
     privateKey := "/secrets/github-pr-creator-key";
     gitHubAppId := 1014336; gitHubAppInstallationId := 42 |}.

(** Every call succeeds, except that the provider answers [create] to
    the request for a new pull request; [deploy/manifest.yaml] is a
    regular file. *)
Definition provider (create : CreateResult) : Provider :=
  {| NewKeyFromFile := fun _ _ _ => None;
     NewEnterpriseClient := fun _ _ => None;
     PullRequestsCreate := fun _ _ _ _ => create;
     Stat := fun _ => inl false;
     Walk := fun _ _ => inl [];
     GetRef := fun _ => None;
     CreateRef := fun _ => None;
     ReadFileContent := fun _ => None;
     CreateTree := fun _ => None;
     GetCommit := None;
     CreateGitCommit := fun _ => None;
     UpdateRef := None |}.

(** The answer of the provider when the pull request exists already. *)
Definition alreadyExists : CreateResult :=
  Rejected "422 Validation Failed: A pull request already exists"
    (Some {| StatusCode := 422; Body := Some "Validation Failed" |}).

End GithubApp.

(** ** The command: create_gitops_prs *)

Module Prer.

Import Go Strings.

Record Config : Type := {
  GitRepo : string;
  GitMirror : string;
  GitHost : string;
  BranchName : string;
  GitCommit : string;
  ReleaseBranch : string;
  PRTargetBranch : string;
  BazelCmd : string;
  Workspace : string;
  Targets : string;
  GitOpsPath : string;
  GitOpsTmpDir : string;
  PushParallelism : Z;
  DryRun : bool;
  PRTitle : string;
  PRBody : string;
  DeploymentBranchSuffix : string;
  ResolvedBinaries : list string;
  ResolvedPushes : list string;
  DependencyKinds : list string;
  DependencyNames : list string;
  DependencyAttrs : list string
}.

(** One result of a build-graph query: the rule's name and its string
    attributes. *)
Record QueryTarget : Type := {
  RuleName : string;
  Attributes : list (string * string)
}.

(** What the collaborators of [main] answer.  The packages [git], [exec],
    [bazel], [commitmsg] and the token-authenticated servers are outside
    the sources at hand; an [option string] answer is the error, [None]
    for nil. *)
Record World : Type := {
  osChdir : string -> option string;
  (** [executeBazelQuery]: [None] when the query or its decoding fails *)
  bazelCquery : string -> option (list QueryTarget);
  osMkdirTemp : string -> string -> string + string;
  gitClone : string -> string -> string -> string -> string -> option string;
  (** Modelled from the spec: [SwitchToBranch] switches to the branch when
      it exists and answers [false]; otherwise it creates the branch from
      the primary branch and answers [true]. *)
  switchToBranch : string -> string -> bool;
  (** the message of the last commit of the named branch *)
  getLastCommitMessage : string -> string;
  (** [commitmsg.ExtractTargets]: the target list embedded in a message *)
  ExtractTargets : string -> list string;
  (** [commitmsg.Generate] *)
  Generate : list string -> string;
  (** [bazel.TargetToExecutable] *)
  TargetToExecutable : string -> string;
  (** Modelled from the spec: [exec.Mustex] runs an external command; a
      command that fails is fatal to the run.  [true]: the command
      succeeds. *)
  mustex : list string -> bool;
  (** keyed by the branch checked out *)
  getModifiedFiles : string -> list string + string;
  (** [workdir.Commit], keyed by the branch: were there changes *)
  workdirCommit : string -> bool;
  isRegularFile : string -> bool;
  Getenv : string -> string;
  (** [CreatePR] of the bitbucket, github and gitlab packages *)
  serverCreatePR : string -> string -> string -> string -> string ->
                   option string
}.

Section Main.

Variable cfg : Config.
Variable w : World.
Variable flags : GithubApp.Flags.
Variable gh : GithubApp.Provider.

(** [exec.Mustex] with an empty working directory. *)
Definition Mustex (command : list string) : Proc unit :=
  emit (Exec command) ;;
  if mustex w command then ret tt
  else fatal ("ERROR: " ++ Join command " ").

(** [executeBazelQuery] *)
Definition executeBazelQuery (query : string) : Proc (list QueryTarget) :=
  emit (BazelCquery query) ;;
  match bazelCquery w query with
  | None => fatal "no protobuf data found in output"
  | Some results => ret results
  end.

(** The worker pool shared by [processResolvedImages] and [processImages],
    reduced to one of its runs: the commands are executed in queue order.
    (The interleavings are the subject of [PushCoordinator] below.)
    [wg.Add] panics on a negative count, and without workers the first
    send on the unbuffered channel blocks for ever: no command is run
    and the call does not return. *)
Definition workerPool {A : Type} (queue : list A) (work : A -> Proc unit)
    : Proc unit :=
  if Z.ltb (PushParallelism cfg) 0
  then panic "sync: negative WaitGroup counter"
  else if Z.eqb (PushParallelism cfg) 0 && negb (Nat.eqb (length queue) 0)
  then block
  else forEach queue work.

Definition processResolvedImages : Proc unit :=
  workerPool (ResolvedPushes cfg) (fun cmd => Mustex [cmd]).

Definition processTarget (target bazelCmd : string) : Proc unit :=
  let executable := TargetToExecutable w target in
  if isRegularFile w executable
  then Mustex [executable]
  else Mustex [bazelCmd; "run"; target].

Definition processImages (targets : list string) : Proc unit :=
  let deps := "set('" ++ Join targets "' '" ++ "')" in
  let kinds :=
    map (fun kind => "kind(" ++ kind ++ ", deps(" ++ deps ++ "))")
        (DependencyKinds cfg) in
  let names :=
    map (fun name => "filter(" ++ name ++ ", deps(" ++ deps ++ "))")
        (DependencyNames cfg) in
  let attrs :=
    map (fun attr =>
           let '(name, value, _) := Cut attr "=" in
           let value :=
             if String.eqb value EmptyString then ".*" else value in
           "attr(" ++ name ++ ", " ++ value ++ ", deps(" ++ deps ++ "))")
        (DependencyAttrs cfg) in
  let queries := (kinds ++ names ++ attrs)%list in
  let query := Join queries " union " in
  result ← executeBazelQuery query;
  workerPool (map RuleName result)
             (fun target => processTarget target (BazelCmd cfg)).

(** [getGitServer(host).CreatePR] *)
Definition getGitServer (host : string)
    : Proc (string -> string -> string -> string -> Proc (option string)) :=
  if String.eqb host "github" || String.eqb host "gitlab"
     || String.eqb host "bitbucket"
  then ret (fun from to title body =>
              emit (ServerCreatePR host from to title body) ;;
              ret (serverCreatePR w host from to title body))
  else if String.eqb host "github_app"
  then ret (GithubApp.CreatePR flags gh)
  else fatal ("unsupported git host: " ++ host).

Definition createPullRequests (branches : list string) : Proc unit :=
  if DryRun cfg then ret tt
  else
    CreatePR ← getGitServer (GitHost cfg);
    forEach branches (fun branch =>
      let title :=
        if String.eqb (PRTitle cfg) EmptyString
        then "GitOps deployment " ++ branch else PRTitle cfg in
      let body :=
        if String.eqb (PRBody cfg) EmptyString then branch else PRBody cfg in
      err ← CreatePR branch (PRTargetBranch cfg) title body;
      match err with
      | Some e => fatal ("failed to create PR: " ++ e)
      | None => ret tt
      end).

(** [trains[k] = append(trains[k], v)] *)
Definition appendTo (trains : gmap string (list string)) (k v : string)
    : gmap string (list string) :=
  <[k := (default [] (trains !! k) ++ [v])%list]> trains.

(** The trains named on the command line ([-resolved_binary]). *)
Fixpoint resolvedTrains (rbs : list string)
    (trains : gmap string (list string))
    : Proc (gmap string (list string)) :=
  match rbs with
  | [] => ret trains
  | rb :: rbs' =>
      match Cut rb ":" with
      | (releaseTrain, bin, true) =>
          resolvedTrains rbs' (appendTo trains releaseTrain bin)
      | (_, _, false) =>
          fatal ("resolved_binaries: invalid resolved_binary format: " ++ rb)
      end
  end.

(** The trains found by the query: one entry for every attribute named
    [deployment_branch] of every result. *)
Definition queriedTrains (results : list QueryTarget)
    : gmap string (list string) :=
  foldl (fun trains t =>
           foldl (fun trains attr =>
                    if String.eqb attr.1 "deployment_branch"
                    then appendTo trains attr.2 (RuleName t) else trains)
                 trains (Attributes t))
        ∅ results.

(** [currentTargets[t] = true] for every target of the train. *)
Definition currentTargetsOf (targets : list string) : gmap string bool :=
  foldl (fun m t => <[t := true]> m) ∅ targets.

(** [for _, t := range commitmsg.ExtractTargets(msg)], left by [break]
    after the branch has been recreated. *)
Fixpoint recreateIfStale (currentTargets : gmap string bool)
    (branch : string) (embedded : list string) : Proc unit :=
  match embedded with
  | [] => ret tt
  | t :: embedded' =>
      if negb (default false (currentTargets !! t))
      then emit (RecreateBranch branch (PRTargetBranch cfg))
      else recreateIfStale currentTargets branch embedded'
  end.

(** Branch selection for one train: the head of the loop body of [main]. *)
Definition selectBranch (train : string) (targets : list string)
    : Proc string :=
  let branch := "deploy/" ++ train ++ DeploymentBranchSuffix cfg in
  emit (SwitchToBranch branch (PRTargetBranch cfg)) ;;
  (if negb (switchToBranch w branch (PRTargetBranch cfg))
   then
     emit GetLastCommitMessage ;;
     let msg := getLastCommitMessage w branch in
     recreateIfStale (currentTargetsOf targets) branch (ExtractTargets w msg)
   else ret tt) ;;
  ret branch.

(** What the loop over the trains accumulates. *)
Record Updates : Type := {
  updatedTargets : list string;
  updatedBranches : list string;
  modifiedFiles : list string
}.

(** The body of [for train, targets := range trains]. *)
Definition processTrain (gitopsDir : string) (acc : Updates)
    (train : string) (targets : list string) : Proc Updates :=
  branch ← selectBranch train targets;
  forEach targets (fun target =>
    let bin := TargetToExecutable w target in
    Mustex [bin; "--nopush"; "--deployment_root"; gitopsDir]) ;;
  let commitMsg :=
    "GitOps for release branch " ++ ReleaseBranch cfg ++ " from "
    ++ BranchName cfg ++ " commit " ++ GitCommit cfg
    ++ String (Ascii.ascii_of_nat 10) (Generate w targets) in
  emit GetModifiedFiles ;;
  match getModifiedFiles w branch with
  | inr err => fatal ("failed to get modified files: " ++ err)
  | inl files =>
      let modified := (modifiedFiles acc ++ files)%list in
      emit (WorkdirCommit commitMsg (GitOpsPath cfg)) ;;
      if workdirCommit w branch
      then ret {| updatedTargets := (updatedTargets acc ++ targets)%list;
                  updatedBranches := (updatedBranches acc ++ [branch])%list;
                  modifiedFiles := modified |}
      else ret {| updatedTargets := updatedTargets acc;
                  updatedBranches := updatedBranches acc;
                  modifiedFiles := modified |}
  end.

Fixpoint processTrains (gitopsDir : string) (acc : Updates)
    (trains : list (string * list string)) : Proc Updates :=
  match trains with
  | [] => ret acc
  | (train, targets) :: trains' =>
      acc ← processTrain gitopsDir acc train targets;
      processTrains gitopsDir acc trains'
  end.

(** The last part of [main]: publishing, unless the run is a dry run. *)
Definition publish (gitopsDir : string) (u : Updates) : Proc unit :=
  if DryRun cfg then ret tt
  else
    let slug := Getenv w "BUILDKITE_PIPELINE_SLUG" in
    let url := Getenv w "BUILDKITE_BUILD_URL" in
    let repo := Getenv w "BUILDKITE_REPO" in
    let sha := Getenv w "BUILDKITE_COMMIT" in
    let repo := Replace1 repo ":" "/" in
    let repo := Replace1 repo "git@" "https://" in
    let repo := Replace1 repo ".git" EmptyString in
    let commit := repo ++ "/commit/" ++ sha in
    if Nat.ltb (String.length sha) 7
    then panic "slice bounds out of range"
    else
      let shortSha := String.substring 0 7 sha in
      let prTitle := "Gitops Deploy: " ++ slug ++ " - " ++ shortSha in
      let prDescription :=
        "Automated PR for [" ++ slug ++ "](" ++ commit
        ++ ") via [Buildkite Pipeline](" ++ url ++ ")" in
      if String.eqb (GitHost cfg) "github_app"
      then GithubApp.CreateCommit flags gh (PRTargetBranch cfg)
             (BranchName cfg) gitopsDir (modifiedFiles u) prTitle
             prDescription
      else
        emit (WorkdirPush (updatedBranches u)) ;;
        createPullRequests (updatedBranches u).

(** The part of [main] that fills [trains]: from the command line when
    [-resolved_binary] is given, from a query otherwise. *)
Definition findTrains : Proc (gmap string (list string)) :=
  if Nat.ltb 0 (length (ResolvedBinaries cfg))
  then resolvedTrains (ResolvedBinaries cfg) ∅
  else
    let query :=
      "attr(deployment_branch, " ++ quote ++ ".+" ++ quote
      ++ ", attr(release_branch_prefix, " ++ quote ++ ReleaseBranch cfg
      ++ quote ++ ", kind(gitops, " ++ Targets cfg ++ ")))" in
    result ← executeBazelQuery query;
    ret (queriedTrains result).

(** [main] after [initConfig].  The trains are visited in the order of
    [map_to_list]; Go leaves the order of [range] over a map open. *)
Definition main : Proc unit :=
  (if negb (String.eqb (Workspace cfg) EmptyString)
   then
     emit (Chdir (Workspace cfg)) ;;
     match osChdir w (Workspace cfg) with
     | Some err => fatal ("failed to change directory: " ++ err)
     | None => ret tt
     end
   else ret tt) ;;
  trains ← findTrains;
  if Nat.eqb (size trains) 0 then ret tt
  else
    emit (MkdirTemp (GitOpsTmpDir cfg) "gitops") ;;
    match osMkdirTemp w (GitOpsTmpDir cfg) "gitops" with
    | inr err => fatal ("failed to create temp directory: " ++ err)
    | inl gitopsDir =>
        deferring (emit (RemoveAll gitopsDir))
          (emit (GitClone (GitRepo cfg) gitopsDir (GitMirror cfg)
                   (PRTargetBranch cfg) (GitOpsPath cfg)) ;;
           match gitClone w (GitRepo cfg) gitopsDir (GitMirror cfg)
                   (PRTargetBranch cfg) (GitOpsPath cfg) with
           | Some err => fatal ("failed to clone repository: " ++ err)
           | None =>
               u ← processTrains gitopsDir
                     {| updatedTargets := []; updatedBranches := [];
                        modifiedFiles := [] |}
                     (map_to_list trains);
               if Nat.eqb (length (updatedTargets u)) 0 then ret tt
               else
                 (if Nat.ltb 0 (length (ResolvedPushes cfg))
                  then processResolvedImages
                  else processImages (updatedTargets u)) ;;
                 publish gitopsDir u
           end)
    end.

End Main.

(** *** A configuration and a world to run [main] in *)

Definition deployConfig : Config :=
  {| GitRepo := "git@example.com:acme/deployments.git";
     GitMirror := EmptyString;
     GitHost := "github";
     BranchName := "main";
     GitCommit := "0123456789abcdef";
     ReleaseBranch := "main";
     PRTargetBranch := "master";
     BazelCmd := "tools/bazel";
     Workspace := EmptyString;
     Targets := "//...";
     GitOpsPath := "cloud";
     GitOpsTmpDir := "/tmp";
     PushParallelism := 1;
     DryRun := true;
     PRTitle := EmptyString;
     PRBody := EmptyString;
     DeploymentBranchSuffix := EmptyString;
     ResolvedBinaries := ["prod:bin/app.gitops"];
     ResolvedPushes := ["bin/app.push"];
     DependencyKinds := ["k8s_container_push"; "push_oci"];
     DependencyNames := [];
     DependencyAttrs := [] |}.

(** A world in which every collaborator succeeds, except for what the
    arguments say: the error of [git.Clone], the error of
    [GetModifiedFiles], whether the deployment branch is new, and the
    targets embedded in its last commit message. *)
Definition world (cloneErr modifiedErr : option string) (isNew : bool)
    (embedded : list string) : World :=
  {| osChdir := fun _ => None;
     bazelCquery := fun _ => Some [];
     osMkdirTemp := fun base pattern => inl (base ++ "/" ++ pattern ++ "123");
     gitClone := fun _ _ _ _ _ => cloneErr;
     switchToBranch := fun _ _ => isNew;
     getLastCommitMessage := fun _ => "GitOps for release branch main";
     ExtractTargets := fun _ => embedded;
     Generate := fun targets => Join targets ",";
     TargetToExecutable := fun target => target;
     mustex := fun _ => true;
     getModifiedFiles := fun _ =>
       match modifiedErr with
       | Some e => inr e
       | None => inl ["cloud/prod/app.yaml"]
       end;
     workdirCommit := fun _ => true;
     isRegularFile := fun _ => true;
     Getenv := fun _ => "0123456789abcdef";
     serverCreatePR := fun _ _ _ _ _ => None |}.

End Prer.

(** ** The push coordinator: [processResolvedImages] as a transition system

    [processResolvedImages] starts [PushParallelism] goroutines that each
    receive commands from one unbuffered channel and run them with
    [exec.Mustex]; the caller sends every command, closes the channel and
    waits on the [sync.WaitGroup].  The goroutines interleave freely; a
    run of the function is a sequence of the atomic steps below, chosen by
    the scheduler. *)

Module PushCoordinator.

(** One of the goroutines started by the [for i := 0; ...] loop. *)
Inductive worker : Type :=
| Receiving                (* blocked in [range resolvedPushChan] *)
| Running (cmd : string)   (* inside [exec.Mustex] on [cmd] *)
| Done.                    (* channel closed: loop left, [wg.Done()] ran *)

(** The goroutine that called [processResolvedImages]. *)
Inductive coordinator : Type :=
| Sending (queue : list string)  (* in the loop of sends; commands left *)
| Waiting                        (* after [close], in [wg.Wait()] *)
| Returned.

Record state : Type := {
  coord : coordinator;
  workers : list worker;
  (** commands received by a worker so far, in order *)
  started : list string;
  (** commands whose [Mustex] has returned, in order *)
  completed : list string;
  (** a command failed and [Mustex] ended the process *)
  exited : bool
}.

Inductive action : Type :=
| Handoff (i : nat)    (* the pending send meets the receive of worker i *)
| Complete (i : nat)   (* the command run by worker i ends *)
| Close                (* [close(resolvedPushChan)] *)
| Leave (i : nat)      (* worker i finds the channel closed *)
| Return.              (* [wg.Wait()] returns *)

Definition is_done (wk : worker) : bool :=
  match wk with Done => true | _ => false end.

Definition is_running (wk : worker) : bool :=
  match wk with Running _ => true | _ => false end.

(** The commands being run at this moment. *)
Fixpoint running (wks : list worker) : list string :=
  match wks with
  | [] => []
  | Running c :: wks' => c :: running wks'
  | _ :: wks' => running wks'
  end.

Definition queue (c : coordinator) : list string :=
  match c with Sending q => q | _ => [] end.

(** The state after [wg.Add(n)] and the [n] [go] statements. *)
Definition init (n : nat) (cmds : list string) : state :=
  {| coord := Sending cmds; workers := replicate n Receiving;
     started := []; completed := []; exited := false |}.

(** [wg.Add] panics when the counter becomes negative: no state then. *)
Definition start (parallelism : Z) (cmds : list string) : option state :=
  if Z.ltb parallelism 0 then None
  else Some (init (Z.to_nat parallelism) cmds).

Section Steps.

(** Modelled from the spec: [exec.Mustex] runs an external command; a
    command that fails is fatal to the run.  [true]: the command
    succeeds. *)
Variable mustex : string -> bool.

Definition step (a : action) (s : state) : option state :=
  if exited s then None
  else
    match a with
    | Handoff i =>
        match coord s, workers s !! i with
        | Sending (c :: q), Some Receiving =>
            Some {| coord := Sending q;
                    workers := <[i := Running c]> (workers s);
                    started := started s ++ [c];
                    completed := completed s;
                    exited := false |}
        | _, _ => None
        end
    | Complete i =>
        match workers s !! i with
        | Some (Running c) =>
            if mustex c
            then Some {| coord := coord s;
                         workers := <[i := Receiving]> (workers s);
                         started := started s;
                         completed := completed s ++ [c];
                         exited := false |}
            else Some {| coord := coord s; workers := workers s;
                         started := started s; completed := completed s;
                         exited := true |}
        | _ => None
        end
    | Close =>
        match coord s with
        | Sending [] =>
            Some {| coord := Waiting; workers := workers s;
                    started := started s; completed := completed s;
                    exited := false |}
        | _ => None
        end
    | Leave i =>
        match coord s, workers s !! i with
        | Waiting, Some Receiving =>
            Some {| coord := Waiting;
                    workers := <[i := Done]> (workers s);
                    started := started s; completed := completed s;
                    exited := false |}
        | _, _ => None
        end
    | Return =>
        match coord s with
        | Waiting =>
            if forallb is_done (workers s)
            then Some {| coord := Returned; workers := workers s;
                         started := started s; completed := completed s;
                         exited := false |}
            else None
        | _ => None
        end
    end.

(** A run under the schedule [acts]; [None] when the schedule asks for a
    step that is not enabled. *)
Fixpoint exec (acts : list action) (s : state) : option state :=
  match acts with
  | [] => Some s
  | a :: acts' =>
      match step a s with
      | Some s' => exec acts' s'
      | None => None
      end
  end.

(** What is left to do: decreases by one with every step. *)
Definition phase (c : coordinator) : nat :=
  match c with Sending _ => 2 | Waiting => 1 | Returned => 0 end.

Definition load (wk : worker) : nat :=
  match wk with Running _ => 2 | Receiving => 1 | Done => 0 end.

Definition remaining (s : state) : nat :=
  2 * length (queue (coord s)) + sum_list (map load (workers s))
  + phase (coord s).

End Steps.

(** What holds of every state that a run from [init n cmds] reaches when
    no command fails. *)
Record inv (n : nat) (cmds : list string) (s : state) : Prop := {
  inv_workers : length (workers s) = n;
  inv_sent : (started s ++ queue (coord s))%list = cmds;
  inv_perm : Permutation (started s)
               (completed s ++ running (workers s))%list;
  inv_alive : exited s = false;
  inv_phase :
    match coord s with
    | Sending _ => Forall (fun wk => is_done wk = false) (workers s)
    | Waiting => True
    | Returned => forallb is_done (workers s) = true
    end
}.

(** *** The scenario of the specification: seven commands, three workers *)

Definition sevenPushes : list string :=
  ["push1"; "push2"; "push3"; "push4"; "push5"; "push6"; "push7"].

Definition oneSchedule : list action :=
  [Handoff 0; Handoff 1; Handoff 2; Complete 1; Handoff 1; Complete 0;
   Complete 2; Handoff 2; Handoff 0; Complete 0; Handoff 0; Close;
   Complete 1; Leave 1; Complete 0; Complete 2; Leave 0; Leave 2; Return].

Definition afterSchedule : state :=
  {| coord := Returned; workers := [Done; Done; Done];
     started := sevenPushes;
     completed := ["push2"; "push1"; "push3"; "push6"; "push4"; "push7";
                   "push5"];
     exited := false |}.

End PushCoordinator.

(** ** Relations used to state what the resolver leaves alone *)

Module Frame.

(** [framed allow v v']: the tree [v'] is the tree [v] except, possibly,
    for string values bound to a key in [allow], which may be other
    strings.  Keys, their order, and every other value are the same. *)
Inductive framed (allow : string -> Prop) : value -> value -> Prop :=
| framed_same v : framed allow v v
| framed_seq l l' :
    Forall2 (framed allow) l l' -> framed allow (VSeq l) (VSeq l')
| framed_map m m' :
    Forall2 (framed_entry allow) m m' -> framed allow (VMap m) (VMap m')
with framed_entry (allow : string -> Prop)
    : string * value -> string * value -> Prop :=
| entry_framed k v v' : framed allow v v' -> framed_entry allow (k, v) (k, v')
| entry_allowed k s s' :
    allow k -> framed_entry allow (k, VStr s) (k, VStr s').

(** The keys whose string values the transformer writes. *)
Definition imageOrValue (k : string) : Prop := k = "image" \/ k = "value".

Definition valueOnly (k : string) : Prop := k = "value".

(** The trees of the decoded documents of a stream, in order. *)
Fixpoint documents (input : list Resolver.decoded) : list object :=
  match input with
  | [] => []
  | Resolver.Decoded obj :: input' => obj :: documents input'
  | Resolver.DecodeError _ :: input' => documents input'
  end.

(** The chunks [b1; ---; b2; ---; ...; bn]: the marker between the
    documents and not before the first. *)
Fixpoint separated (bufs : list string) : list string :=
  match bufs with
  | [] => []
  | [buf] => [buf]
  | buf :: bufs' => buf :: Resolver.separator :: separated bufs'
  end.

(** The chunks [---; b1; ---; b2; ...]: the marker before every
    document. *)
Fixpoint eachSeparated (bufs : list string) : list string :=
  match bufs with
  | [] => []
  | buf :: bufs' => Resolver.separator :: buf :: eachSeparated bufs'
  end.

End Frame.

(** ** Predicates on the inputs of the resolver *)

Module ResolverSpec.

Import Strings Resolver.

(** An [env] entry that [updateContainerEnv] has something to write in:
    a mapping whose name contains [IMAGE_URL] and whose value is a string
    that begins with the build-target prefix or with a colon. *)
Definition envRewritable (e : value) : bool :=
  match e with
  | VMap kv =>
      match mget "name" kv, mget "value" kv with
      | Some (VStr envName), Some (VStr envValue) =>
          Contains envName "IMAGE_URL"
          && (HasPrefix envValue "//" || HasPrefix envValue ":")
      | _, _ => false
      end
  | _ => false
  end.

(** The messages of the two errors of the transformer for the
    reference [imagename]. *)
Definition unresolvedMessage (imagename e : string) : Prop :=
  e = "Unresolved image found: " ++ imagename \/
  e = "unresolved image found: " ++ imagename.

(** Every error of [x] is the message for a reference with the
    build-target prefix. *)
Definition names_reference {A : Type} (x : outcome A) : Prop :=
  forall e t, x = Err e t ->
    exists imagename,
      HasPrefix imagename "//" = true /\ unresolvedMessage imagename e.

(** What [ResolveImages] writes for one document: the marshalled tree
    that the transformer left. *)
Definition written_for (marshal : object -> option string)
    (images : gmap string string) (obj : object) (buf : string) : Prop :=
  exists t, tree_of (transform images obj) = Some t /\ marshal t = Some buf.

(** Some string of the tree begins with the build-target prefix. *)
Fixpoint mentionsRef (v : value) : bool :=
  match v with
  | VStr s => HasPrefix s "//"
  | VSeq l => existsb mentionsRef l
  | VMap m => existsb (fun kv => mentionsRef kv.2) m
  | _ => false
  end.

(** No value of the image map begins with the build-target prefix. *)
Definition plainImages (images : gmap string string) : Prop :=
  forall k v, images !! k = Some v -> HasPrefix v "//" = false.

(** The outcome is no error, and a tree it returns mentions no
    reference. *)
Definition staysFree {A : Type} (mentions : A -> bool) (x : outcome A)
    : Prop :=
  match x with
  | Ok a => mentions a = false
  | Err _ _ => False
  | Panic | OutOfFuel => True
  end.

(** A sequence of mappings: what [updateContainers] asserts of the
    field it is called on. *)
Definition seqOfMaps (v : value) : bool :=
  match v with
  | VSeq l => forallb is_map l
  | _ => false
  end.

(** The field [path] is there and does not hold a mapping. *)
Definition wrongMap (path : string) (obj : object) : bool :=
  match mget path obj with
  | Some v => negb (is_map v)
  | None => false
  end.

(** The field [path] is there and does not hold a sequence of mappings. *)
Definition wrongSeq (path : string) (obj : object) : bool :=
  match mget path obj with
  | Some v => negb (seqOfMaps v)
  | None => false
  end.

(** A container-shape field of the node is ill-typed. *)
Definition illTyped (obj : object) : bool :=
  wrongMap "container" obj || wrongMap "spec" obj
  || wrongSeq "containers" obj || wrongSeq "initContainers" obj.

(** [visits obj node]: the traversal that starts at [obj] comes to
    [node], as far as the shape of the tree decides it: the node itself,
    and from a node without an [initContainers] field every child
    mapping and every mapping among the elements of a child sequence. *)
Inductive visits : object -> object -> Prop :=
| visits_here obj : visits obj obj
| visits_child obj key child node :
    has "initContainers" obj = false ->
    (key, VMap child) ∈ obj ->
    visits child node ->
    visits obj node
| visits_item obj key items item node :
    has "initContainers" obj = false ->
    (key, VSeq items) ∈ obj ->
    VMap item ∈ items ->
    visits item node ->
    visits obj node.

(** A deployment whose pod template has a string for its containers. *)
Definition deepBad : object :=
  [("apiVersion", VStr "apps/v1"); ("kind", VStr "Deployment");
   ("metadata", VMap [("name", VStr "app")]);
   ("spec", VMap [
      ("replicas", VNum 2);
      ("template", VMap [
         ("spec", VMap [("containers", VStr "none")])])])].

(** The image map of the second scenario of the specification. *)
Definition shortImages : gmap string string :=
  {[ "app:image" := "registry.example.com/app:v2" ]}.

End ResolverSpec.

(** ** Processes that follow a script *)

Module Script.

Import Go.

(** [m] performs the events of [full] in their order and nothing else:
    whatever the outcome, what it has added to the trace is a prefix of
    [full], and all of [full] when it returns a value in [ok]. *)
Definition inOrder {A : Type} (ok : A -> Prop) (full : list event)
    (m : Proc A) : Prop :=
  forall tr, exists evs,
    snd (m tr) = (tr ++ evs)%list /\
    prefix evs full /\
    (forall a, fst (m tr) = inl a -> ok a -> evs = full).

(** [m] performs nothing and returns no value in [ok]. *)
Definition stops {A : Type} (ok : A -> Prop) (m : Proc A) : Prop :=
  forall tr, snd (m tr) = tr /\ forall a, fst (m tr) = inl a -> ~ ok a.

Definition any {A : Type} (a : A) : Prop := True.

Definition isNil (err : option string) : Prop := err = None.

End Script.

(** ** Expected effects of the hosting client *)

Module GithubAppSpec.

Import GithubApp.

(** The entry of [getFilesToCommit] for an input path that is a regular
    file. *)
Definition entryOf (gitopsPath inputPath : string) : FileEntry :=
  let inputPath := Strings.TrimSuffixByte inputPath "/"%char in
  {| RelativePath := inputPath;
     FullPath := Filepath.Join gitopsPath inputPath |}.

(** The calls of a complete [CreateCommit], in their order. *)
Definition commitCalls (baseBranch commitBranch : string)
    (entries : list FileEntry) (prTitle prDescription : string)
    : list event :=
  ([ApiGetRef ("refs/heads/" ++ baseBranch);
    ApiCreateRef ("refs/heads/" ++ commitBranch)]
   ++ map (fun f => ReadFile (FullPath f)) entries
   ++ [ApiCreateTree (map RelativePath entries);
       ApiGetCommit;
       ApiCreateCommit prTitle;
       ApiUpdateRef;
       ApiCreatePullRequest commitBranch baseBranch prTitle prDescription])%list.

(** A provider whose files are all regular, except that [missing]
    cannot be accessed and [unreadable] cannot be read. *)
Definition files (missing unreadable : string) : Provider :=
  {| NewKeyFromFile := fun _ _ _ => None;
     NewEnterpriseClient := fun _ _ => None;
     PullRequestsCreate := fun _ _ _ _ => Created "https://example.com/pr/1";
     Stat := fun p =>
       if String.eqb p missing then inr "no such file or directory"
       else inl false;
     Walk := fun _ _ => inl [];
     GetRef := fun _ => None;
     CreateRef := fun _ => None;
     ReadFileContent := fun p =>
       if String.eqb p unreadable then Some "permission denied" else None;
     CreateTree := fun _ => None;
     GetCommit := None;
     CreateGitCommit := fun _ => None;
     UpdateRef := None |}.

End GithubAppSpec.

(** ** Expected effects of the command *)

Module PrerSpec.

Import Go Strings Prer.

(** An argument of [-resolved_binary]: the train, a colon, the binary. *)
Definition binding (p : string * string) : string := p.1 ++ ":" ++ p.2.

(** No colon occurs in [s]. *)
Fixpoint noColon (s : string) : bool :=
  match s with
  | EmptyString => true
  | String a s' => negb (Ascii.eqb a ":") && noColon s'
  end.

(** The deployment branch of a train. *)
Definition branchOf (cfg : Config) (train : string) : string :=
  "deploy/" ++ train ++ DeploymentBranchSuffix cfg.

(** The request for the pull request of [branch] as [createPullRequests]
    sends it to a token-authenticated server. *)
Definition requestOf (cfg : Config) (branch : string) : event :=
  ServerCreatePR (GitHost cfg) branch (PRTargetBranch cfg)
    (if String.eqb (PRTitle cfg) EmptyString
     then "GitOps deployment " ++ branch else PRTitle cfg)
    (if String.eqb (PRBody cfg) EmptyString then branch else PRBody cfg).

(** The answer of the server to that request. *)
Definition answerTo (cfg : Config) (w : World) (branch : string)
    : option string :=
  serverCreatePR w (GitHost cfg) branch (PRTargetBranch cfg)
    (if String.eqb (PRTitle cfg) EmptyString
     then "GitOps deployment " ++ branch else PRTitle cfg)
    (if String.eqb (PRBody cfg) EmptyString then branch else PRBody cfg).

(** The files that [GetModifiedFiles] reports on the branch of a train. *)
Definition filesOf (cfg : Config) (w : World) (train : string)
    : list string :=
  match getModifiedFiles w (branchOf cfg train) with
  | inl files => files
  | inr _ => []
  end.

(** Did the commit on the branch of the train hold changes. *)
Definition changed (cfg : Config) (w : World)
    (train : string * list string) : bool :=
  workdirCommit w (branchOf cfg train.1).

(** The events of branch selection. *)
Definition selects (e : event) : bool :=
  match e with
  | SwitchToBranch _ _ | RecreateBranch _ _ => true
  | _ => false
  end.

(** The deployment branch of the train exists already, and the target
    list embedded in its last commit message holds a target that the
    train does not have now. *)
Definition stale (cfg : Config) (w : World) (train : string)
    (targets : list string) : Prop :=
  switchToBranch w (branchOf cfg train) (PRTargetBranch cfg) = false /\
  exists t,
    t ∈ ExtractTargets w (getLastCommitMessage w (branchOf cfg train)) /\
    t ∉ targets.

(** What a trace says of branch selection when [visited] are the trains
    the loop has come to: their branches are the ones switched to, and
    the stale ones among them the ones recreated, all from the target
    branch. *)
Definition selected (cfg : Config) (w : World)
    (visited : list (string * list string)) (evs : list event) : Prop :=
  forall b q,
    (SwitchToBranch b q ∈ evs <->
     q = PRTargetBranch cfg /\
     exists p, p ∈ visited /\ b = branchOf cfg p.1) /\
    (RecreateBranch b q ∈ evs <->
     q = PRTargetBranch cfg /\
     exists p, p ∈ visited /\ b = branchOf cfg p.1 /\ stale cfg w p.1 p.2).

(** The events that reach the remote repository or its hosting
    provider. *)
Definition remote (e : event) : bool :=
  match e with
  | WorkdirPush _ | ServerCreatePR _ _ _ _ _
  | ApiGetRef _ | ApiCreateRef _ | ApiCreateTree _ | ApiGetCommit
  | ApiCreateCommit _ | ApiUpdateRef | ApiCreatePullRequest _ _ _ _ => true
  | _ => false
  end.

(** The events by which the deployment branches are published. *)
Definition branchPush (e : event) : bool :=
  match e with
  | WorkdirPush _ | ServerCreatePR _ _ _ _ _ => true
  | _ => false
  end.

(** Neither remote nor the run of a command. *)
Definition quiet (e : event) : bool :=
  match e with
  | Exec _ => false
  | _ => negb (remote e)
  end.

(** Local, and if a command, one that renders manifests without pushing. *)
Definition rendersOnly (e : event) : Prop :=
  remote e = false /\ forall cmd, e = Exec cmd -> "--nopush" ∈ cmd.

(** [deployConfig] for a run that publishes through [host]. *)
Definition serverConfig (host : string) (binaries : list string)
    : Config :=
  {| GitRepo := "git@example.com:acme/deployments.git";
     GitMirror := EmptyString;
     GitHost := host;
     BranchName := "main";
     GitCommit := "0123456789abcdef";
     ReleaseBranch := "main";
     PRTargetBranch := "master";
     BazelCmd := "tools/bazel";
     Workspace := EmptyString;
     Targets := "//...";
     GitOpsPath := "cloud";
     GitOpsTmpDir := "/tmp";
     PushParallelism := 1;
     DryRun := false;
     PRTitle := EmptyString;
     PRBody := EmptyString;
     DeploymentBranchSuffix := EmptyString;
     ResolvedBinaries := binaries;
     ResolvedPushes := ["bin/app.push"];
     DependencyKinds := ["k8s_container_push"; "push_oci"];
     DependencyNames := [];
     DependencyAttrs := [] |}.

(** A world in which every collaborator succeeds; the commit on a branch
    holds changes when [changes] says so, and the server refuses the pull
    request of the branch [refused]. *)
Definition calm (changes : string -> bool) (refused : string) : World :=
  {| osChdir := fun _ => None;
     bazelCquery := fun _ => Some [];
     osMkdirTemp := fun base pattern => inl (base ++ "/" ++ pattern ++ "123");
     gitClone := fun _ _ _ _ _ => None;
     switchToBranch := fun _ _ => true;
     getLastCommitMessage := fun _ => "GitOps for release branch main";
     ExtractTargets := fun _ => [];
     Generate := fun targets => Join targets ",";
     TargetToExecutable := fun target => target;
     mustex := fun _ => true;
     getModifiedFiles := fun branch => inl [branch ++ "/app.yaml"];
     workdirCommit := changes;
     isRegularFile := fun _ => true;
     Getenv := fun _ => "0123456789abcdef";
     serverCreatePR := fun _ from _ _ _ =>
       if String.eqb from refused then Some "403 Forbidden" else None |}.

End PrerSpec.

(** ** The worker pool when commands may fail *)

Module PushCoordinatorSpec.

Import PushCoordinator.

(** What holds of every state that a run from [init n cmds] reaches,
    whether the commands succeed or not. *)
Record sound (mustex : string -> bool) (n : nat) (cmds : list string)
    (s : state) : Prop := {
  sound_workers : length (workers s) = n;
  sound_sent : (started s ++ queue (coord s))%list = cmds;
  sound_perm : Permutation (started s)
                 (completed s ++ running (workers s))%list;
  sound_completed : Forall (fun c => mustex c = true) (completed s);
  sound_phase :
    match coord s with
    | Sending _ => Forall (fun wk => is_done wk = false) (workers s)
    | Waiting => True
    | Returned => forallb is_done (workers s) = true /\ exited s = false
    end
}.

(** The second push fails while the first one is still running. *)
Definition secondFails (c : string) : bool := negb (String.eqb c "push2").

Definition failingSchedule : list action :=
  [Handoff 0; Handoff 1; Complete 1].

Definition afterFailure : state :=
  {| coord := Sending ["push3"; "push4"; "push5"; "push6"; "push7"];
     workers := [Running "push1"; Running "push2"; Receiving];
     started := ["push1"; "push2"];
     completed := [];
     exited := true |}.

End PushCoordinatorSpec.

(** * Properties of the resolver *)

Module ResolverFacts.

Import Strings Resolver.

(** ** Reading and writing a mapping *)

Lemma mget_mset_eq (k : string) (v : value) (m : object) :
  mget k (mset k v m) = Some v.
Proof.
  induction m as [|[k' v'] m IH]; simpl.
  - by rewrite String.eqb_refl.
  - destruct (String.eqb k k') eqn:E; simpl; rewrite ?String.eqb_refl, ?E; done.
Qed.

Lemma mget_mset_ne (k k' : string) (v : value) (m : object) :
  k <> k' -> mget k' (mset k v m) = mget k' m.
Proof.
  intros Hne. induction m as [|[k0 v0] m IH]; simpl.
  - destruct (String.eqb k' k) eqn:E; [|done].
    apply String.eqb_eq in E. congruence.
  - destruct (String.eqb k k0) eqn:E; simpl.
    + apply String.eqb_eq in E. subst k0.
      destruct (String.eqb k' k) eqn:E'; [|done].
      apply String.eqb_eq in E'. congruence.
    + by rewrite IH.
Qed.

Lemma has_mset (k k' : string) (v : value) (m : object) :
  has k m = true -> has k' (mset k v m) = has k' m.
Proof.
  unfold has. intros Hk.
  destruct (String.eqb k k') eqn:E.
  - apply String.eqb_eq in E. subst k'. rewrite mget_mset_eq.
    by destruct (mget k m).
  - apply String.eqb_neq in E. by rewrite mget_mset_ne.
Qed.

(** ** Heights *)

Lemma height_VMap (m : object) : height (VMap m) = S (hobj m).
Proof. done. Qed.

Lemma height_VSeq (l : list value) : height (VSeq l) = S (hseq l).
Proof. done. Qed.

Lemma mget_height (k : string) (m : object) (v : value) :
  mget k m = Some v -> height v <= hobj m.
Proof.
  induction m as [|[k' v'] m IH]; simpl; [done|].
  destruct (String.eqb k k'); intros H.
  - injection H as ->. lia.
  - specialize (IH H). lia.
Qed.

Lemma mset_height (k : string) (v : value) (m : object) :
  hobj (mset k v m) <= Nat.max (height v) (hobj m).
Proof.
  induction m as [|[k' v'] m IH]; simpl; [lia|].
  destruct (String.eqb k k'); simpl; lia.
Qed.

Lemma mset_height_le (k : string) (v : value) (m : object) (n : nat) :
  height v <= n -> hobj m <= n -> hobj (mset k v m) <= n.
Proof. intros. pose proof (mset_height k v m). lia. Qed.

Section Heights.

Variable images : gmap string string.

Lemma rewriteEnvValue_height (kv : object) (s : string) :
  hobj (rewriteEnvValue images kv s) <= hobj kv.
Proof.
  unfold rewriteEnvValue.
  repeat case_match; repeat (apply mset_height_le; [simpl|]); lia.
Qed.

Lemma updateEnvEntries_height (env : list value) :
  hseq (updateEnvEntries images env) <= hseq env.
Proof.
  induction env as [|x env IH]; simpl; [done|].
  destruct x as [| | | | |kv]; try (simpl; lia).
  destruct (mget "name" kv) as [[| | |envName| |]|]; try (simpl; lia).
  destruct (Contains envName "IMAGE_URL"); [|simpl in *; lia].
  destruct (mget "value" kv) as [[| | |envValue| |]|]; try (simpl; lia).
  pose proof (rewriteEnvValue_height kv envValue). simpl in *. lia.
Qed.

Lemma updateContainerEnv_height (c : object) :
  hobj (updateContainerEnv images c) <= hobj c.
Proof.
  unfold updateContainerEnv. repeat case_match; try lia. subst.
  apply mset_height_le; [|lia].
  rewrite height_VSeq.
  pose proof (updateEnvEntries_height l).
  pose proof (mget_height _ _ _ H) as Hh. rewrite height_VSeq in Hh. lia.
Qed.

Lemma updateContainerList_height (cs cs' : list value) :
  updateContainerList images cs = Ok cs' -> hseq cs' <= hseq cs.
Proof.
  revert cs'. induction cs as [|c cs IH]; simpl; intros cs' H.
  - by injection H as <-.
  - destruct c as [| | | | |container]; try done.
    pose proof (updateContainerEnv_height container) as Hc.
    assert (Hk : forall c0 : object, hobj c0 <= hobj container ->
      omap (cons (VMap c0)) (updateContainerList images cs) = Ok cs' ->
      hseq cs' <= Nat.max (S (hobj container)) (hseq cs)).
    { intros c0 Hc0 Hm. unfold omap, andThen in Hm.
      destruct (updateContainerList images cs) as [l| | |]; try done.
      injection Hm as <-. specialize (IH l eq_refl). simpl. lia. }
    repeat case_match; subst; try done; simpl; try (apply Hk in H; [lia|]); try done.
    apply mset_height_le; simpl; lia.
Qed.

Lemma updateContainers_height (obj obj' : object) (path : string) :
  updateContainers images obj path = Ok obj' -> hobj obj' <= hobj obj.
Proof.
  unfold updateContainers. intros H.
  destruct (mget path obj) as [[| | | |cs|]|] eqn:E; try done.
  unfold omap, andThen in H.
  destruct (updateContainerList images cs) as [cs'| | |] eqn:E'; try done.
  injection H as <-.
  apply updateContainerList_height in E'.
  apply mget_height in E. rewrite height_VSeq in E.
  apply mset_height_le; [rewrite height_VSeq|]; lia.
Qed.

Lemma updateContainer_height (obj obj' : object) (path : string) :
  updateContainer images obj path = Ok obj' -> hobj obj' <= hobj obj.
Proof.
  unfold updateContainer. intros H.
  destruct (mget path obj) as [[| | | | |c]|] eqn:E; try done.
  apply mget_height in E. rewrite height_VMap in E.
  pose proof (updateContainerEnv_height c) as Hc.
  assert (Hi : forall n, hobj (mset "image" (VStr n)
                              (updateContainerEnv images c)) <= hobj c)
    by (intros; apply mset_height_le; simpl; lia).
  repeat case_match; try done; injection H as <-;
    (apply mset_height_le; [simpl|lia]);
    try match goal with |- context [VStr ?n] => pose proof (Hi n) end; lia.
Qed.

(** ** The counter of the recursion is never used up *)

Lemma updateContainerList_fuel (cs : list value) :
  updateContainerList images cs <> OutOfFuel.
Proof.
  induction cs as [|c cs IH]; simpl; [done|].
  destruct c as [| | | | |container]; try done.
  unfold omap, andThen.
  destruct (updateContainerList images cs); try done;
    repeat case_match; done.
Qed.

Lemma updateContainers_fuel (obj : object) (path : string) :
  updateContainers images obj path <> OutOfFuel.
Proof.
  unfold updateContainers, omap, andThen.
  pose proof updateContainerList_fuel.
  repeat case_match; naive_solver.
Qed.

Lemma updateContainer_fuel (obj : object) (path : string) :
  updateContainer images obj path <> OutOfFuel.
Proof. unfold updateContainer. repeat case_match; done. Qed.

Lemma updateContainer_has (obj obj' : object) (path k : string) :
  updateContainer images obj path = Ok obj' -> has k obj' = has k obj.
Proof.
  unfold updateContainer. intros H.
  destruct (mget path obj) as [[| | | | |c]|] eqn:E; try done.
  assert (Hp : has path obj = true) by (unfold has; by rewrite E).
  repeat case_match; try done; injection H as <-; by apply has_mset.
Qed.

Lemma updateContainers_has (obj obj' : object) (path k : string) :
  updateContainers images obj path = Ok obj' -> has k obj' = has k obj.
Proof.
  unfold updateContainers, omap, andThen. intros H.
  destruct (mget path obj) as [[| | | |cs|]|] eqn:E; try done.
  assert (Hp : has path obj = true) by (unfold has; by rewrite E).
  destruct (updateContainerList images cs); try done.
  injection H as <-. by apply has_mset.
Qed.

(** What the loops over the paths leave behind: a tree that is no
    higher, with the same keys, and in [found] the presence of the last
    path. *)
Lemma forPaths_spec (update : object -> string -> outcome object)
    (paths : list string) (found found' : bool) (obj obj' : object) :
  (forall o o' p, update o p = Ok o' ->
     (hobj o' <= hobj o) /\ forall k, has k o' = has k o) ->
  forPaths update paths found obj = Ok (found', obj') ->
  hobj obj' <= hobj obj /\ (forall k, has k obj' = has k obj) /\
  found' = match last paths with Some p => has p obj | None => found end.
Proof.
  intros Hu. revert found obj.
  induction paths as [|p paths IH]; simpl; intros found obj H.
  - injection H as <- <-. done.
  - assert (Hlast : forall o : object, (forall k, has k o = has k obj) ->
      match last paths with Some p0 => has p0 o | None => has p obj end =
      match last (p :: paths) with Some p0 => has p0 obj | None => found end).
    { intros o Ho. rewrite last_cons.
      destruct (last paths); [apply Ho|done]. }
    destruct (has p obj) eqn:Ep.
    + unfold andThen in H.
      destruct (update obj p) as [o| | |] eqn:Eu; try done.
      destruct (Hu _ _ _ Eu) as [Hh Hk].
      destruct (IH _ _ H) as (Hh' & Hk' & Hf).
      split; [lia|]. split; [intros k; by rewrite Hk'|].
      rewrite Hf. rewrite <- (Hlast o Hk).
      destruct (last paths); [|done]. done.
    + destruct (IH _ _ H) as (Hh' & Hk' & Hf).
      split; [done|]. split; [done|].
      rewrite Hf. by rewrite <- (Hlast obj).
Qed.

Lemma forPaths_fuel (update : object -> string -> outcome object)
    (paths : list string) (found : bool) (obj : object) :
  (forall o p, update o p <> OutOfFuel) ->
  forPaths update paths found obj <> OutOfFuel.
Proof.
  intros Hu. revert found obj.
  induction paths as [|p paths IH]; simpl; intros found obj; [done|].
  destruct (has p obj); [|apply IH].
  unfold andThen. specialize (Hu obj p).
  destruct (update obj p); done || apply IH.
Qed.

Lemma handleShapes_spec (obj obj' : object) (found : bool) :
  handleShapes images obj = Ok (found, obj') ->
  hobj obj' <= hobj obj /\ (forall k, has k obj' = has k obj) /\
  found = has "initContainers" obj.
Proof.
  unfold handleShapes, andThen. intros H.
  destruct (forPaths (updateContainer images) _ false obj)
    as [[f1 o1]| | |] eqn:E1; try done.
  apply forPaths_spec in E1 as (Hh1 & Hk1 & _).
  2:{ intros o o' p Hu. split; [by eapply updateContainer_height|].
      intros k. by eapply updateContainer_has. }
  apply forPaths_spec in H as (Hh2 & Hk2 & Hf).
  2:{ intros o o' p Hu. split; [by eapply updateContainers_height|].
      intros k. by eapply updateContainers_has. }
  split; [lia|]. split; [intros k; by rewrite Hk2|].
  simpl in Hf. by rewrite Hf.
Qed.

Lemma handleShapes_fuel (obj : object) :
  handleShapes images obj <> OutOfFuel.
Proof.
  unfold handleShapes, andThen.
  pose proof (forPaths_fuel (updateContainer images) ["container"; "spec"]
                false obj updateContainer_fuel).
  destruct (forPaths (updateContainer images) _ false obj)
    as [[f1 o1]| | |]; try done.
  apply forPaths_fuel, updateContainers_fuel.
Qed.

Lemma visitItems_ext (visit visit' : object -> outcome object) (n : nat)
    (items : list value) :
  (forall t, S (hobj t) <= n -> visit t = visit' t) ->
  hseq items <= n ->
  visitItems visit items = visitItems visit' items.
Proof.
  intros Hv. induction items as [|x items IH]; simpl; intros Hn; [done|].
  destruct x as [| | | | |t]; simpl in Hn; rewrite ?IH by lia; try done.
  rewrite Hv by lia. unfold andThen. destruct (visit' t); try done.
Qed.

Lemma visitChildren_ext (visit visit' : object -> outcome object) (n : nat)
    (obj : object) :
  (forall t, S (hobj t) <= n -> visit t = visit' t) ->
  hobj obj <= n ->
  visitChildren visit obj = visitChildren visit' obj.
Proof.
  intros Hv. induction obj as [|[k v] obj IH]; simpl; intros Hn; [done|].
  destruct v as [| | | | l |t]; simpl in Hn; rewrite ?IH by lia; try done.
  - rewrite (visitItems_ext visit visit' n) by (done || lia). done.
  - rewrite Hv by lia. done.
Qed.

Lemma visitItems_fuel (visit : object -> outcome object) (n : nat)
    (items : list value) :
  (forall t, S (hobj t) <= n -> visit t <> OutOfFuel) ->
  hseq items <= n ->
  visitItems visit items <> OutOfFuel.
Proof.
  intros Hv. induction items as [|x items IH]; simpl; intros Hn; [done|].
  assert (visitItems visit items <> OutOfFuel) by (apply IH; lia).
  destruct x as [| | | | |t]; simpl in Hn; unfold omap, andThen;
    try (destruct (visitItems visit items); done).
  assert (visit t <> OutOfFuel) by (apply Hv; lia).
  destruct (visit t); try done.
  destruct (visitItems visit items); done.
Qed.

Lemma visitChildren_fuel (visit : object -> outcome object) (n : nat)
    (obj : object) :
  (forall t, S (hobj t) <= n -> visit t <> OutOfFuel) ->
  hobj obj <= n ->
  visitChildren visit obj <> OutOfFuel.
Proof.
  intros Hv. induction obj as [|[k v] obj IH]; simpl; intros Hn; [done|].
  assert (visitChildren visit obj <> OutOfFuel) by (apply IH; lia).
  destruct v as [| | | | l |t]; simpl in Hn; unfold omap, andThen;
    try (destruct (visitChildren visit obj); done).
  - assert (visitItems visit l <> OutOfFuel)
      by (apply (visitItems_fuel visit n); [done|lia]).
    destruct (visitItems visit l); try done.
    destruct (visitChildren visit obj); done.
  - assert (visit t <> OutOfFuel) by (apply Hv; lia).
    destruct (visit t); try done.
    destruct (visitChildren visit obj); done.
Qed.

Lemma findAndReplaceTag_S (fuel : nat) (obj : object) :
  findAndReplaceTag images (S fuel) obj =
  andThen (handleShapes images obj) snd
    (fun '(found, obj') =>
       if negb found then visitChildren (findAndReplaceTag images fuel) obj'
       else Ok obj').
Proof. done. Qed.

Lemma findAndReplaceTag_fuel (fuel : nat) (obj : object) :
  hobj obj < fuel -> findAndReplaceTag images fuel obj <> OutOfFuel.
Proof.
  revert obj. induction fuel as [|fuel IH]; intros obj Hf; [lia|].
  simpl. unfold andThen.
  pose proof (handleShapes_fuel obj).
  destruct (handleShapes images obj) as [[found obj']| | |] eqn:E; try done.
  apply handleShapes_spec in E as (Hh & _ & _).
  destruct found; simpl; [done|].
  apply (visitChildren_fuel _ (hobj obj')); [|done].
  intros t Ht. apply IH. lia.
Qed.

Lemma findAndReplaceTag_enough (fuel fuel' : nat) (obj : object) :
  hobj obj < fuel -> hobj obj < fuel' ->
  findAndReplaceTag images fuel obj = findAndReplaceTag images fuel' obj.
Proof.
  revert fuel' obj. induction fuel as [|fuel IH]; intros fuel' obj Hf Hf';
    [lia|].
  destruct fuel' as [|fuel']; [lia|].
  simpl. unfold andThen.
  destruct (handleShapes images obj) as [[found obj']| | |] eqn:E; try done.
  apply handleShapes_spec in E as (Hh & _ & _).
  destruct found; simpl; [done|].
  apply (visitChildren_ext _ _ (hobj obj')); [|done].
  intros t Ht. apply IH; lia.
Qed.

(** The transformer always comes to an end. *)
Lemma transform_total (obj : object) : transform images obj <> OutOfFuel.
Proof. apply findAndReplaceTag_fuel. simpl. lia. Qed.

(** [findAndReplaceTag] on a document, with the recursive calls being
    those of [findContainers] on the children. *)
Lemma transform_unfold (obj : object) :
  transform images obj =
  andThen (handleShapes images obj) snd
    (fun '(found, obj') =>
       if negb found then visitChildren (transform images) obj'
       else Ok obj').
Proof.
  unfold transform at 1. rewrite findAndReplaceTag_S. unfold andThen.
  destruct (handleShapes images obj) as [[found obj']| | |] eqn:E; try done.
  apply handleShapes_spec in E as (Hh & _ & _).
  destruct found; simpl negb; cbv iota; [done|].
  apply (visitChildren_ext _ _ (hobj obj')); [|done].
  intros t Ht. unfold transform.
  apply findAndReplaceTag_enough; rewrite ?height_VMap; lia.
Qed.

End Heights.

(** ** Evaluating the code on the documents of the specification *)

(** C1.  The specification: a container image that begins with the
    build-target prefix and that no resolution rule resolves makes the
    whole [ResolveImages] call fail with an error naming the reference,
    so that the label never reaches the output.  The code: the
    transformer does return that error, but [ResolveImages] does not look
    at what [findAndReplaceTag] returns; the call returns [nil] and the
    document is written with the label in it. *)
Theorem C1_unresolved_label_is_written :
  transform ∅ (pod "//app:image")
    = Err "Unresolved image found: //app:image" (pod "//app:image") /\
  ResolveImages renderDoc buffer ∅ [Decoded (pod "//app:image")]
    = (Return None,
       ["{apiVersion: v1, kind: Pod, metadata: {name: app}, spec: {containers: [{name: main, image: //app:image}]}}"]).
Proof. split; vm_compute; reflexivity. Qed.

(** The error of the transformer never shows in what [ResolveImages]
    does: a document on which it returns an error is written like one on
    which it returns [nil]. *)
Lemma decodeLoop_drops_error (marshal : object -> option string)
    (write : list string -> string -> option string)
    (images : gmap string string) (obj obj' : object) (e : string)
    (rest : list decoded) (first : bool) (out : list string) :
  refused (Decoded obj) = None ->
  transform images obj = Err e obj' ->
  decodeLoop marshal write images (Decoded obj :: rest) first out =
  match marshal obj' with
  | None => (Return (Some (UnableToMarshal obj')), out)
  | Some buf =>
      let '(err, out) :=
        if first then (None, out) else Write write out separator in
      match err with
      | Some e => (Return (Some (WriteFailed e)), out)
      | None =>
          let '(err, out) := Write write out buf in
          match err with
          | Some e => (Return (Some (WriteFailed e)), out)
          | None => decodeLoop marshal write images rest false out
          end
      end
  end.
Proof.
  intros Hr Ht. simpl in *.
  destruct (String.eqb (GetName obj) EmptyString); [done|].
  destruct (String.eqb (GetKind obj) EmptyString); [done|].
  by rewrite Ht.
Qed.

(** The sequence shape resolves an exact key wherever the element
    stands, as long as the loop gets to it. *)
Lemma updateContainerList_exact (images : gmap string string)
    (container : object) (rest : list value) (imagename newname : string) :
  mget "image" (updateContainerEnv images container) = Some (VStr imagename) ->
  images !! imagename = Some newname ->
  updateContainerList images (VMap container :: rest) =
  omap (cons (VMap (mset "image" (VStr newname)
                      (updateContainerEnv images container))))
       (updateContainerList images rest).
Proof.
  intros Hi Hn. simpl. rewrite Hi. unfold resolveImageName. by rewrite Hn.
Qed.

(** The single-container shape never gets to the lookup for a name
    with the build-target prefix, whatever the image map holds. *)
Lemma updateContainer_prefix_first (images : gmap string string)
    (obj container : object) (path imagename : string) :
  mget path obj = Some (VMap container) ->
  mget "image" (updateContainerEnv images container) = Some (VStr imagename) ->
  HasPrefix imagename "//" = true ->
  updateContainer images obj path
  = Err ("unresolved image found: " ++ imagename)
        (mset path (VMap (updateContainerEnv images container)) obj).
Proof.
  intros Hp Hi Hx. unfold updateContainer. by rewrite Hp, Hi, Hx.
Qed.

(** C2.  The specification: an image that is an exact key of the image
    map is rewritten to the mapped value in every shape, in a
    [containers] sequence as in the mapping of a [container] or [spec]
    field.  The code: [updateContainers] does so, but [updateContainer]
    tests the build-target prefix before it looks up the name; for the
    map and the image of the specification's own scenario it returns
    "unresolved image found" and leaves the field as it was, and
    [ResolveImages] writes the document unchanged. *)
Theorem C2_single_container_not_rewritten :
  updateContainers appImages
      [("containers", VSeq [VMap [("image", VStr "//app:image")]])]
      "containers"
    = Ok [("containers",
           VSeq [VMap [("image", VStr "registry.example.com/app:abc123")]])] /\
  updateContainer appImages
      [("container", VMap [("image", VStr "//app:image")])] "container"
    = Err "unresolved image found: //app:image"
          [("container", VMap [("image", VStr "//app:image")])] /\
  ResolveImages renderDoc buffer appImages [Decoded (task "//app:image")]
    = (Return None,
       ["{kind: Task, metadata: {name: build}, spec: {container: {image: //app:image}}}"]).
Proof.
  split; [vm_compute; reflexivity|].
  split; vm_compute; reflexivity.
Qed.

(** ** The traversal *)




(** ** The decoding loop *)

(** C6, the claim as stated fails: the second document has no
    [metadata.name], the call returns the error, and the first document
    has been written all the same. *)
Lemma C6_counterexample :
  ResolveImages renderDoc buffer ∅ [Decoded (pod "app"); Decoded nameless]
    = (Return (Some (MissingName nameless)),
       ["{apiVersion: v1, kind: Pod, metadata: {name: app}, spec: {containers: [{name: main, image: app}]}}"]).
Proof. vm_compute; reflexivity. Qed.

Lemma decodeLoop_refused (marshal : object -> option string)
    (write : list string -> string -> option string)
    (images : gmap string string) (d : decoded) (e : error)
    (rest : list decoded) (first : bool) (out : list string) :
  refused d = Some e ->
  decodeLoop marshal write images (d :: rest) first out
    = (Return (Some e), out).
Proof.
  destruct d as [obj|msg]; simpl.
  - destruct (String.eqb (GetName obj) EmptyString); [by intros [= <-]|].
    destruct (String.eqb (GetKind obj) EmptyString); [by intros [= <-]|done].
  - destruct (isEmptyYamlError msg); [done|by intros [= <-]].
Qed.

Lemma decodeLoop_app (marshal : object -> option string)
    (write : list string -> string -> option string)
    (images : gmap string string) (pre rest : list decoded)
    (first : bool) (out0 out : list string) :
  decodeLoop marshal write images pre first out0 = (Return None, out) ->
  exists first',
    decodeLoop marshal write images (pre ++ rest) first out0
      = decodeLoop marshal write images rest first' out.
Proof.
  revert first out0. induction pre as [|d pre IH]; intros first out0 H.
  - simpl in H. injection H as <-. by exists first.
  - simpl in *. destruct d as [obj|msg].
    + destruct (String.eqb (GetName obj) EmptyString); [done|].
      destruct (String.eqb (GetKind obj) EmptyString); [done|].
      destruct (tree_of (transform images obj)) as [obj'|]; [|done].
      destruct (marshal obj') as [buf|]; [|done].
      destruct (if first then (None, out0) else Write write out0 separator)
        as [[e1|] out1]; [done|].
      destruct (Write write out1 buf) as [[e2|] out2]; [done|].
      by apply IH.
    + destruct (isEmptyYamlError msg); [|done]. by apply IH.
Qed.

(** C6, amended.  When the loop meets a decode error other than the one
    of an empty document, or a document with an empty name or an empty
    kind, [ResolveImages] returns the error at once.  Nothing is written
    for that item or for what follows it; what the call wrote for the
    items before it, which is what it writes when the stream ends there,
    stays in the output. *)
Theorem C6_error_keeps_earlier_output (marshal : object -> option string)
    (write : list string -> string -> option string)
    (images : gmap string string) (pre rest : list decoded) (d : decoded)
    (e : error) (out : list string) :
  ResolveImages marshal write images pre = (Return None, out) ->
  refused d = Some e ->
  ResolveImages marshal write images (pre ++ d :: rest)
    = (Return (Some e), out).
Proof.
  unfold ResolveImages. intros Hpre Hd.
  destruct (decodeLoop_app marshal write images pre (d :: rest) _ _ _ Hpre)
    as [first' ->].
  by apply decodeLoop_refused.
Qed.

Lemma C6_error_keeps_earlier_output_witness :
  ResolveImages renderDoc buffer appImages
    ([Decoded (pod "//app:image")]
     ++ DecodeError "yaml: line 7: mapping values are not allowed"
     :: [Decoded (pod "app")])
  = (Return (Some (DecodeFailed "yaml: line 7: mapping values are not allowed")),
     ["{apiVersion: v1, kind: Pod, metadata: {name: app}, spec: {containers: [{name: main, image: registry.example.com/app:abc123}]}}"]).
Proof.
  apply (C6_error_keeps_earlier_output renderDoc buffer appImages
           [Decoded (pod "//app:image")] [Decoded (pod "app")]);
    vm_compute; reflexivity.
Defined.

(** ** Type assertions *)

Lemma updateContainerList_panics (images : gmap string string)
    (pre post : list value) (x : value) :
  Forall (fun c => is_map c = true /\ unresolvedRef images c = false) pre ->
  is_map x = false ->
  updateContainerList images (pre ++ x :: post) = Panic.
Proof.
  intros Hpre Hx. induction Hpre as [|c pre [Hm Hu] _ IH]; simpl.
  - by destruct x.
  - destruct c as [| | | | |container]; try done. simpl in Hu.
    unfold omap, andThen. rewrite IH.
    destruct (mget "image" (updateContainerEnv images container))
      as [[| | |imagename| |]|]; try done.
    destruct (resolveImageName images imagename) as [newname [|]]; [done|].
    simpl in Hu. by rewrite Hu.
Qed.

(** C9, the claim as stated fails: the [containers] field of
    [badSequence] is not a sequence of mappings, yet the transformer
    returns an error for the element before the number and never
    panics. *)
Lemma C9_counterexample :
  updateContainers ∅ badSequence "containers"
    = Err "Unresolved image found: //missing" badSequence /\
  transform ∅ badSequence
    = Err "Unresolved image found: //missing" badSequence.
Proof. split; vm_compute; reflexivity. Qed.

(** The two assertions: [updateContainer] panics when the field it is
    called on holds anything but a mapping.  [updateContainers] panics
    when the field holds anything but a sequence, and when the sequence
    has an element that is not a mapping and every element before it is
    a mapping that the loop passes without the unresolved-reference
    error. *)
Lemma shape_assertions_panic (images : gmap string string)
    (obj : object) (path : string) (v : value) :
  mget path obj = Some v ->
  (is_map v = false -> updateContainer images obj path = Panic) /\
  (is_seq v = false -> updateContainers images obj path = Panic) /\
  (forall pre x post,
     v = VSeq (pre ++ x :: post) ->
     Forall (fun c => is_map c = true /\ unresolvedRef images c = false) pre ->
     is_map x = false ->
     updateContainers images obj path = Panic).
Proof.
  intros Hv. repeat split.
  - intros Hm. unfold updateContainer. rewrite Hv. by destruct v.
  - intros Hs. unfold updateContainers. rewrite Hv. by destruct v.
  - intros pre x post -> Hpre Hx. unfold updateContainers. rewrite Hv.
    by rewrite updateContainerList_panics.
Qed.

(** At the root of a document the field [container] is the first one
    the transformer looks at. *)
Lemma root_container_panics (images : gmap string string) (obj : object)
    (v : value) :
  mget "container" obj = Some v -> is_map v = false ->
  transform images obj = Panic.
Proof.
  intros Hv Hm. rewrite transform_unfold. unfold handleShapes. simpl.
  unfold has. rewrite Hv. unfold updateContainer. rewrite Hv.
  by destruct v.
Qed.

(** A panic of the transformer at the root of a document is a panic of
    [ResolveImages]. *)
Lemma ResolveImages_panics (marshal : object -> option string)
    (write : list string -> string -> option string)
    (images : gmap string string) (obj : object) (rest : list decoded) :
  refused (Decoded obj) = None ->
  transform images obj = Panic ->
  ResolveImages marshal write images (Decoded obj :: rest) = (Panicked, []).
Proof.
  unfold ResolveImages. simpl. intros Hr Ht.
  destruct (String.eqb (GetName obj) EmptyString); [done|].
  destruct (String.eqb (GetKind obj) EmptyString); [done|].
  by rewrite Ht.
Qed.

(** ** Environment entries *)

Lemma prefixes_exclusive (s : string) :
  HasPrefix s "//" = true -> HasPrefix s ":" = true -> False.
Proof.
  unfold HasPrefix. intros H1 H2.
  apply String.prefix_correct in H1. apply String.prefix_correct in H2.
  destruct s as [|a s]; simpl in *; [done|].
  destruct s; simpl in *; congruence.
Qed.

Lemma rewriteEnvValue_value (images : gmap string string) (kv : object)
    (envValue : string) :
  HasPrefix envValue "//" = true \/ HasPrefix envValue ":" = true ->
  mget "value" (rewriteEnvValue images kv envValue)
    = Some (VStr (images_at images
                    (if HasPrefix envValue "//" then envValue
                     else tail envValue))).
Proof.
  unfold rewriteEnvValue. intros H.
  destruct (HasPrefix envValue "//") eqn:E1;
    destruct (HasPrefix envValue ":") eqn:E2.
  - by destruct (prefixes_exclusive envValue).
  - apply mget_mset_eq.
  - apply mget_mset_eq.
  - by destruct H.
Qed.

Lemma updateEnvEntries_scanned (images : gmap string string)
    (env : list value) (i : nat) (kv : object) (envName envValue : string) :
  env !! i = Some (VMap kv) ->
  Forall (fun e => entryScanned e = true) (take i env) ->
  mget "name" kv = Some (VStr envName) ->
  Contains envName "IMAGE_URL" = true ->
  mget "value" kv = Some (VStr envValue) ->
  updateEnvEntries images env !! i
    = Some (VMap (rewriteEnvValue images kv envValue)).
Proof.
  revert i. induction env as [|e env IH]; intros i Hi Hpre Hn Hc Hv; [done|].
  destruct i as [|i]; simpl in *.
  - injection Hi as ->. by rewrite Hn, Hc, Hv.
  - apply Forall_cons in Hpre as [He Hpre].
    destruct e as [| | | | |kv0]; try done. simpl in He.
    destruct (mget "name" kv0) as [[| | |n0| |]|]; try done.
    destruct (Contains n0 "IMAGE_URL").
    + destruct (mget "value" kv0) as [[| | |v0| |]|]; try done.
      simpl. by apply IH.
    + simpl. by apply IH.
Qed.

(** C10, the claim as stated fails: the second entry of [envFromSecret]
    has a name with [IMAGE_URL] and a value that begins with the
    build-target prefix, and it is not rewritten, because the loop
    returned at the entry before it, which has no [value]. *)
Lemma C10_counterexample :
  updateContainerEnv ∅ envFromSecret = envFromSecret /\
  exists env kv,
    mget "env" envFromSecret = Some (VSeq env) /\
    env !! 1 = Some (VMap kv) /\
    mget "name" kv = Some (VStr "APP_IMAGE_URL") /\
    mget "value" kv = Some (VStr "//app:image") /\
    VStr "//app:image" <> VStr (images_at ∅ "//app:image").
Proof.
  split; [vm_compute; reflexivity|].
  eexists _, _. repeat split; try reflexivity. vm_compute. discriminate.
Qed.

(** C10, amended.  Take an [env] entry whose name contains [IMAGE_URL]
    and whose string value begins with the build-target prefix or with a
    colon, in a container all of whose earlier [env] entries are
    mappings with a string name (and a string value when that name
    contains [IMAGE_URL]).  [updateContainerEnv] replaces its value by
    what the image map holds for the value (for the value without its
    colon); when the map has no such key the value becomes the empty
    string, and no error comes back from [updateContainerEnv]. *)
Theorem C10_env_value_rewritten (images : gmap string string)
    (container : object) (env : list value) (i : nat) (kv : object)
    (envName envValue : string) :
  mget "env" container = Some (VSeq env) ->
  env !! i = Some (VMap kv) ->
  Forall (fun e => entryScanned e = true) (take i env) ->
  mget "name" kv = Some (VStr envName) ->
  Contains envName "IMAGE_URL" = true ->
  mget "value" kv = Some (VStr envValue) ->
  HasPrefix envValue "//" = true \/ HasPrefix envValue ":" = true ->
  let key := if HasPrefix envValue "//" then envValue else tail envValue in
  exists env' kv',
    mget "env" (updateContainerEnv images container) = Some (VSeq env') /\
    env' !! i = Some (VMap kv') /\
    mget "value" kv' = Some (VStr (images_at images key)) /\
    (images !! key = None -> mget "value" kv' = Some (VStr EmptyString)).
Proof.
  intros He Hi Hpre Hn Hc Hv Hp key.
  exists (updateEnvEntries images env), (rewriteEnvValue images kv envValue).
  assert (Hval : mget "value" (rewriteEnvValue images kv envValue)
                 = Some (VStr (images_at images key)))
    by (by apply rewriteEnvValue_value).
  repeat split.
  - unfold updateContainerEnv. rewrite He. apply mget_mset_eq.
  - by eapply updateEnvEntries_scanned.
  - done.
  - intros Hk. rewrite Hval. unfold images_at. by rewrite Hk.
Qed.

Lemma C10_env_value_rewritten_witness :
  exists env' kv',
    mget "env" (updateContainerEnv appImages envUnmapped) = Some (VSeq env') /\
    env' !! 0 = Some (VMap kv') /\
    mget "value" kv' = Some (VStr (images_at appImages "//other:image")) /\
    (appImages !! "//other:image" = None ->
     mget "value" kv' = Some (VStr EmptyString)).
Proof.
  apply (C10_env_value_rewritten appImages envUnmapped
           [VMap [("name", VStr "APP_IMAGE_URL");
                  ("value", VStr "//other:image")]]
           0 [("name", VStr "APP_IMAGE_URL"); ("value", VStr "//other:image")]
           "APP_IMAGE_URL" "//other:image");
    try reflexivity.
  - constructor.
  - left. reflexivity.
Defined.

(** The same entry seen from [updateContainers]: the container comes
    back with an empty value and the call returns [nil]. *)
Lemma unmapped_env_becomes_empty :
  updateContainers appImages [("containers", VSeq [VMap envUnmapped])]
      "containers"
    = Ok [("containers", VSeq [VMap
            [("image", VStr "app");
             ("env", VSeq [VMap [("name", VStr "APP_IMAGE_URL");
                                 ("value", VStr EmptyString)]])]])].
Proof. vm_compute; reflexivity. Qed.

End ResolverFacts.

(** * Properties of processes *)

Module ProcFacts.

Import Go.

Lemma bind_returned {A B : Type} (m : Proc A) (k : A -> Proc B) (b : B)
    (tr tr' : list event) :
  (m ≫= k) tr = (inl b, tr') ->
  exists a tr1, m tr = (inl a, tr1) /\ k a tr1 = (inl b, tr').
Proof.
  unfold mbind, proc_bind, bind.
  destruct (m tr) as [[a|h] tr1]; [|done]. intros H. by exists a, tr1.
Qed.

(** ** What a process adds to the trace *)

Section Emits.

Variable P : event -> Prop.

Lemma emits_ret {A : Type} (a : A) : emits P (ret a).
Proof. intros tr. exists []. by rewrite app_nil_r. Qed.

Lemma emits_mret {A : Type} (a : A) : emits P (mret a : Proc A).
Proof. apply emits_ret. Qed.

Lemma emits_fatal {A : Type} (msg : string) : emits P (@fatal A msg).
Proof. intros tr. exists []. by rewrite app_nil_r. Qed.

Lemma emits_panic {A : Type} (msg : string) : emits P (@panic A msg).
Proof. intros tr. exists []. by rewrite app_nil_r. Qed.

Lemma emits_block {A : Type} : emits P (@block A).
Proof. intros tr. exists []. by rewrite app_nil_r. Qed.

Lemma emits_emit (e : event) : P e -> emits P (emit e).
Proof. intros He tr. exists [e]. split; [done|]. by constructor. Qed.

Lemma emits_bind {A B : Type} (m : Proc A) (k : A -> Proc B) :
  emits P m -> (forall a, emits P (k a)) -> emits P (m ≫= k).
Proof.
  intros Hm Hk tr. unfold mbind, proc_bind, bind.
  destruct (Hm tr) as (evs & Hevs & HP).
  destruct (m tr) as [[a|h] tr1]; simpl in *; subst tr1.
  - destruct (Hk a (tr ++ evs)%list) as (evs' & Hevs' & HP').
    exists (evs ++ evs')%list. rewrite Hevs', app_assoc. split; [done|].
    by apply Forall_app.
  - by exists evs.
Qed.

Lemma emits_forEach {A : Type} (l : list A) (body : A -> Proc unit) :
  (forall x, emits P (body x)) -> emits P (forEach l body).
Proof.
  intros Hb. induction l as [|x l IH]; simpl.
  - apply emits_ret.
  - apply (emits_bind (body x) (fun _ => forEach l body)); [apply Hb|done].
Qed.

Lemma emits_fatal_only {A : Type} (m : Proc A) :
  emits P m -> emits_if_fatal P m.
Proof.
  intros Hm tr msg tr' H. destruct (Hm tr) as (evs & Hevs & HP).
  rewrite H in Hevs. by exists evs.
Qed.

Lemma emits_if_fatal_bind {A B : Type} (m : Proc A) (k : A -> Proc B) :
  emits P m -> (forall a, emits_if_fatal P (k a)) ->
  emits_if_fatal P (m ≫= k).
Proof.
  intros Hm Hk tr msg tr'. unfold mbind, proc_bind, bind.
  destruct (Hm tr) as (evs & Hevs & HP).
  destruct (m tr) as [[a|h] tr1]; simpl in *; subst tr1.
  - intros H. destruct (Hk a _ _ _ H) as (evs' & -> & HP').
    exists (evs ++ evs')%list. rewrite app_assoc. split; [done|].
    by apply Forall_app.
  - intros [= -> <-]. by exists evs.
Qed.

(** A fatal exit inside the function skips its deferred call. *)
Lemma emits_if_fatal_deferring {A : Type} (d : Proc unit) (body : Proc A) :
  emits P body -> emits_if_fatal P (deferring d body).
Proof.
  intros Hb tr msg tr'. unfold deferring.
  destruct (Hb tr) as (evs & Hevs & HP).
  destruct (body tr) as [[a|[m|m|]] tr1]; simpl in *; subst tr1; try done.
  intros [= -> <-]. by exists evs.
Qed.

Lemma emits_result {A : Type} (m : Proc A) (tr tr' : list event)
    (r : A + halt) :
  emits P m -> m tr = (r, tr') ->
  exists evs, tr' = (tr ++ evs)%list /\ Forall P evs.
Proof.
  intros Hm H. destruct (Hm tr) as (evs & Hevs & HP).
  rewrite H in Hevs. by exists evs.
Qed.

Lemma emits_bind_returned {A B : Type} (m : Proc A) (k : A -> Proc B) :
  emits P m ->
  (forall a tr tr', m tr = (inl a, tr') -> emits P (k a)) ->
  emits P (m ≫= k).
Proof.
  intros Hm Hk tr. unfold mbind, proc_bind, bind.
  destruct (Hm tr) as (evs & Hevs & HP).
  destruct (m tr) as [[a|h] tr1] eqn:E; simpl in *; subst tr1.
  - destruct (Hk a _ _ E (tr ++ evs)%list) as (evs' & Hevs' & HP').
    exists (evs ++ evs')%list. rewrite Hevs', app_assoc. split; [done|].
    by apply Forall_app.
  - by exists evs.
Qed.

End Emits.

Create HintDb emits discriminated.

(** One step of a proof that a process performs only events in [P]. *)
Ltac emits_step :=
  first
    [ solve [auto 2 with emits nocore]
    | apply emits_ret | apply emits_mret | apply emits_fatal
    | apply emits_panic | apply emits_block
    | apply emits_emit; intros; discriminate
    | apply emits_forEach; intros ?
    | apply emits_bind; [|intros ?]
    | progress case_match ].

Ltac emits_auto := repeat emits_step.

End ProcFacts.

(** * Properties of the hosting client *)

Module GithubAppFacts.

Import Go GithubApp.

(** The standalone entry point takes the provider's refusal of an
    existing pull request for success. *)
Lemma CreatePR_conflict_is_success (flags : Flags) (gh : Provider)
    (from to title body err : string) (resp : Response) (tr : list event) :
  repoOwner flags <> EmptyString ->
  repo flags <> EmptyString ->
  gitHubAppId flags <> 0%Z ->
  githubEnterpriseHost flags = EmptyString ->
  NewKeyFromFile gh (gitHubAppId flags) (gitHubAppInstallationId flags)
    (privateKey flags) = None ->
  PullRequestsCreate gh from to title body = Rejected err (Some resp) ->
  StatusCode resp = StatusUnprocessableEntity ->
  CreatePR flags gh from to title body tr
    = (inl None, (tr ++ [ApiCreatePullRequest from to title body])%list).
Proof.
  intros Ho Hr Hi Hh Hk Hc Hs. unfold CreatePR.
  apply String.eqb_neq in Ho, Hr. apply Z.eqb_neq in Hi.
  rewrite Ho, Hr, Hi, Hk, Hh. simpl.
  unfold mbind, proc_bind, bind, emit. rewrite Hc, Hs. done.
Qed.

(** The step that ends the commit path does not: every error of the
    request, that refusal included, ends the process. *)
Lemma createPR_error_is_fatal (flags : Flags) (gh : Provider)
    (baseBranch commitBranch prSubject prDescription err : string)
    (resp : option Response) (tr : list event) :
  PullRequestsCreate gh commitBranch baseBranch prSubject prDescription
    = Rejected err resp ->
  createPR gh baseBranch commitBranch prSubject prDescription tr
    = (inr (Fatal ("failed to create PR: " ++ err)),
       (tr ++ [ApiCreatePullRequest commitBranch baseBranch prSubject
                 prDescription])%list).
Proof.
  intros Hc. unfold createPR, mbind, proc_bind, bind, emit.
  by rewrite Hc.
Qed.

(** C5.  The specification: a merge-request creation that the provider
    refuses because the request exists already succeeds, in [CreatePR]
    and in the step that ends the app-credential commit path alike.  The
    code: [CreatePR] returns nil on that answer, but [createPR] calls
    [log.Fatalf] on every error, so [CreateCommit] ends the process after
    the commit has been pushed. *)
Theorem C5_commit_path_conflict_is_fatal :
  run (CreatePR appFlags (provider alreadyExists)
         "deploy/prod" "master" "Gitops Deploy" "Automated PR")
    = (inl None,
       [ApiCreatePullRequest "deploy/prod" "master" "Gitops Deploy"
          "Automated PR"]) /\
  run (createPR (provider alreadyExists)
         "master" "deploy/prod" "Gitops Deploy" "Automated PR")
    = (inr (Fatal "failed to create PR: 422 Validation Failed: A pull request already exists"),
       [ApiCreatePullRequest "deploy/prod" "master" "Gitops Deploy"
          "Automated PR"]) /\
  run (CreateCommit appFlags (provider alreadyExists) "master" "deploy/prod"
         "/tmp/gitops123" ["cloud/prod/app.yaml"] "Gitops Deploy"
         "Automated PR")
    = (inr (Fatal "failed to create PR: 422 Validation Failed: A pull request already exists"),
       [ApiGetRef "refs/heads/master"; ApiCreateRef "refs/heads/deploy/prod";
        ReadFile "/tmp/gitops123/cloud/prod/app.yaml";
        ApiCreateTree ["cloud/prod/app.yaml"]; ApiGetCommit;
        ApiCreateCommit "Gitops Deploy"; ApiUpdateRef;
        ApiCreatePullRequest "deploy/prod" "master" "Gitops Deploy"
          "Automated PR"]).
Proof.
  split; [vm_compute; reflexivity|].
  split; vm_compute; reflexivity.
Qed.

End GithubAppFacts.

(** * Properties of the command *)

Module PrerFacts.

Import Go Prer.

(** ** Deferred calls and fatal exits *)

Lemma deferring_fatal {A : Type} (d : Proc unit) (body : Proc A)
    (msg : string) (tr tr' : list event) :
  body tr = (inr (Fatal msg), tr') ->
  deferring d body tr = (inr (Fatal msg), tr').
Proof. unfold deferring. by intros ->. Qed.

Lemma deferring_return {A : Type} (d : Proc unit) (body : Proc A) (a : A)
    (tr tr' : list event) :
  body tr = (inl a, tr') ->
  deferring d body tr = (inl a, snd (d tr')).
Proof. unfold deferring. by intros ->. Qed.

(** C7.  The specification: the temporary checkout directory is removed
    on every exit path of the run, fatal failures of the clone and of the
    diff collection included.  The code: the removal is a deferred call
    and those failures end in [log.Fatalf], which exits the process
    without running deferred calls; the run that completes removes the
    directory, the two runs that fail leave it behind. *)
Theorem C7_fatal_exit_keeps_directory :
  run (main deployConfig (world (Some "exit status 128") None false [])
         GithubApp.appFlags (GithubApp.provider GithubApp.alreadyExists))
    = (inr (Fatal "failed to clone repository: exit status 128"),
       [MkdirTemp "/tmp" "gitops";
        GitClone "git@example.com:acme/deployments.git" "/tmp/gitops123"
          EmptyString "master" "cloud"]) /\
  run (main deployConfig (world None (Some "exit status 1") true [])
         GithubApp.appFlags (GithubApp.provider GithubApp.alreadyExists))
    = (inr (Fatal "failed to get modified files: exit status 1"),
       [MkdirTemp "/tmp" "gitops";
        GitClone "git@example.com:acme/deployments.git" "/tmp/gitops123"
          EmptyString "master" "cloud";
        SwitchToBranch "deploy/prod" "master";
        Exec ["bin/app.gitops"; "--nopush"; "--deployment_root";
              "/tmp/gitops123"];
        GetModifiedFiles]) /\
  (let '(r, tr) :=
     run (main deployConfig (world None None true [])
            GithubApp.appFlags (GithubApp.provider GithubApp.alreadyExists)) in
   r = inl tt /\ last tr = Some (RemoveAll "/tmp/gitops123")).
Proof.
  split; [vm_compute; reflexivity|].
  split; [vm_compute; reflexivity|].
  vm_compute. split; reflexivity.
Qed.

(** ** Branch selection *)

Section Selection.

Variable cfg : Config.
Variable w : World.

Lemma currentTargetsOf_lookup (targets : list string) (t : string) :
  default false (currentTargetsOf targets !! t) = true <-> t ∈ targets.
Proof.
  unfold currentTargetsOf.
  assert (H : forall m : gmap string bool,
    default false (foldl (fun m t => <[t:=true]> m) m targets !! t) = true
    <-> t ∈ targets \/ default false (m !! t) = true).
  { induction targets as [|x targets IH]; intros m; simpl.
    - split; [by right|]. intros [H|H]; [by apply elem_of_nil in H|done].
    - rewrite IH, elem_of_cons.
      destruct (decide (t = x)) as [->|Hne].
      + rewrite lookup_insert_eq. simpl. tauto.
      + rewrite lookup_insert_ne by done. tauto. }
  rewrite H, lookup_empty. simpl. split; [intros [?|?]; done|by left].
Qed.

(** The loop over the embedded targets recreates the branch once, at the
    first embedded target that the train no longer has, and not at all
    when there is none. *)
Lemma recreateIfStale_spec (targets : list string) (branch : string)
    (embedded : list string) (tr : list event) :
  recreateIfStale cfg (currentTargetsOf targets) branch embedded tr
  = (inl tt,
     (tr ++ (if decide (Exists (fun t => t ∉ targets) embedded)
             then [RecreateBranch branch (PRTargetBranch cfg)] else []))%list).
Proof.
  induction embedded as [|t embedded IH].
  - cbn [recreateIfStale].
    destruct (decide (Exists (fun t => t ∉ targets) [])) as [H|H].
    + by apply Exists_nil in H.
    + unfold ret. by rewrite app_nil_r.
  - cbn [recreateIfStale].
    destruct (default false (currentTargetsOf targets !! t)) eqn:E;
      cbn [negb].
    + apply currentTargetsOf_lookup in E. rewrite IH.
      destruct (decide (Exists (fun t => t ∉ targets) embedded)) as [H|H];
        destruct (decide (Exists (fun t => t ∉ targets) (t :: embedded)))
          as [H'|H']; try done.
      * exfalso. apply H'. by apply Exists_cons_tl.
      * exfalso. apply Exists_cons in H' as [?|?]; done.
    + destruct (decide (Exists (fun t => t ∉ targets) (t :: embedded)))
        as [H|H]; [reflexivity|].
      exfalso. apply H, Exists_cons_hd. intros Hin.
      apply currentTargetsOf_lookup in Hin. congruence.
Qed.

End Selection.

End PrerFacts.

(** * The temporary directory on the exit paths of the command *)

Module CleanupFacts.

Import Go ProcFacts.

Section App.

Import GithubApp.

Variable flags : Flags.
Variable gh : Provider.

Lemma CreatePR_keeps (from to title body : string) :
  emits keeps (CreatePR flags gh from to title body).
Proof. unfold CreatePR. emits_auto. Qed.

Lemma readFiles_keeps (files : list FileEntry) :
  emits keeps (readFiles gh files).
Proof. induction files as [|f files IH]; simpl; emits_auto; done. Qed.

#[local] Hint Resolve readFiles_keeps : emits.

Lemma CreateCommit_keeps (baseBranch commitBranch gitopsPath : string)
    (files : list string) (prTitle prDescription : string) :
  emits keeps (CreateCommit flags gh baseBranch commitBranch gitopsPath
                 files prTitle prDescription).
Proof.
  unfold CreateCommit, createGithubClient, getRef, getTree, pushCommit,
    createPR.
  emits_auto.
Qed.

End App.

#[local] Hint Resolve CreatePR_keeps CreateCommit_keeps : emits.

Section Command.

Import Prer.

Variable cfg : Config.
Variable w : World.
Variable flags : GithubApp.Flags.
Variable gh : GithubApp.Provider.

Lemma Mustex_keeps (command : list string) : emits keeps (Mustex w command).
Proof. unfold Mustex. emits_auto. Qed.

#[local] Hint Resolve Mustex_keeps : emits.

Lemma workerPool_keeps {A : Type} (queue : list A) (work : A -> Proc unit) :
  (forall x, emits keeps (work x)) -> emits keeps (workerPool cfg queue work).
Proof. intros Hw. unfold workerPool. emits_auto; apply Hw. Qed.

#[local] Hint Resolve workerPool_keeps : emits.

Lemma processImages_keeps (targets : list string) :
  emits keeps (processImages cfg w targets).
Proof.
  unfold processImages, executeBazelQuery. emits_auto.
  apply workerPool_keeps. intros target. unfold processTarget. emits_auto.
Qed.

Lemma processResolvedImages_keeps :
  emits keeps (processResolvedImages cfg w).
Proof.
  unfold processResolvedImages. apply workerPool_keeps.
  intros cmd. apply Mustex_keeps.
Qed.

#[local] Hint Resolve processImages_keeps processResolvedImages_keeps : emits.

Lemma createPullRequests_keeps (branches : list string) :
  emits keeps (createPullRequests cfg w flags gh branches).
Proof.
  unfold createPullRequests. destruct (DryRun cfg); [apply emits_ret|].
  apply emits_bind_returned.
  - unfold getGitServer. emits_auto.
  - intros CreatePR tr tr' Hs. unfold getGitServer in Hs.
    apply emits_forEach. intros branch. apply emits_bind.
    + repeat case_match; try done; injection Hs as <- _;
        first [apply CreatePR_keeps | emits_auto].
    + intros err. emits_auto.
Qed.

Lemma recreateIfStale_keeps (currentTargets : gmap string bool)
    (branch : string) (embedded : list string) :
  emits keeps (recreateIfStale cfg currentTargets branch embedded).
Proof. induction embedded as [|t embedded IH]; simpl; emits_auto; done. Qed.

#[local] Hint Resolve createPullRequests_keeps recreateIfStale_keeps : emits.

Lemma selectBranch_keeps (train : string) (targets : list string) :
  emits keeps (selectBranch cfg w train targets).
Proof.
  unfold selectBranch. emits_auto.
Qed.

#[local] Hint Resolve selectBranch_keeps : emits.

Lemma processTrain_keeps (gitopsDir : string) (acc : Updates)
    (train : string) (targets : list string) :
  emits keeps (processTrain cfg w gitopsDir acc train targets).
Proof.
  unfold processTrain. emits_auto.
Qed.

Lemma processTrains_keeps (gitopsDir : string) (acc : Updates)
    (trains : list (string * list string)) :
  emits keeps (processTrains cfg w gitopsDir acc trains).
Proof.
  revert acc. induction trains as [|[train targets] trains IH]; intros acc;
    simpl; [apply emits_ret|].
  apply emits_bind; [apply processTrain_keeps|done].
Qed.

Lemma publish_keeps (gitopsDir : string) (u : Updates) :
  emits keeps (publish cfg w flags gh gitopsDir u).
Proof.
  unfold publish. emits_auto.
Qed.

Lemma resolvedTrains_silent (P : event -> Prop) (rbs : list string)
    (trains : gmap string (list string)) :
  emits P (resolvedTrains rbs trains).
Proof.
  revert trains. induction rbs as [|rb rbs IH]; intros trains; simpl;
    emits_auto; done.
Qed.

(** X26.  Every run of [main] that ends in a fatal exit ends without having
    removed any directory: not before the directory is made, and not
    after, since the removal is deferred. *)
Lemma main_fatal_keeps_directory (msg : string) (tr : list event) :
  run (main cfg w flags gh) = (inr (Fatal msg), tr) ->
  forall dir, RemoveAll dir ∉ tr.
Proof.
  intros H.
  assert (Hm : emits_if_fatal keeps (main cfg w flags gh)).
  { unfold main, findTrains.
    apply emits_if_fatal_bind; [emits_auto|]. intros _.
    apply emits_if_fatal_bind.
    { case_match; [apply resolvedTrains_silent|].
      unfold executeBazelQuery. emits_auto. }
    intros trains. case_match; [apply emits_fatal_only, emits_ret|].
    apply emits_if_fatal_bind; [emits_auto|]. intros _.
    case_match; [|apply emits_fatal_only, emits_fatal].
    apply emits_if_fatal_deferring.
    apply emits_bind; [emits_auto|]. intros _.
    case_match; [apply emits_fatal|].
    apply emits_bind; [apply processTrains_keeps|]. intros u.
    case_match; [apply emits_ret|].
    apply emits_bind; [|intros _; apply publish_keeps].
    case_match; [apply processResolvedImages_keeps|apply processImages_keeps]. }
  destruct (Hm [] msg tr H) as (evs & -> & Hevs). simpl.
  intros dir Hin. rewrite Forall_forall in Hevs.
  by apply (Hevs _ Hin dir).
Qed.

(** X27.  Every run of [main] that makes the directory and then returns has
    removed it, as its last step. *)
Lemma main_return_removes_directory (tr : list event) :
  run (main cfg w flags gh) = (inl tt, tr) ->
  (exists base pattern, MkdirTemp base pattern ∈ tr) ->
  exists dir,
    osMkdirTemp w (GitOpsTmpDir cfg) "gitops" = inl dir /\
    last tr = Some (RemoveAll dir).
Proof.
  set (quiet := fun e : event =>
                  forall base pattern, e <> MkdirTemp base pattern).
  unfold run, main, findTrains.
  match goal with
  | |- (?pre ≫= fun _ => ?query ≫= _) [] = _ -> _ =>
      assert (Hpre : emits quiet pre) by (subst quiet; emits_auto);
      assert (Hquery : emits quiet query)
        by (subst quiet; clear Hpre;
            match goal with
            | |- emits _ (if ?c then _ else _) => destruct c
            end;
            [apply resolvedTrains_silent
            |unfold executeBazelQuery; emits_auto])
  end.
  intros H Hmk.
  apply bind_returned in H as ([] & tr1 & H1 & H).
  apply bind_returned in H as (trains & tr2 & H2 & H).
  destruct (emits_result quiet _ _ _ _ Hpre H1) as (evs1 & -> & HP1).
  destruct (emits_result quiet _ _ _ _ Hquery H2) as (evs2 & -> & HP2).
  clear Hpre Hquery H1 H2.
  destruct (Nat.eqb (size trains) 0).
  - injection H as <-. destruct Hmk as (base & pattern & Hin). exfalso.
    simpl in Hin. rewrite elem_of_app in Hin.
    rewrite Forall_forall in HP1. rewrite Forall_forall in HP2.
    destruct Hin as [Hin|Hin].
    + by apply (HP1 _ Hin base pattern).
    + by apply (HP2 _ Hin base pattern).
  - apply bind_returned in H as ([] & tr3 & _ & H).
    destruct (osMkdirTemp w (GitOpsTmpDir cfg) "gitops") as [dir|err];
      [|done].
    exists dir. split; [done|].
    unfold deferring in H.
    match type of H with (let (_, _) := ?body ?t in _) = _ =>
      destruct (body t) as [[[]|[m|m|]] tr4]
    end; try done.
    injection H as <-. unfold emit. simpl. apply last_snoc.
Qed.

End Command.

End CleanupFacts.

(** * Properties of the push coordinator *)

Module PushCoordinatorFacts.

Import PushCoordinator.

(** ** Replacing one worker *)

Lemma running_insert_running (wks : list worker) (i : nat) (c : string) :
  wks !! i = Some Receiving ->
  Permutation (running (<[i := Running c]> wks)) (c :: running wks).
Proof.
  revert i. induction wks as [|wk wks IH]; intros i Hi; [done|].
  destruct i as [|i]; simpl in *.
  - by injection Hi as ->.
  - specialize (IH i Hi). destruct wk; simpl; [done| |done].
    rewrite IH. apply perm_swap.
Qed.

Lemma running_insert_receiving (wks : list worker) (i : nat) (c : string) :
  wks !! i = Some (Running c) ->
  Permutation (running wks) (c :: running (<[i := Receiving]> wks)).
Proof.
  revert i. induction wks as [|wk wks IH]; intros i Hi; [done|].
  destruct i as [|i]; simpl in *.
  - by injection Hi as ->.
  - specialize (IH i Hi). destruct wk; simpl; [done| |done].
    rewrite IH. apply perm_swap.
Qed.

Lemma running_insert_done (wks : list worker) (i : nat) :
  wks !! i = Some Receiving ->
  running (<[i := Done]> wks) = running wks.
Proof.
  revert i. induction wks as [|wk wks IH]; intros i Hi; [done|].
  destruct i as [|i]; simpl in *.
  - by injection Hi as ->.
  - rewrite (IH i Hi). done.
Qed.

Lemma load_insert (wks : list worker) (i : nat) (old new : worker) :
  wks !! i = Some old ->
  sum_list (map load (<[i := new]> wks)) + load old
  = sum_list (map load wks) + load new.
Proof.
  revert i. induction wks as [|wk wks IH]; intros i Hi; [done|].
  destruct i as [|i]; simpl in *.
  - injection Hi as ->. lia.
  - specialize (IH i Hi). lia.
Qed.

Lemma running_length (wks : list worker) :
  length (running wks) <= length wks.
Proof. induction wks as [|[]]; simpl; lia. Qed.

Lemma running_all_done (wks : list worker) :
  forallb is_done wks = true -> running wks = [].
Proof.
  induction wks as [|wk wks IH]; simpl; [done|].
  destruct wk; simpl; done || apply IH.
Qed.

Lemma running_elem (wks : list worker) (i : nat) (c : string) :
  wks !! i = Some (Running c) -> c ∈ running wks.
Proof.
  revert i. induction wks as [|wk wks IH]; intros i Hi; [done|].
  destruct i as [|i]; simpl in *.
  - injection Hi as ->. apply elem_of_cons. by left.
  - specialize (IH i Hi). destruct wk; simpl; try done.
    apply elem_of_cons. by right.
Qed.

Lemma not_all_done (wks : list worker) :
  forallb is_done wks = false ->
  exists i, wks !! i = Some Receiving \/ exists c, wks !! i = Some (Running c).
Proof.
  induction wks as [|wk wks IH]; simpl; [done|].
  destruct wk; simpl.
  - intros _. exists 0. by left.
  - intros _. exists 0. right. by eexists.
  - intros [i Hi]%IH. by exists (S i).
Qed.

(** ** The invariant of the runs *)

Section Runs.

Variable mustex : string -> bool.
Variable n : nat.
Variable cmds : list string.

Hypothesis all_succeed : forall c, c ∈ cmds -> mustex c = true.

Lemma inv_init : inv n cmds (init n cmds).
Proof.
  split; simpl.
  - apply length_replicate.
  - done.
  - assert (running (replicate n Receiving) = []) as ->; [|done].
    induction n as [|m IH]; simpl; done.
  - done.
  - apply Forall_replicate. done.
Qed.

Lemma remaining_init :
  remaining (init n cmds) = 2 * length cmds + n + 2.
Proof.
  unfold remaining. simpl.
  assert (sum_list (map load (replicate n Receiving)) = n) as ->; [|lia].
  induction n as [|m IH]; simpl; [done|]. by rewrite IH.
Qed.

Lemma inv_running_succeeds (s : state) (i : nat) (c : string) :
  inv n cmds s -> workers s !! i = Some (Running c) -> mustex c = true.
Proof.
  intros Hs Hi. apply all_succeed. rewrite <- (inv_sent n cmds s Hs).
  apply elem_of_app. left.
  apply (elem_of_Permutation_proper c _ _ (inv_perm n cmds s Hs)).
  apply elem_of_app. right. by eapply running_elem.
Qed.

Lemma step_inv (a : action) (s s' : state) :
  inv n cmds s -> step mustex a s = Some s' ->
  inv n cmds s' /\ remaining s = S (remaining s').
Proof.
  intros Hs. pose proof Hs as [Hw Hq Hp He Hph]. unfold step. rewrite He.
  destruct a as [i|i| |i|].
  - destruct (coord s) as [[|c q]| |] eqn:Ec; try done.
    destruct (workers s !! i) as [[]|] eqn:Ei; try done.
    intros [= <-]. split.
    + split; simpl.
      * by rewrite length_insert.
      * rewrite <- Hq. simpl. by rewrite <- app_assoc.
      * rewrite running_insert_running by done.
        etrans; [symmetry; apply Permutation_cons_append|].
        rewrite <- Permutation_middle. by apply perm_skip.
      * done.
      * apply Forall_insert; done.
    + unfold remaining. rewrite Ec. simpl.
      pose proof (load_insert (workers s) i Receiving (Running c) Ei).
      simpl in *. lia.
  - destruct (workers s !! i) as [[|c|]|] eqn:Ei; try done.
    rewrite (inv_running_succeeds s i c Hs Ei).
    intros [= <-]. split.
    + split; simpl.
      * by rewrite length_insert.
      * done.
      * rewrite Hp, (running_insert_receiving (workers s) i c Ei).
        by rewrite <- app_assoc.
      * done.
      * destruct (coord s); try done.
        -- apply Forall_insert; done.
        -- exfalso. apply running_all_done in Hph.
           apply running_elem in Ei. rewrite Hph in Ei.
           by apply elem_of_nil in Ei.
    + unfold remaining. simpl.
      pose proof (load_insert (workers s) i (Running c) Receiving Ei).
      simpl in *. lia.
  - destruct (coord s) as [[|c q]| |] eqn:Ec; try done.
    intros [= <-]. split.
    + split; simpl; done || (by rewrite <- Hq).
    + unfold remaining. rewrite Ec. simpl. lia.
  - destruct (coord s) as [q| |] eqn:Ec; try done.
    destruct (workers s !! i) as [[]|] eqn:Ei; try done.
    intros [= <-]. split.
    + split; simpl;
        done || (by rewrite length_insert)
             || (by rewrite running_insert_done).
    + unfold remaining. rewrite Ec. simpl.
      pose proof (load_insert (workers s) i Receiving Done Ei).
      simpl in *. lia.
  - destruct (coord s) as [q| |] eqn:Ec; try done.
    destruct (forallb is_done (workers s)) eqn:Ed; try done.
    intros [= <-]. split.
    + split; simpl; done.
    + unfold remaining. rewrite Ec. simpl. lia.
Qed.

Lemma exec_inv (acts : list action) (s s' : state) :
  inv n cmds s -> exec mustex acts s = Some s' ->
  inv n cmds s' /\ remaining s = length acts + remaining s'.
Proof.
  revert s. induction acts as [|a acts IH]; intros s Hs; simpl.
  - by intros [= <-].
  - destruct (step mustex a s) as [s1|] eqn:E; [|done].
    destruct (step_inv a s s1 Hs E) as [Hs1 Hr]. intros H.
    destruct (IH s1 Hs1 H) as [Hs' Hr']. split; [done|lia].
Qed.

(** With a worker in the pool, a run that has not returned has a next
    step. *)
Lemma inv_progress (s : state) :
  1 <= n -> inv n cmds s -> coord s <> Returned ->
  exists a s', step mustex a s = Some s'.
Proof.
  intros Hn Hs Hc. pose proof Hs as [Hw Hq Hp He Hph].
  destruct (coord s) as [[|c q]| |] eqn:Ec; [| | |done].
  - exists Close. unfold step. rewrite He, Ec. by eexists.
  - destruct (workers s) as [|wk wks] eqn:Ew; [simpl in Hw; lia|].
    apply Forall_cons in Hph as [Hd _].
    destruct wk as [|c0|]; [| |done].
    + exists (Handoff 0). unfold step. rewrite He, Ec, Ew. by eexists.
    + exists (Complete 0). unfold step. rewrite He.
      assert (Hi : workers s !! 0 = Some (Running c0)) by (by rewrite Ew).
      rewrite Hi, (inv_running_succeeds s 0 c0 Hs Hi). by eexists.
  - destruct (forallb is_done (workers s)) eqn:Ed.
    + exists Return. unfold step. rewrite He, Ec, Ed. by eexists.
    + apply not_all_done in Ed as [i [Hi|[c Hi]]].
      * exists (Leave i). unfold step. rewrite He, Ec, Hi. by eexists.
      * exists (Complete i). unfold step.
        rewrite He, Hi, (inv_running_succeeds s i c Hs Hi). by eexists.
Qed.

(** From every state a run reaches there is a way on to the return. *)
Lemma inv_reaches_return (s : state) :
  1 <= n -> inv n cmds s ->
  exists acts s', exec mustex acts s = Some s' /\ coord s' = Returned.
Proof.
  intros Hn. remember (remaining s) as k eqn:Hk. revert s Hk.
  induction k as [|k IH]; intros s Hk Hs.
  - destruct (coord s) eqn:Ec.
    + unfold remaining in Hk. rewrite Ec in Hk. simpl in Hk. lia.
    + unfold remaining in Hk. rewrite Ec in Hk. simpl in Hk. lia.
    + by exists [], s.
  - destruct (coord s) eqn:Ec; [| |by exists [], s].
    + destruct (inv_progress s Hn Hs) as (a & s1 & Hstep);
        [by rewrite Ec|].
      destruct (step_inv a s s1 Hs Hstep) as [Hs1 Hr].
      destruct (IH s1) as (acts & s' & Hrun & Hret); [lia|done|].
      exists (a :: acts), s'. simpl. by rewrite Hstep.
    + destruct (inv_progress s Hn Hs) as (a & s1 & Hstep);
        [by rewrite Ec|].
      destruct (step_inv a s s1 Hs Hstep) as [Hs1 Hr].
      destruct (IH s1) as (acts & s' & Hrun & Hret); [lia|done|].
      exists (a :: acts), s'. simpl. by rewrite Hstep.
Qed.

End Runs.

(** A negative parallelism makes [wg.Add] panic before any goroutine is
    started. *)
Lemma start_negative (parallelism : Z) (cmds : list string) :
  (parallelism < 0)%Z -> start parallelism cmds = None.
Proof. intros H. unfold start. by apply Z.ltb_lt in H as ->. Qed.

Lemma start_init (parallelism : Z) (cmds : list string) :
  (0 <= parallelism)%Z ->
  start parallelism cmds = Some (init (Z.to_nat parallelism) cmds).
Proof. intros H. unfold start. by apply Z.ltb_ge in H as ->. Qed.

(** C8, the claim as stated fails: with a parallelism bound of zero and
    one queued command no step is ever enabled; the command is never
    run and the coordinator never returns. *)
Lemma C8_counterexample :
  ~ exists acts s,
      exec (fun _ => true) acts (init 0 ["bin/app.push"]) = Some s /\
      (coord s = Returned \/ started s <> []).
Proof.
  intros (acts & s & H & Hs).
  destruct acts as [|a acts]; simpl in H.
  - injection H as <-. simpl in Hs. destruct Hs; done.
  - destruct a as [[|i]|[|i]| |[|i]|]; done.
Qed.

(** C8, amended.  Take k queued commands that all succeed and a
    parallelism bound n of at least one.  In every state that a run of
    [processResolvedImages] reaches, under whatever schedule: at most n
    commands are running; the commands received so far are the first
    ones of the queue, each received once; they are the completed ones
    together with the running ones; when the coordinator has returned,
    the completed commands are the k queued ones, each once, and none is
    running; until then a next step is enabled; and the run has taken
    2k + n + 2 steps less what remains to do, so that every run comes to
    the return. *)
Theorem C8_pool_runs_each_command_once (mustex : string -> bool) (n : nat)
    (cmds : list string) (acts : list action) (s : state) :
  1 <= n ->
  (forall c, c ∈ cmds -> mustex c = true) ->
  exec mustex acts (init n cmds) = Some s ->
  length (running (workers s)) <= n /\
  (started s ++ queue (coord s))%list = cmds /\
  Permutation (started s) (completed s ++ running (workers s))%list /\
  (coord s = Returned ->
   Permutation (completed s) cmds /\ running (workers s) = []) /\
  (coord s <> Returned -> exists a s', step mustex a s = Some s') /\
  length acts + remaining s = 2 * length cmds + n + 2.
Proof.
  intros Hn Hok Hrun.
  destruct (exec_inv mustex n cmds Hok acts _ s (inv_init n cmds) Hrun)
    as [Hs Hr].
  rewrite remaining_init in Hr.
  pose proof Hs as [Hw Hq Hp He Hph].
  split; [rewrite <- Hw; apply running_length|].
  split; [done|]. split; [done|].
  split; [|split; [|lia]].
  - intros Hc. rewrite Hc in Hph, Hq. simpl in Hq.
    apply running_all_done in Hph. split; [|done].
    rewrite Hph, !app_nil_r in *. by rewrite <- Hp, Hq.
  - intros Hc. by eapply inv_progress.
Qed.

Lemma C8_pool_runs_each_command_once_witness :
  length (running (workers afterSchedule)) <= 3 /\
  (started afterSchedule ++ queue (coord afterSchedule))%list = sevenPushes /\
  Permutation (started afterSchedule)
    (completed afterSchedule ++ running (workers afterSchedule))%list /\
  (coord afterSchedule = Returned ->
   Permutation (completed afterSchedule) sevenPushes /\
   running (workers afterSchedule) = []) /\
  (coord afterSchedule <> Returned ->
   exists a s', step (fun _ => true) a afterSchedule = Some s') /\
  length oneSchedule + remaining afterSchedule
    = 2 * length sevenPushes + 3 + 2.
Proof.
  apply (C8_pool_runs_each_command_once (fun _ => true) 3 sevenPushes
           oneSchedule afterSchedule).
  - lia.
  - reflexivity.
  - vm_compute. reflexivity.
Defined.

End PushCoordinatorFacts.

(** * What the resolver leaves alone *)

Module FrameFacts.

Import Strings Resolver Frame ResolverFacts.

Section Framed.

Variable allow : string -> Prop.

Lemma framed_scalar_r (v : value) (s : string) :
  framed allow v (VStr s) -> v = VStr s.
Proof. by inversion 1. Qed.

Lemma framed_scalar_l (v : value) (s : string) :
  framed allow (VStr s) v -> v = VStr s.
Proof. by inversion 1. Qed.

Lemma framed_entries_refl (m : object) : Forall2 (framed_entry allow) m m.
Proof.
  induction m as [|[k v] m IH]; constructor; [|done].
  apply entry_framed, framed_same.
Qed.

Lemma framed_entry_trans_allowed (e1 e2 : string * value) (k : string)
    (s s' : string) :
  framed_entry allow e1 e2 -> e2 = (k, VStr s) -> allow k ->
  framed_entry allow e1 (k, VStr s').
Proof.
  intros H -> Hk. inversion H as [k0 v v' Hf|k0 s0 s1 Hk0]; subst.
  - apply framed_scalar_r in Hf as ->. by apply entry_allowed.
  - by apply entry_allowed.
Qed.

(** Transitivity, by induction on the height of the first tree. *)
Lemma framed_trans_height (n : nat) (a b c : value) :
  height a <= n -> framed allow a b -> framed allow b c -> framed allow a c.
Proof.
  revert a b c. induction n as [|n IH]; intros a b c Hn Hab Hbc.
  - inversion Hab; subst; try done; simpl in Hn; lia.
  - inversion Hab as [|l l' Hl|m m' Hm]; subst; [done| |].
    + inversion Hbc as [|? l'' Hl'|]; subst; [done|].
      apply framed_seq. simpl in Hn. apply le_S_n in Hn.
      clear Hab Hbc. revert l'' Hl'.
      induction Hl as [|x y l l' Hxy Hl IHl]; intros l'' Hl'.
      * by inversion Hl'.
      * inversion Hl' as [|? z ? l2 Hyz Hl2]; subst. simpl in Hn.
        constructor.
        -- eapply IH; [|done..]. lia.
        -- apply IHl; [lia|done].
    + inversion Hbc as [| |? m'' Hm']; subst; [done|].
      apply framed_map. simpl in Hn. apply le_S_n in Hn.
      clear Hab Hbc. revert m'' Hm'.
      induction Hm as [|x y m m' Hxy Hm IHm]; intros m'' Hm'.
      * by inversion Hm'.
      * inversion Hm' as [|? z ? m2 Hyz Hm2]; subst. simpl in Hn.
        constructor; [|apply IHm; [lia|done]].
        inversion Hyz as [k v v' Hf|k s s' Hk]; subst.
        -- inversion Hxy as [k0 v0 v1 Hf0|k0 s0 s1 Hk0]; subst.
           ++ apply entry_framed. eapply IH; [|done..]. simpl in Hn. lia.
           ++ apply framed_scalar_l in Hf as ->. by apply entry_allowed.
        -- by eapply framed_entry_trans_allowed.
Qed.

Lemma framed_trans (a b c : value) :
  framed allow a b -> framed allow b c -> framed allow a c.
Proof. by apply (framed_trans_height (height a)). Qed.

(** Writing a key of a mapping. *)
Lemma framed_mset (k : string) (v v' : value) (m : object) :
  mget k m = Some v -> framed_entry allow (k, v) (k, v') ->
  framed allow (VMap m) (VMap (mset k v' m)).
Proof.
  intros Hg He. apply framed_map.
  induction m as [|[k0 v0] m IH]; simpl in *; [done|].
  destruct (String.eqb k k0) eqn:E.
  - apply String.eqb_eq in E. subst k0. injection Hg as ->.
    constructor; [done|apply framed_entries_refl].
  - constructor; [apply entry_framed, framed_same|by apply IH].
Qed.

Lemma framed_cons (x y : value) (l l' : list value) :
  framed allow x y -> framed allow (VSeq l) (VSeq l') ->
  framed allow (VSeq (x :: l)) (VSeq (y :: l')).
Proof.
  intros Hx Hl. apply framed_seq. constructor; [done|].
  inversion Hl; subst; [|done].
  clear. induction l'; constructor; [apply framed_same|done].
Qed.

Lemma framed_entry_cons (k : string) (x y : value) (m m' : object) :
  framed allow x y -> framed allow (VMap m) (VMap m') ->
  framed allow (VMap ((k, x) :: m)) (VMap ((k, y) :: m')).
Proof.
  intros Hx Hm. apply framed_map. constructor; [by apply entry_framed|].
  inversion Hm; subst; [apply framed_entries_refl|done].
Qed.

(** ** The methods of the transformer *)

Variable images : gmap string string.

Hypothesis allow_value : allow "value".

Hypothesis allow_image :
  allow "image" \/ forall n, snd (resolveImageName images n) = false.

Lemma rewriteEnvValue_framed (kv : object) (s : string) :
  mget "value" kv = Some (VStr s) ->
  framed allow (VMap kv) (VMap (rewriteEnvValue images kv s)).
Proof.
  intros Hv. unfold rewriteEnvValue.
  destruct (HasPrefix s "//") eqn:E1; destruct (HasPrefix s ":") eqn:E2.
  - by destruct (prefixes_exclusive s).
  - eapply framed_mset; [done|by apply entry_allowed].
  - eapply framed_mset; [done|by apply entry_allowed].
  - apply framed_same.
Qed.

Lemma updateEnvEntries_framed (env : list value) :
  framed allow (VSeq env) (VSeq (updateEnvEntries images env)).
Proof.
  induction env as [|e env IH]; simpl; [apply framed_same|].
  destruct e as [| | | | |kv]; try apply framed_same.
  destruct (mget "name" kv) as [[| | |envName| |]|]; try apply framed_same.
  destruct (Contains envName "IMAGE_URL").
  - destruct (mget "value" kv) as [[| | |envValue| |]|] eqn:Ev;
      try apply framed_same.
    apply framed_cons; [by apply rewriteEnvValue_framed|done].
  - apply framed_cons; [apply framed_same|done].
Qed.

Lemma updateContainerEnv_framed (container : object) :
  framed allow (VMap container) (VMap (updateContainerEnv images container)).
Proof.
  unfold updateContainerEnv.
  destruct (mget "env" container) as [[| | | |env|]|] eqn:E;
    try apply framed_same.
  eapply framed_mset; [done|]. apply entry_framed, updateEnvEntries_framed.
Qed.

Lemma resolved_image_framed (container : object) (imagename newname : string)
    (ok : bool) :
  mget "image" container = Some (VStr imagename) ->
  resolveImageName images imagename = (newname, true) ->
  framed allow (VMap container)
    (VMap (mset "image" (VStr newname) container)).
Proof.
  intros Hi Hr. eapply framed_mset; [done|]. apply entry_allowed.
  destruct allow_image as [?|Hno]; [done|].
  specialize (Hno imagename). by rewrite Hr in Hno.
Qed.

Lemma tree_of_omap {A B : Type} (f : A -> B) (x : outcome A) :
  tree_of (omap f x) = f <$> tree_of x.
Proof. by destruct x. Qed.

Lemma updateContainerList_framed (cs t : list value) :
  tree_of (updateContainerList images cs) = Some t ->
  framed allow (VSeq cs) (VSeq t).
Proof.
  revert t. induction cs as [|c cs IH]; simpl; intros t Ht.
  - injection Ht as <-. apply framed_same.
  - destruct c as [| | | | |container]; try done.
    pose proof (updateContainerEnv_framed container) as Henv.
    assert (Hgo : forall c0 : object,
      framed allow (VMap container) (VMap c0) ->
      tree_of (omap (cons (VMap c0)) (updateContainerList images cs))
        = Some t ->
      framed allow (VSeq (VMap container :: cs)) (VSeq t)).
    { intros c0 Hc0. rewrite tree_of_omap.
      destruct (tree_of (updateContainerList images cs)) as [t'|]; [|done].
      intros [= <-]. apply framed_cons; [done|by apply IH]. }
    destruct (mget "image" (updateContainerEnv images container))
      as [[| | |imagename| |]|] eqn:Ei; try exact (Hgo _ Henv Ht).
    destruct (resolveImageName images imagename) as [newname [|]] eqn:Er.
    + eapply Hgo; [|exact Ht]. eapply framed_trans; [done|].
      by eapply (resolved_image_framed _ _ _ true).
    + destruct (HasPrefix imagename "//"); [|exact (Hgo _ Henv Ht)].
      injection Ht as <-. apply framed_cons; [done|apply framed_same].
Qed.

Lemma updateContainers_framed (obj t : object) (path : string) :
  tree_of (updateContainers images obj path) = Some t ->
  framed allow (VMap obj) (VMap t).
Proof.
  unfold updateContainers.
  destruct (mget path obj) as [[| | | |cs|]|] eqn:E; try done.
  rewrite tree_of_omap.
  destruct (tree_of (updateContainerList images cs)) as [cs'|] eqn:Ecs;
    [|done].
  intros [= <-]. eapply framed_mset; [done|].
  by apply entry_framed, updateContainerList_framed.
Qed.

Lemma updateContainer_framed (obj t : object) (path : string) :
  tree_of (updateContainer images obj path) = Some t ->
  framed allow (VMap obj) (VMap t).
Proof.
  unfold updateContainer.
  destruct (mget path obj) as [[| | | | |container]|] eqn:E; try done.
  pose proof (updateContainerEnv_framed container) as Henv.
  assert (Hgo : forall c0 : object,
    framed allow (VMap container) (VMap c0) ->
    framed allow (VMap obj) (VMap (mset path (VMap c0) obj))).
  { intros c0 Hc0. eapply framed_mset; [done|by apply entry_framed]. }
  destruct (mget "image" (updateContainerEnv images container))
    as [[| | |imagename| |]|] eqn:Ei;
    try (intros [= <-]; exact (Hgo _ Henv)).
  destruct (HasPrefix imagename "//"); [intros [= <-]; exact (Hgo _ Henv)|].
  destruct (resolveImageName images imagename) as [newname [|]] eqn:Er;
    intros [= <-]; apply Hgo; [|done].
  eapply framed_trans; [done|].
  by eapply (resolved_image_framed _ _ _ true).
Qed.

Lemma forPaths_framed (update : object -> string -> outcome object)
    (paths : list string) (found found' : bool) (obj t : object) :
  (forall o p t, tree_of (update o p) = Some t ->
                 framed allow (VMap o) (VMap t)) ->
  tree_of (forPaths update paths found obj) = Some (found', t) ->
  framed allow (VMap obj) (VMap t).
Proof.
  intros Hu. revert found obj.
  induction paths as [|p paths IH]; simpl; intros found obj H.
  - injection H as <- <-. apply framed_same.
  - destruct (has p obj); [|by eapply IH].
    unfold andThen in H.
    destruct (update obj p) as [o|e o| |] eqn:Eu; try done.
    + eapply framed_trans; [apply (Hu obj p); by rewrite Eu|by eapply IH].
    + injection H as <- <-. apply (Hu obj p). by rewrite Eu.
Qed.

Lemma handleShapes_framed (obj t : object) (found : bool) :
  tree_of (handleShapes images obj) = Some (found, t) ->
  framed allow (VMap obj) (VMap t).
Proof.
  unfold handleShapes, andThen.
  destruct (forPaths (updateContainer images) _ false obj)
    as [[f1 o1]|e [f1 o1]| |] eqn:E1; try done.
  - intros H. eapply framed_trans.
    + eapply (forPaths_framed (updateContainer images));
        [intros o p t0; apply updateContainer_framed|by rewrite E1].
    + eapply (forPaths_framed (updateContainers images));
        [intros o p t0; apply updateContainers_framed|done].
  - intros [= <- <-].
    eapply (forPaths_framed (updateContainer images));
      [intros o p t0; apply updateContainer_framed|by rewrite E1].
Qed.

Lemma visitItems_framed (visit : object -> outcome object)
    (items t : list value) :
  (forall o t, tree_of (visit o) = Some t -> framed allow (VMap o) (VMap t)) ->
  tree_of (visitItems visit items) = Some t ->
  framed allow (VSeq items) (VSeq t).
Proof.
  intros Hv. revert t. induction items as [|x items IH]; simpl; intros t H.
  - injection H as <-. apply framed_same.
  - assert (Hskip : tree_of (omap (cons x) (visitItems visit items)) = Some t
                    -> framed allow (VSeq (x :: items)) (VSeq t)).
    { rewrite tree_of_omap.
      destruct (tree_of (visitItems visit items)) as [t'|]; [|done].
      intros [= <-]. apply framed_cons; [apply framed_same|by apply IH]. }
    destruct x as [| | | | |o]; try by apply Hskip.
    unfold andThen in H. destruct (visit o) as [o'|e o'| |] eqn:Eo; try done.
    + rewrite tree_of_omap in H.
      destruct (tree_of (visitItems visit items)) as [t'|]; [|done].
      injection H as <-.
      apply framed_cons; [apply Hv; by rewrite Eo|by apply IH].
    + injection H as <-.
      apply framed_cons; [apply Hv; by rewrite Eo|apply framed_same].
Qed.

Lemma visitChildren_framed (visit : object -> outcome object)
    (obj t : object) :
  (forall o t, tree_of (visit o) = Some t -> framed allow (VMap o) (VMap t)) ->
  tree_of (visitChildren visit obj) = Some t ->
  framed allow (VMap obj) (VMap t).
Proof.
  intros Hv. revert t. induction obj as [|[k v] obj IH]; simpl; intros t H.
  - injection H as <-. apply framed_same.
  - assert (Hskip :
      tree_of (omap (cons (k, v)) (visitChildren visit obj)) = Some t ->
      framed allow (VMap ((k, v) :: obj)) (VMap t)).
    { rewrite tree_of_omap.
      destruct (tree_of (visitChildren visit obj)) as [t'|]; [|done].
      intros [= <-].
      apply framed_entry_cons; [apply framed_same|by apply IH]. }
    destruct v as [| | | |l|o]; try by apply Hskip.
    + unfold andThen in H.
      destruct (visitItems visit l) as [l'|e l'| |] eqn:El; try done.
      * rewrite tree_of_omap in H.
        destruct (tree_of (visitChildren visit obj)) as [t'|]; [|done].
        injection H as <-. apply framed_entry_cons; [|by apply IH].
        apply (visitItems_framed visit); [done|by rewrite El].
      * injection H as <-. apply framed_entry_cons; [|apply framed_same].
        apply (visitItems_framed visit); [done|by rewrite El].
    + unfold andThen in H. destruct (visit o) as [o'|e o'| |] eqn:Eo;
        try done.
      * rewrite tree_of_omap in H.
        destruct (tree_of (visitChildren visit obj)) as [t'|]; [|done].
        injection H as <-.
        apply framed_entry_cons; [apply Hv; by rewrite Eo|by apply IH].
      * injection H as <-.
        apply framed_entry_cons; [apply Hv; by rewrite Eo|apply framed_same].
Qed.

Lemma findAndReplaceTag_framed (fuel : nat) (obj t : object) :
  tree_of (findAndReplaceTag images fuel obj) = Some t ->
  framed allow (VMap obj) (VMap t).
Proof.
  revert obj t. induction fuel as [|fuel IH]; intros obj t; [done|].
  rewrite findAndReplaceTag_S. unfold andThen.
  destruct (handleShapes images obj) as [[found o1]|e [found o1]| |] eqn:E;
    try done.
  - assert (H1 : framed allow (VMap obj) (VMap o1))
      by (apply (handleShapes_framed _ _ found); by rewrite E).
    destruct found; simpl.
    + by intros [= <-].
    + intros H. eapply framed_trans; [done|].
      by apply (visitChildren_framed (findAndReplaceTag images fuel)).
  - intros [= <-]. apply (handleShapes_framed _ _ found). by rewrite E.
Qed.

End Framed.

(** Reading a key that is not in [allow] on both sides of [framed]. *)
Lemma framed_mget (allow : string -> Prop) (m m' : object) (k : string) :
  framed allow (VMap m) (VMap m') -> ~ allow k ->
  match mget k m with
  | Some v => exists v', mget k m' = Some v' /\ framed allow v v'
  | None => mget k m' = None
  end.
Proof.
  intros H Hk. inversion H as [| |? ? Hm]; subst.
  - destruct (mget k m'); [|done]. eexists. split; [done|apply framed_same].
  - induction Hm as [|x y m m' Hxy Hm IH]; simpl; [done|].
    assert (Hsub : framed allow (VMap m) (VMap m')) by (by apply framed_map).
    inversion Hxy as [k0 v v' Hf|k0 s s' Hk0]; subst.
    + destruct (String.eqb k k0); [by eexists|by apply IH].
    + destruct (String.eqb k k0) eqn:E; [|by apply IH].
      apply String.eqb_eq in E. by subst.
Qed.

End FrameFacts.

(** * Further properties of the resolver *)

Module ResolverMore.

Import Strings Resolver Frame ResolverSpec ResolverFacts FrameFacts.

(** ** What the transformer leaves alone *)

(** The frame of the transformer. *)
Lemma transform_framed (images : gmap string string)
    (obj t : object) :
  tree_of (transform images obj) = Some t ->
  framed imageOrValue (VMap obj) (VMap t).
Proof.
  apply findAndReplaceTag_framed.
  - by right.
  - left. by left.
Qed.

(** X1.  Whether [findAndReplaceTag] returns nil or an error, the tree
    it leaves is the tree it was given except for string values of keys
    named [image] or [value]: no key is added, removed or moved, and no
    other value changes. *)
Theorem transform_touches_only_image_and_value (images : gmap string string)
    (obj t : object) :
  tree_of (transform images obj) = Some t ->
  framed imageOrValue (VMap obj) (VMap t).
Proof. apply transform_framed. Qed.

Lemma transform_touches_only_image_and_value_witness :
  framed imageOrValue (VMap (pod "//app:image"))
    (VMap (pod "registry.example.com/app:abc123")).
Proof.
  apply (transform_touches_only_image_and_value appImages).
  vm_compute. reflexivity.
Defined.

Lemma resolveImageName_empty (imagename : string) :
  resolveImageName ∅ imagename = (EmptyString, false).
Proof.
  unfold resolveImageName. rewrite !lookup_empty.
  by destruct (HasPrefix imagename ":"), (HasPrefix imagename "@").
Qed.

(** X2.  With an empty image map the transformer changes no image
    field: the tree it leaves differs from the one it was given only in
    string values of keys named [value] (the [env] entries it rewrites to
    the empty string). *)
Theorem empty_map_changes_no_image (obj t : object) :
  tree_of (transform ∅ obj) = Some t ->
  framed valueOnly (VMap obj) (VMap t).
Proof.
  apply findAndReplaceTag_framed.
  - done.
  - right. intros n. by rewrite resolveImageName_empty.
Qed.

Lemma empty_map_changes_no_image_witness :
  framed valueOnly (VMap (pod "//app:image")) (VMap (pod "//app:image")).
Proof.
  apply empty_map_changes_no_image. vm_compute. reflexivity.
Defined.

Lemma framed_string (allow : string -> Prop) (v v' : value) :
  framed allow v v' ->
  match v with VStr s => s | _ => EmptyString end
  = match v' with VStr s => s | _ => EmptyString end.
Proof. by inversion 1. Qed.

Lemma framed_GetKind (obj t : object) :
  framed imageOrValue (VMap obj) (VMap t) -> GetKind t = GetKind obj.
Proof.
  intros H. unfold GetKind.
  pose proof (framed_mget imageOrValue obj t "kind" H) as Hk.
  destruct (mget "kind" obj) as [v|].
  - destruct Hk as (v' & -> & Hf); [by intros [?|?]|].
    apply framed_string in Hf. by destruct v, v'.
  - rewrite Hk; [done|by intros [?|?]].
Qed.

Lemma framed_GetName (obj t : object) :
  framed imageOrValue (VMap obj) (VMap t) -> GetName t = GetName obj.
Proof.
  intros H. unfold GetName.
  pose proof (framed_mget imageOrValue obj t "metadata" H) as Hm.
  destruct (mget "metadata" obj) as [v|].
  - destruct Hm as (v' & -> & Hf); [by intros [?|?]|].
    inversion Hf as [|l l' Hl|m m' Hmm]; subst; try done.
    pose proof (framed_mget imageOrValue m m' "name" Hf) as Hn.
    destruct (mget "name" m) as [n|].
    + destruct Hn as (n' & -> & Hfn); [by intros [?|?]|].
      apply framed_string in Hfn. by destruct n, n'.
    + rewrite Hn; [done|by intros [?|?]].
  - rewrite Hm; [done|by intros [?|?]].
Qed.

(** X3.  The transformer never changes the identity of a document: the
    tree it leaves has the [metadata.name] and the [kind] of the tree it
    was given. *)
Theorem transform_keeps_name_and_kind (images : gmap string string)
    (obj t : object) :
  tree_of (transform images obj) = Some t ->
  GetName t = GetName obj /\ GetKind t = GetKind obj.
Proof.
  intros H. apply transform_framed in H.
  split; [by apply framed_GetName|by apply framed_GetKind].
Qed.

Lemma transform_keeps_name_and_kind_witness :
  GetName (pod "registry.example.com/app:abc123") = GetName (pod "//app:image")
  /\ GetKind (pod "registry.example.com/app:abc123")
     = GetKind (pod "//app:image").
Proof.
  apply (transform_keeps_name_and_kind appImages).
  vm_compute. reflexivity.
Defined.

(** ** Image-name resolution *)

Lemma substring_all (s : string) : String.substring 0 (String.length s) s = s.
Proof. induction s as [|a s IH]; simpl; [done|by rewrite IH]. Qed.

Lemma HasPrefix_byte (s : string) (c : Ascii.ascii) :
  HasPrefix s (String c EmptyString) = true ->
  s = String c (tail s) /\ TrimPrefix s (String c EmptyString) = tail s.
Proof.
  unfold HasPrefix, TrimPrefix. intros H. rewrite H.
  apply String.prefix_correct in H.
  destruct s as [|a s]; simpl in *; [done|].
  injection H as ->. split; [done|].
  rewrite Nat.sub_0_r. apply substring_all.
Qed.

Lemma HasPrefix_cons (s : string) (c : Ascii.ascii) :
  HasPrefix (String c s) (String c EmptyString) = true.
Proof.
  unfold HasPrefix. apply String.prefix_correct. simpl.
  by destruct s.
Qed.

(** The ways a name resolves. *)
Lemma resolveImageName_cases (images : gmap string string)
    (imagename newname : string) :
  resolveImageName images imagename = (newname, true) ->
  images !! imagename = Some newname \/
  (images !! imagename = None /\
   exists key, images !! key = Some newname /\
     (imagename = String ":" key \/ imagename = String "@" key)).
Proof.
  unfold resolveImageName.
  destruct (images !! imagename) as [v|] eqn:E; [intros [= <-]; by left|].
  intros H. right. split; [done|].
  destruct (HasPrefix imagename ":") eqn:E1.
  - apply HasPrefix_byte in E1 as [Hs Ht]. rewrite Ht in H.
    destruct (images !! tail imagename) as [v|] eqn:E2.
    + injection H as <-. exists (tail imagename). split; [done|by left].
    + destruct (HasPrefix imagename "@") eqn:E3; [|done].
      apply HasPrefix_byte in E3 as [Hs' _]. rewrite Hs in Hs'. done.
  - destruct (HasPrefix imagename "@") eqn:E3; [|done].
    apply HasPrefix_byte in E3 as [Hs Ht]. rewrite Ht in H.
    destruct (images !! tail imagename) as [v|] eqn:E2; [|done].
    injection H as <-. exists (tail imagename). split; [done|by right].
Qed.

(** X4.  The rules of [resolveImageName] in their order: the name itself,
    then the name without a leading colon, then the name without a
    leading at-sign; a resolved name is always a value of the image
    map. *)
Theorem resolveImageName_first_rule_wins (images : gmap string string)
    (imagename newname : string) :
  resolveImageName images imagename = (newname, true) ->
  images !! imagename = Some newname \/
  (images !! imagename = None /\
   exists key, images !! key = Some newname /\
     (imagename = String ":" key \/ imagename = String "@" key)).
Proof. apply resolveImageName_cases. Qed.

Lemma resolveImageName_first_rule_wins_witness :
  shortImages !! ":app:image" = Some "registry.example.com/app:v2" \/
  (shortImages !! ":app:image" = None /\
   exists key,
     shortImages !! key = Some "registry.example.com/app:v2" /\
     (":app:image" = String ":" key \/ ":app:image" = String "@" key)).
Proof.
  apply (resolveImageName_first_rule_wins shortImages ":app:image").
  vm_compute. reflexivity.
Defined.

(** X5.  Resolution succeeds exactly when the image map has the name, or has
    the rest of a name that begins with a colon or an at-sign. *)
Theorem resolveImageName_resolves_iff (images : gmap string string)
    (imagename : string) :
  snd (resolveImageName images imagename) = true <->
  is_Some (images !! imagename) \/
  exists key, is_Some (images !! key) /\
    (imagename = String ":" key \/ imagename = String "@" key).
Proof.
  split.
  - destruct (resolveImageName images imagename) as [newname ok] eqn:E.
    simpl. intros ->.
    apply resolveImageName_cases in E
      as [E|(_ & key & Hk & Hn)]; [left; by eexists|].
    right. exists key. split; [by eexists|done].
  - unfold resolveImageName.
    destruct (images !! imagename) as [v|] eqn:E; [done|].
    intros [[v Hv]|(key & [v Hv] & Hn)]; [done|].
    destruct Hn as [Hn|Hn]; subst imagename.
    + rewrite HasPrefix_cons.
      destruct (HasPrefix_byte (String ":" key) ":" (HasPrefix_cons _ _))
        as [_ ->]. simpl. by rewrite Hv.
    + assert (HasPrefix (String "@" key) ":" = false) as ->.
      { unfold HasPrefix. destruct (String.prefix ":" (String "@" key)) eqn:E1;
          [|done].
        apply String.prefix_correct in E1. simpl in E1. by destruct key. }
      rewrite HasPrefix_cons.
      destruct (HasPrefix_byte (String "@" key) "@" (HasPrefix_cons _ _))
        as [_ ->]. simpl. by rewrite Hv.
Qed.

End ResolverMore.

(** * The containers, the errors and the stream *)

Module ResolverStream.

Import Strings Resolver Frame ResolverSpec ResolverFacts FrameFacts
  ResolverMore.

(** ** After [updateContainers] has returned nil *)

Lemma updateContainerList_resolved (images : gmap string string)
    (cs cs' : list value) :
  updateContainerList images cs = Ok cs' ->
  forall container imagename,
    VMap container ∈ cs' ->
    mget "image" container = Some (VStr imagename) ->
    HasPrefix imagename "//" = true ->
    exists key, images !! key = Some imagename.
Proof.
  revert cs'. induction cs as [|c cs IH]; simpl; intros cs' H.
  - injection H as <-. intros ? ? []%elem_of_nil.
  - destruct c as [| | | | |c]; try done.
    assert (Hgo : forall c0 : object,
      (forall n, mget "image" c0 = Some (VStr n) ->
                 HasPrefix n "//" = true ->
                 exists key, images !! key = Some n) ->
      omap (cons (VMap c0)) (updateContainerList images cs) = Ok cs' ->
      forall container imagename,
        VMap container ∈ cs' ->
        mget "image" container = Some (VStr imagename) ->
        HasPrefix imagename "//" = true ->
        exists key, images !! key = Some imagename).
    { intros c0 Hc0 Hm. unfold omap, andThen in Hm.
      destruct (updateContainerList images cs) as [l| | |]; try done.
      injection Hm as <-. intros container n Hin.
      apply elem_of_cons in Hin as [[= ->]|Hin]; [apply Hc0|by eapply IH]. }
    destruct (mget "image" (updateContainerEnv images c))
      as [[| | |n| |]|] eqn:Ei;
      try (eapply Hgo; [|exact H]; intros ? Hn0; congruence).
    destruct (resolveImageName images n) as [newname [|]] eqn:Er.
    + eapply Hgo; [|exact H]. intros n1 Hn1 _.
      rewrite mget_mset_eq in Hn1. injection Hn1 as <-.
      apply resolveImageName_cases in Er
        as [?|(_ & key & ? & _)]; by eexists.
    + destruct (HasPrefix n "//") eqn:Ep; [done|].
      eapply Hgo; [|exact H]. intros n1 Hn1. congruence.
Qed.

Lemma updateContainerEnv_other_keys (images : gmap string string)
    (container : object) (k : string) :
  k <> "env" ->
  mget k (updateContainerEnv images container) = mget k container.
Proof.
  intros Hk. unfold updateContainerEnv.
  destruct (mget "env" container) as [[| | | |env|]|]; try done.
  by apply mget_mset_ne.
Qed.

Lemma updateContainerList_images (images : gmap string string)
    (cs cs' : list value) :
  updateContainerList images cs = Ok cs' ->
  length cs' = length cs /\
  forall i container imagename,
    cs !! i = Some (VMap container) ->
    mget "image" container = Some (VStr imagename) ->
    exists container',
      cs' !! i = Some (VMap container') /\
      match resolveImageName images imagename with
      | (newname, true) => mget "image" container' = Some (VStr newname)
      | (_, false) =>
          HasPrefix imagename "//" = false /\
          mget "image" container' = Some (VStr imagename)
      end.
Proof.
  revert cs'. induction cs as [|c cs IH]; simpl; intros cs' H.
  - injection H as <-. split; [done|]. intros i ? ? Hi. done.
  - destruct c as [| | | | |c]; try done.
    assert (Hgo : forall c0 : object,
      (forall n, mget "image" c = Some (VStr n) ->
         match resolveImageName images n with
         | (newname, true) => mget "image" c0 = Some (VStr newname)
         | (_, false) =>
             HasPrefix n "//" = false /\ mget "image" c0 = Some (VStr n)
         end) ->
      omap (cons (VMap c0)) (updateContainerList images cs) = Ok cs' ->
      length cs' = S (length cs) /\
      forall i container imagename,
        (VMap c :: cs) !! i = Some (VMap container) ->
        mget "image" container = Some (VStr imagename) ->
        exists container',
          cs' !! i = Some (VMap container') /\
          match resolveImageName images imagename with
          | (newname, true) => mget "image" container' = Some (VStr newname)
          | (_, false) =>
              HasPrefix imagename "//" = false /\
              mget "image" container' = Some (VStr imagename)
          end).
    { intros c0 Hc0 Hm. unfold omap, andThen in Hm.
      destruct (updateContainerList images cs) as [l| | |] eqn:El;
        try done.
      injection Hm as <-. destruct (IH l eq_refl) as [Hlen Hl].
      split; [simpl; by rewrite Hlen|].
      intros [|i] container n Hi Hn; simpl in *.
      - injection Hi as <-. exists c0. split; [done|]. by apply Hc0.
      - exact (Hl _ _ _ Hi Hn). }
    assert (Himg : mget "image" (updateContainerEnv images c)
                   = mget "image" c)
      by (by apply updateContainerEnv_other_keys).
    rewrite Himg in H.
    destruct (mget "image" c) as [[| | |n| |]|] eqn:Ei;
      try (eapply Hgo; [|exact H]; intros ? Hn0; congruence).
    destruct (resolveImageName images n) as [newname [|]] eqn:Er.
    + eapply Hgo; [|exact H]. intros n1 [= <-]. rewrite Er.
      apply mget_mset_eq.
    + destruct (HasPrefix n "//") eqn:Ep; [done|].
      eapply Hgo; [|exact H]. intros n1 [= <-]. rewrite Er.
      split; [done|]. by rewrite Himg.
Qed.

(** X6.  When [updateContainers] returns nil, no unresolved build-target
    reference is left in the sequence.  Position by position: an element
    whose image the rules of [resolveImageName] resolve now carries the
    resolved name; an element whose image they do not resolve carries
    the image it had, and that image does not begin with the
    build-target prefix.  So an image of the sequence that begins with
    the prefix is a value of the image map. *)
Theorem updateContainers_leaves_no_unresolved (images : gmap string string)
    (obj obj' : object) (path : string) (cs : list value) :
  mget path obj = Some (VSeq cs) ->
  updateContainers images obj path = Ok obj' ->
  exists cs',
    mget path obj' = Some (VSeq cs') /\
    length cs' = length cs /\
    (forall i container imagename,
       cs !! i = Some (VMap container) ->
       mget "image" container = Some (VStr imagename) ->
       exists container',
         cs' !! i = Some (VMap container') /\
         match resolveImageName images imagename with
         | (newname, true) => mget "image" container' = Some (VStr newname)
         | (_, false) =>
             HasPrefix imagename "//" = false /\
             mget "image" container' = Some (VStr imagename)
         end) /\
    (forall container imagename,
       VMap container ∈ cs' ->
       mget "image" container = Some (VStr imagename) ->
       HasPrefix imagename "//" = true ->
       exists key, images !! key = Some imagename).
Proof.
  unfold updateContainers. intros E. rewrite E.
  unfold omap, andThen.
  destruct (updateContainerList images cs) as [cs'| | |] eqn:Ecs; try done.
  intros [= <-]. exists cs'. split; [apply mget_mset_eq|].
  destruct (updateContainerList_images images cs cs' Ecs) as [Hlen Himg].
  split; [done|]. split; [done|].
  by eapply updateContainerList_resolved.
Qed.

Lemma updateContainers_leaves_no_unresolved_witness :
  exists cs',
    mget "containers"
      [("containers",
        VSeq [VMap [("name", VStr "main");
                    ("image", VStr "registry.example.com/app:abc123")];
              VMap [("name", VStr "proxy"); ("image", VStr "nginx:1.25")]])]
      = Some (VSeq cs') /\
    length cs'
    = length [VMap [("name", VStr "main"); ("image", VStr "//app:image")];
              VMap [("name", VStr "proxy"); ("image", VStr "nginx:1.25")]] /\
    (forall i container imagename,
       [VMap [("name", VStr "main"); ("image", VStr "//app:image")];
        VMap [("name", VStr "proxy"); ("image", VStr "nginx:1.25")]] !! i
       = Some (VMap container) ->
       mget "image" container = Some (VStr imagename) ->
       exists container',
         cs' !! i = Some (VMap container') /\
         match resolveImageName appImages imagename with
         | (newname, true) => mget "image" container' = Some (VStr newname)
         | (_, false) =>
             HasPrefix imagename "//" = false /\
             mget "image" container' = Some (VStr imagename)
         end) /\
    (forall container imagename,
       VMap container ∈ cs' ->
       mget "image" container = Some (VStr imagename) ->
       HasPrefix imagename "//" = true ->
       exists key, appImages !! key = Some imagename).
Proof.
  apply (updateContainers_leaves_no_unresolved appImages
           [("containers",
             VSeq [VMap [("name", VStr "main");
                         ("image", VStr "//app:image")];
                   VMap [("name", VStr "proxy");
                         ("image", VStr "nginx:1.25")]])]
           [("containers",
             VSeq [VMap [("name", VStr "main");
                         ("image", VStr "registry.example.com/app:abc123")];
                   VMap [("name", VStr "proxy");
                         ("image", VStr "nginx:1.25")]])]
           "containers").
  - reflexivity.
  - vm_compute. reflexivity.
Defined.

(** ** The [env] entries that are not rewritten *)

(** X7.  An [env] entry that is not a mapping with an [IMAGE_URL] name and a
    string value beginning with the build-target prefix or a colon comes
    out of [updateContainerEnv] as it went in, wherever it stands in the
    list; a value that begins with an at-sign is such a value. *)
Theorem updateEnvEntries_keeps_other_entries (images : gmap string string)
    (env : list value) (i : nat) (e : value) :
  env !! i = Some e ->
  envRewritable e = false ->
  updateEnvEntries images env !! i = Some e.
Proof.
  revert i. induction env as [|x env IH]; intros i Hi He; [done|].
  assert (Hrest : forall y, i <> 0 ->
            (y :: updateEnvEntries images env) !! i = Some e).
  { intros y Hne. destruct i as [|i]; [done|]. simpl in *. by apply IH. }
  simpl. destruct x as [| | | | |kv]; try done.
  destruct (mget "name" kv) as [[| | |envName| |]|] eqn:En; try done.
  destruct (Contains envName "IMAGE_URL") eqn:Ec.
  - destruct (mget "value" kv) as [[| | |envValue| |]|] eqn:Ev; try done.
    destruct i as [|i]; [|by apply Hrest].
    simpl in *. injection Hi as <-. simpl in He.
    rewrite En, Ev, Ec in He. simpl in He.
    apply orb_false_elim in He as [H1 H2].
    unfold rewriteEnvValue. by rewrite H1, H2.
  - destruct i as [|i]; [done|by apply Hrest].
Qed.

Lemma updateEnvEntries_keeps_other_entries_witness :
  updateEnvEntries shortImages
    [VMap [("name", VStr "APP_IMAGE_URL"); ("value", VStr "@app:image")]]
    !! 0
  = Some (VMap [("name", VStr "APP_IMAGE_URL"); ("value", VStr "@app:image")]).
Proof.
  apply (updateEnvEntries_keeps_other_entries shortImages
           [VMap [("name", VStr "APP_IMAGE_URL");
                  ("value", VStr "@app:image")]] 0);
    reflexivity.
Defined.

(** [updateContainerEnv] writes no key of the container but [env], and
    keeps the number of entries. *)
Lemma updateEnvEntries_length (images : gmap string string)
    (env : list value) :
  length (updateEnvEntries images env) = length env.
Proof.
  induction env as [|x env IH]; simpl; [done|].
  repeat case_match; simpl; congruence.
Qed.

(** ** The errors of the transformer *)

Lemma names_reference_omap {A B : Type} (f : A -> B) (x : outcome A) :
  names_reference x -> names_reference (omap f x).
Proof.
  intros Hx e t. unfold omap, andThen.
  destruct x as [a|e0 a| |] eqn:E; try done.
  intros [= <- _]. by eapply Hx.
Qed.

Lemma names_reference_andThen {A B : Type} (x : outcome A) (wrap : A -> B)
    (k : A -> outcome B) :
  names_reference x -> (forall a, names_reference (k a)) ->
  names_reference (andThen x wrap k).
Proof.
  intros Hx Hk e t. unfold andThen.
  destruct x as [a|e0 a| |] eqn:E; try done.
  - apply Hk.
  - intros [= <- _]. by eapply Hx.
Qed.

Lemma names_reference_Ok {A : Type} (a : A) : names_reference (Ok a).
Proof. by intros e t. Qed.

Section Errors.

Variable images : gmap string string.

Lemma updateContainerList_names_reference (cs : list value) :
  names_reference (updateContainerList images cs).
Proof.
  induction cs as [|c cs IH]; simpl; [apply names_reference_Ok|].
  destruct c as [| | | | |c]; try done.
  destruct (mget "image" (updateContainerEnv images c))
    as [[| | |n| |]|]; try by apply names_reference_omap.
  destruct (resolveImageName images n) as [newname [|]];
    [by apply names_reference_omap|].
  destruct (HasPrefix n "//") eqn:Ep; [|by apply names_reference_omap].
  intros e t [= <- _]. exists n. split; [done|by left].
Qed.

Lemma updateContainers_names_reference (obj : object) (path : string) :
  names_reference (updateContainers images obj path).
Proof.
  unfold updateContainers.
  destruct (mget path obj) as [[| | | |cs|]|]; try done.
  apply names_reference_omap, updateContainerList_names_reference.
Qed.

Lemma updateContainer_names_reference (obj : object) (path : string) :
  names_reference (updateContainer images obj path).
Proof.
  unfold updateContainer.
  destruct (mget path obj) as [[| | | | |c]|]; try done.
  destruct (mget "image" (updateContainerEnv images c))
    as [[| | |n| |]|]; try apply names_reference_Ok.
  destruct (HasPrefix n "//") eqn:Ep.
  - intros e t [= <- _]. exists n. split; [done|by right].
  - destruct (resolveImageName images n) as [newname [|]];
      apply names_reference_Ok.
Qed.

Lemma forPaths_names_reference
    (update : object -> string -> outcome object) (paths : list string)
    (found : bool) (obj : object) :
  (forall o p, names_reference (update o p)) ->
  names_reference (forPaths update paths found obj).
Proof.
  intros Hu. revert found obj.
  induction paths as [|p paths IH]; simpl; intros found obj;
    [apply names_reference_Ok|].
  destruct (has p obj); [|apply IH].
  apply names_reference_andThen; [apply Hu|]. intros o. apply IH.
Qed.

Lemma handleShapes_names_reference (obj : object) :
  names_reference (handleShapes images obj).
Proof.
  unfold handleShapes. apply names_reference_andThen.
  - apply forPaths_names_reference, updateContainer_names_reference.
  - intros [found o].
    apply forPaths_names_reference, updateContainers_names_reference.
Qed.

Lemma visitItems_names_reference (visit : object -> outcome object)
    (items : list value) :
  (forall o, names_reference (visit o)) ->
  names_reference (visitItems visit items).
Proof.
  intros Hv. induction items as [|x items IH]; simpl;
    [apply names_reference_Ok|].
  destruct x; try by apply names_reference_omap.
  apply names_reference_andThen; [apply Hv|].
  intros o. by apply names_reference_omap.
Qed.

Lemma visitChildren_names_reference (visit : object -> outcome object)
    (obj : object) :
  (forall o, names_reference (visit o)) ->
  names_reference (visitChildren visit obj).
Proof.
  intros Hv. induction obj as [|[k v] obj IH]; simpl;
    [apply names_reference_Ok|].
  destruct v; try by apply names_reference_omap.
  - apply names_reference_andThen;
      [by apply visitItems_names_reference|].
    intros l'. by apply names_reference_omap.
  - apply names_reference_andThen; [apply Hv|].
    intros o. by apply names_reference_omap.
Qed.

Lemma findAndReplaceTag_names_reference (fuel : nat) (obj : object) :
  names_reference (findAndReplaceTag images fuel obj).
Proof.
  revert obj. induction fuel as [|fuel IH]; intros obj; [done|].
  rewrite findAndReplaceTag_S.
  apply names_reference_andThen; [apply handleShapes_names_reference|].
  intros [found o]. destruct found; simpl; [apply names_reference_Ok|].
  by apply visitChildren_names_reference.
Qed.

End Errors.

(** X8.  The only errors of [findAndReplaceTag], at whatever depth they
    arise, are the two unresolved-image errors, and the reference they
    name begins with the build-target prefix. *)
Theorem transform_error_names_reference (images : gmap string string)
    (obj t : object) (e : string) :
  transform images obj = Err e t ->
  exists imagename,
    HasPrefix imagename "//" = true /\ unresolvedMessage imagename e.
Proof. apply findAndReplaceTag_names_reference. Qed.

Lemma transform_error_names_reference_witness :
  exists imagename,
    HasPrefix imagename "//" = true /\
    unresolvedMessage imagename "unresolved image found: //app:image".
Proof.
  apply (transform_error_names_reference appImages (task "//app:image")
           (task "//app:image")).
  vm_compute. reflexivity.
Defined.

(** ** The stream *)

Section Stream.

Variable marshal : object -> option string.
Variable write : list string -> string -> option string.
Variable images : gmap string string.

Lemma separated_cons (buf : string) (bufs : list string) :
  separated (buf :: bufs) = buf :: eachSeparated bufs.
Proof.
  revert buf. induction bufs as [|b bufs IH]; intros buf; [done|].
  change (separated (buf :: b :: bufs))
    with (buf :: separator :: separated (b :: bufs)).
  by rewrite IH.
Qed.

Lemma Write_ok (out out' : list string) (p : string) :
  Write write out p = (None, out') -> out' = (out ++ [p])%list.
Proof. unfold Write. destruct (write out p); by intros [= <-]. Qed.

Lemma decodeLoop_output (input : list decoded) (first : bool)
    (out0 out : list string) :
  decodeLoop marshal write images input first out0 = (Return None, out) ->
  exists bufs,
    Forall2 (written_for marshal images) (documents input) bufs /\
    out = (out0 ++ (if first then separated bufs else eachSeparated bufs))%list.
Proof.
  revert first out0. induction input as [|d input IH]; intros first out0 H.
  - simpl in H. injection H as <-. exists []. split; [constructor|].
    destruct first; by rewrite app_nil_r.
  - simpl in H. destruct d as [obj|msg].
    + destruct (String.eqb (GetName obj) EmptyString); [done|].
      destruct (String.eqb (GetKind obj) EmptyString); [done|].
      destruct (tree_of (transform images obj)) as [t|] eqn:Et; [|done].
      destruct (marshal t) as [buf|] eqn:Em; [|done].
      destruct first.
      * destruct (Write write out0 buf) as [[e|] out1] eqn:Ew; [done|].
        apply Write_ok in Ew as ->.
        apply IH in H as (bufs & Hb & ->).
        exists (buf :: bufs). split; [constructor; [by exists t|done]|].
        rewrite <- app_assoc. by rewrite separated_cons.
      * destruct (Write write out0 separator) as [[e|] out1] eqn:Ew1; [done|].
        apply Write_ok in Ew1 as ->.
        destruct (Write write (out0 ++ [separator]) buf) as [[e|] out2]
          eqn:Ew2; [done|].
        apply Write_ok in Ew2 as ->.
        apply IH in H as (bufs & Hb & ->).
        exists (buf :: bufs). split; [constructor; [by exists t|done]|].
        by rewrite <- !app_assoc.
    + destruct (isEmptyYamlError msg); [|done].
      simpl. by apply IH.
Qed.

End Stream.

(** X9.  When [ResolveImages] returns nil, what it has written is, for every
    decoded document in order, the marshalled tree that the transformer
    left (after a nil or after an error), with the marker between two
    documents and none before the first or after the last. *)
Theorem ResolveImages_output (marshal : object -> option string)
    (write : list string -> string -> option string)
    (images : gmap string string) (input : list decoded)
    (out : list string) :
  ResolveImages marshal write images input = (Return None, out) ->
  exists bufs,
    Forall2 (written_for marshal images) (documents input) bufs /\
    out = separated bufs.
Proof. apply (decodeLoop_output marshal write images input true []). Qed.

Lemma ResolveImages_output_witness :
  exists bufs,
    Forall2 (written_for renderDoc appImages)
      (documents [Decoded (pod "//app:image"); Decoded (pod "app")]) bufs /\
    ["{apiVersion: v1, kind: Pod, metadata: {name: app}, spec: {containers: [{name: main, image: registry.example.com/app:abc123}]}}";
     separator;
     "{apiVersion: v1, kind: Pod, metadata: {name: app}, spec: {containers: [{name: main, image: app}]}}"]
    = separated bufs.
Proof.
  apply (ResolveImages_output renderDoc buffer appImages
           [Decoded (pod "//app:image"); Decoded (pod "app")]).
  vm_compute. reflexivity.
Defined.

(** X10.  The error of an empty document is passed over wherever it arises,
    not only at the end of the stream: the call does what it does on the
    stream without that item. *)
Theorem ResolveImages_skips_empty_documents
    (marshal : object -> option string)
    (write : list string -> string -> option string)
    (images : gmap string string) (pre rest : list decoded) (msg : string) :
  isEmptyYamlError msg = true ->
  ResolveImages marshal write images (pre ++ DecodeError msg :: rest)
  = ResolveImages marshal write images (pre ++ rest).
Proof.
  intros Hm. unfold ResolveImages. generalize true. generalize (@nil string).
  induction pre as [|d pre IH]; intros out first; simpl.
  - by rewrite Hm.
  - destruct d as [obj|msg']; [|by destruct (isEmptyYamlError msg')].
    destruct (String.eqb (GetName obj) EmptyString); [done|].
    destruct (String.eqb (GetKind obj) EmptyString); [done|].
    destruct (tree_of (transform images obj)) as [t|]; [|done].
    destruct (marshal t) as [buf|]; [|done].
    destruct (if first then (None, out) else Write write out separator)
      as [[e|] out1]; [done|].
    destruct (Write write out1 buf) as [[e|] out2]; [done|].
    apply IH.
Qed.

Lemma ResolveImages_skips_empty_documents_witness :
  ResolveImages renderDoc buffer appImages
    ([Decoded (pod "app")]
     ++ DecodeError "Object 'Kind' is missing in 'null'"
     :: [Decoded (pod "//app:image")])
  = ResolveImages renderDoc buffer appImages
      ([Decoded (pod "app")] ++ [Decoded (pod "//app:image")]).
Proof.
  apply (ResolveImages_skips_empty_documents renderDoc buffer appImages
           [Decoded (pod "app")] [Decoded (pod "//app:image")]).
  vm_compute. reflexivity.
Defined.

End ResolverStream.

(** * Ill-typed container shapes *)

Module ResolverShapes.

Import Strings Resolver Frame ResolverSpec ResolverFacts FrameFacts
  ResolverMore ResolverStream.

(** ** What the frame keeps of the shape of a node *)

Section Shapes.

Variable allow : string -> Prop.

Lemma framed_is_map (v v' : value) :
  framed allow v v' -> is_map v' = is_map v.
Proof. by inversion 1. Qed.

Lemma framed_items_refl (l : list value) : Forall2 (framed allow) l l.
Proof. induction l; constructor; [apply framed_same|done]. Qed.

Lemma framed_map_inv (m : object) (v' : value) :
  framed allow (VMap m) v' ->
  exists m', v' = VMap m' /\ Forall2 (framed_entry allow) m m'.
Proof.
  inversion 1; subst.
  - exists m. split; [done|apply framed_entries_refl].
  - by eexists.
Qed.

Lemma framed_seq_inv (l : list value) (v' : value) :
  framed allow (VSeq l) v' ->
  exists l', v' = VSeq l' /\ Forall2 (framed allow) l l'.
Proof.
  inversion 1; subst.
  - exists l. split; [done|apply framed_items_refl].
  - by eexists.
Qed.

Lemma framed_seqOfMaps (v v' : value) :
  framed allow v v' -> seqOfMaps v' = seqOfMaps v.
Proof.
  intros H. destruct v; try (by inversion H).
  apply framed_seq_inv in H as (l' & -> & Hl). simpl.
  induction Hl as [|x y l l' Hxy Hl IH]; simpl; [done|].
  by rewrite IH, (framed_is_map x y Hxy).
Qed.

Lemma framed_has (m m' : object) (k : string) :
  framed allow (VMap m) (VMap m') -> has k m' = has k m.
Proof.
  intros H. apply framed_map_inv in H as (m0 & [= <-] & Hm).
  unfold has. induction Hm as [|x y m m' Hxy Hm IH]; simpl; [done|].
  inversion Hxy; subst; destruct (String.eqb k k0); done.
Qed.

Lemma framed_wrongMap (m m' : object) (k : string) :
  framed allow (VMap m) (VMap m') -> ~ allow k ->
  wrongMap k m' = wrongMap k m.
Proof.
  intros H Hk. pose proof (framed_mget allow m m' k H Hk) as Hg.
  unfold wrongMap. destruct (mget k m) as [v|].
  - destruct Hg as (v' & -> & Hv). by rewrite (framed_is_map v v' Hv).
  - by rewrite Hg.
Qed.

Lemma framed_wrongSeq (m m' : object) (k : string) :
  framed allow (VMap m) (VMap m') -> ~ allow k ->
  wrongSeq k m' = wrongSeq k m.
Proof.
  intros H Hk. pose proof (framed_mget allow m m' k H Hk) as Hg.
  unfold wrongSeq. destruct (mget k m) as [v|].
  - destruct Hg as (v' & -> & Hv). by rewrite (framed_seqOfMaps v v' Hv).
  - by rewrite Hg.
Qed.

Lemma framed_child (m m' : object) (key : string) (child : object) :
  Forall2 (framed_entry allow) m m' ->
  (key, VMap child) ∈ m ->
  exists child',
    (key, VMap child') ∈ m' /\ framed allow (VMap child) (VMap child').
Proof.
  intros Hm Hin. induction Hm as [|x y m m' Hxy Hm IH];
    [by apply elem_of_nil in Hin|].
  apply elem_of_cons in Hin as [<-|Hin].
  - inversion Hxy as [k v v' Hf|]; subst.
    apply framed_map_inv in Hf as (c' & -> & Hc).
    exists c'. split; [apply elem_of_cons; by left|by apply framed_map].
  - destruct (IH Hin) as (c' & Hc' & Hf).
    exists c'. split; [apply elem_of_cons; by right|done].
Qed.

Lemma framed_item (m m' : object) (key : string) (items : list value)
    (item : object) :
  Forall2 (framed_entry allow) m m' ->
  (key, VSeq items) ∈ m -> VMap item ∈ items ->
  exists items' item',
    (key, VSeq items') ∈ m' /\ VMap item' ∈ items' /\
    framed allow (VMap item) (VMap item').
Proof.
  intros Hm Hin Hitem. induction Hm as [|x y m m' Hxy Hm IH];
    [by apply elem_of_nil in Hin|].
  apply elem_of_cons in Hin as [<-|Hin].
  - inversion Hxy as [k v v' Hf|]; subst.
    apply framed_seq_inv in Hf as (l' & -> & Hl).
    assert (Hi : exists item', VMap item' ∈ l'
                   /\ framed allow (VMap item) (VMap item')).
    { clear -Hl Hitem. induction Hl as [|a b l l' Hab Hl IH];
        [by apply elem_of_nil in Hitem|].
      apply elem_of_cons in Hitem as [<-|Hitem].
      - apply framed_map_inv in Hab as (c' & -> & Hc).
        exists c'. split; [apply elem_of_cons; by left|by apply framed_map].
      - destruct (IH Hitem) as (c' & Hc' & Hf).
        exists c'. split; [apply elem_of_cons; by right|done]. }
    destruct Hi as (item' & Hi & Hf).
    exists l', item'. split; [apply elem_of_cons; by left|done].
  - destruct (IH Hin) as (l' & c' & Hl' & Hc' & Hf).
    exists l', c'. split; [apply elem_of_cons; by right|done].
Qed.

End Shapes.

Lemma shape_not_allowed (k : string) :
  k = "container" \/ k = "spec" \/ k = "containers" \/ k = "initContainers" ->
  ~ imageOrValue k.
Proof.
  intros H [Hk|Hk]; rewrite Hk in H;
    destruct H as [H|[H|[H|H]]]; done.
Qed.

Lemma framed_illTyped (m m' : object) :
  framed imageOrValue (VMap m) (VMap m') -> illTyped m' = illTyped m.
Proof.
  intros H. unfold illTyped.
  rewrite !(framed_wrongMap imageOrValue m m' _ H),
          !(framed_wrongSeq imageOrValue m m' _ H);
    first done; apply shape_not_allowed; tauto.
Qed.

(** An ill-typed node that the traversal visits is still there, and
    still visited, after string values of [image] and [value] keys have
    changed. *)
Lemma visits_framed (obj node : object) :
  visits obj node -> illTyped node = true ->
  forall obj', framed imageOrValue (VMap obj) (VMap obj') ->
  exists node', visits obj' node' /\ illTyped node' = true.
Proof.
  induction 1 as [obj|obj key child node Hinit Hin Hv IH
                 |obj key items item node Hinit Hin Hitem Hv IH];
    intros Hill obj' Hf.
  - exists obj'. split; [constructor|]. by rewrite (framed_illTyped obj obj').
  - pose proof (framed_has imageOrValue obj obj' "initContainers" Hf) as Hh.
    apply framed_map_inv in Hf as (m0 & [= <-] & Hm).
    destruct (framed_child imageOrValue obj obj' key child Hm Hin)
      as (child' & Hin' & Hc).
    destruct (IH Hill child' Hc) as (node' & Hv' & Hill').
    exists node'. split; [|done].
    eapply visits_child; [by rewrite Hh|done|done].
  - pose proof (framed_has imageOrValue obj obj' "initContainers" Hf) as Hh.
    apply framed_map_inv in Hf as (m0 & [= <-] & Hm).
    destruct (framed_item imageOrValue obj obj' key items item Hm Hin Hitem)
      as (items' & item' & Hin' & Hitem' & Hc).
    destruct (IH Hill item' Hc) as (node' & Hv' & Hill').
    exists node'. split; [|done].
    eapply visits_item; [by rewrite Hh|done|done|done].
Qed.

(** ** The assertions fail *)

Section Assertions.

Variable images : gmap string string.

Lemma wrongMap_panics (obj : object) (path : string) :
  wrongMap path obj = true ->
  has path obj = true /\ updateContainer images obj path = Panic.
Proof.
  unfold wrongMap, has, updateContainer.
  destruct (mget path obj) as [v|]; [|done].
  by destruct v.
Qed.

Lemma updateContainerList_not_nil (cs : list value) :
  forallb is_map cs = false ->
  forall cs', updateContainerList images cs <> Ok cs'.
Proof.
  induction cs as [|c cs IH]; [done|]. simpl. intros H cs'.
  destruct c as [| | | | |c]; try done. simpl in H.
  specialize (IH H). unfold omap, andThen.
  destruct (updateContainerList images cs) as [l| | |];
    [by destruct (IH l)| | |];
    repeat case_match; done.
Qed.

Lemma wrongSeq_not_nil (obj : object) (path : string) :
  wrongSeq path obj = true ->
  has path obj = true /\ forall obj', updateContainers images obj path <> Ok obj'.
Proof.
  unfold wrongSeq, has, updateContainers.
  destruct (mget path obj) as [v|]; [|done].
  intros H. split; [done|]. intros obj'.
  destruct v as [| | | |cs|]; try done. simpl in H.
  apply negb_true_iff in H.
  pose proof (updateContainerList_not_nil cs H) as Hcs.
  unfold omap, andThen.
  destruct (updateContainerList images cs) as [l| | |];
    [by destruct (Hcs l)|done..].
Qed.

Lemma forPaths_wrong (update : object -> string -> outcome object)
    (wrong : string -> object -> bool) (paths : list string)
    (found : bool) (obj : object) :
  (forall o p, wrong p o = true ->
     has p o = true /\ forall o', update o p <> Ok o') ->
  (forall o o' p q, q ∈ paths -> update o p = Ok o' ->
     wrong q o' = wrong q o) ->
  (exists p, p ∈ paths /\ wrong p obj = true) ->
  forall r, forPaths update paths found obj <> Ok r.
Proof.
  intros Hw Hkeep. revert found obj.
  induction paths as [|p paths IH]; intros found obj (q & Hq & Hwq) r.
  - by apply elem_of_nil in Hq.
  - simpl.
    assert (IH' : forall found o,
              (exists q, q ∈ paths /\ wrong q o = true) ->
              forall r, forPaths update paths found o <> Ok r).
    { intros f o. apply IH. intros o1 o2 p1 q1 Hq1.
      apply Hkeep, elem_of_cons. by right. }
    destruct (has p obj) eqn:Ep.
    + unfold andThen. destruct (update obj p) as [o| | |] eqn:Eu; try done.
      apply elem_of_cons in Hq as [->|Hq].
      * destruct (Hw _ _ Hwq) as [_ Hno]. by destruct (Hno o).
      * apply IH'. exists q. split; [done|].
        rewrite (Hkeep obj o p q); [done| |done].
        apply elem_of_cons. by right.
    + apply elem_of_cons in Hq as [->|Hq].
      * destruct (Hw _ _ Hwq) as [Hhas _]. congruence.
      * apply IH'. by exists q.
Qed.

Lemma handleShapes_illTyped (obj : object) :
  illTyped obj = true -> forall r, handleShapes images obj <> Ok r.
Proof.
  intros Hill r. unfold handleShapes, andThen.
  assert (Hf : forall (upd : object -> string -> outcome object) ps f o f' o',
            (forall o p t, tree_of (upd o p) = Some t ->
                           framed imageOrValue (VMap o) (VMap t)) ->
            forPaths upd ps f o = Ok (f', o') ->
            framed imageOrValue (VMap o) (VMap o')).
  { intros upd ps f o f' o' Hupd H.
    eapply (forPaths_framed imageOrValue upd ps f f' o o' Hupd).
    by rewrite H. }
  assert (Hc : forall o p t, tree_of (updateContainer images o p) = Some t ->
                 framed imageOrValue (VMap o) (VMap t)).
  { intros o p t. apply updateContainer_framed; [by right|left; by left]. }
  assert (Hcs : forall o p t, tree_of (updateContainers images o p) = Some t ->
                 framed imageOrValue (VMap o) (VMap t)).
  { intros o p t. apply updateContainers_framed; [by right|left; by left]. }
  destruct (forPaths (updateContainer images) ["container"; "spec"] false obj)
    as [[f1 o1]| | |] eqn:E1; try done.
  pose proof (Hf _ _ _ _ _ _ Hc E1) as Hfr.
  unfold illTyped in Hill.
  destruct (wrongMap "container" obj || wrongMap "spec" obj) eqn:Em.
  - exfalso.
    apply (forPaths_wrong (updateContainer images) wrongMap
             ["container"; "spec"] false obj) with (r := (f1, o1)); [| | |done].
    + intros o p Hwr. destruct (wrongMap_panics o p Hwr) as [Hh Hp].
      split; [done|]. intros o'. by rewrite Hp.
    + intros o o' p q Hq Hu.
      apply (framed_wrongMap imageOrValue).
      * apply (Hc o p). by rewrite Hu.
      * apply shape_not_allowed.
        repeat (apply elem_of_cons in Hq as [->|Hq]; [tauto|]).
        by apply elem_of_nil in Hq.
    + apply orb_true_iff in Em as [?|?].
      * exists "container". split; [apply elem_of_cons; by left|done].
      * exists "spec". split; [|done].
        apply elem_of_cons. right. apply elem_of_cons. by left.
  - simpl in Hill.
    apply (forPaths_wrong (updateContainers images) wrongSeq
             ["containers"; "initContainers"] f1 o1).
    + intros o p. apply wrongSeq_not_nil.
    + intros o o' p q Hq Hu.
      apply (framed_wrongSeq imageOrValue).
      * apply (Hcs o p). by rewrite Hu.
      * apply shape_not_allowed.
        repeat (apply elem_of_cons in Hq as [->|Hq]; [tauto|]).
        by apply elem_of_nil in Hq.
    + rewrite <- !(framed_wrongSeq imageOrValue obj o1 _ Hfr) in Hill
        by (apply shape_not_allowed; tauto).
      apply orb_true_iff in Hill as [?|?].
      * exists "containers". split; [apply elem_of_cons; by left|done].
      * exists "initContainers". split; [|done].
        apply elem_of_cons. right. apply elem_of_cons. by left.
Qed.

Lemma visitItems_stuck (visit : object -> outcome object)
    (items : list value) (item : object) :
  VMap item ∈ items -> (forall t, visit item <> Ok t) ->
  forall l, visitItems visit items <> Ok l.
Proof.
  intros Hin Hno. induction items as [|x items IH];
    [by apply elem_of_nil in Hin|].
  intros l. apply elem_of_cons in Hin as [<-|Hin].
  - simpl. unfold andThen. destruct (visit item) as [t| | |] eqn:E; try done.
    by destruct (Hno t).
  - specialize (IH Hin).
    assert (Hrest : forall (f : list value -> list value) l0,
              omap f (visitItems visit items) <> Ok l0).
    { intros f l0. unfold omap, andThen.
      destruct (visitItems visit items) as [l1| | |]; try done.
      by destruct (IH l1). }
    destruct x as [| | | | |m]; simpl; try apply Hrest.
    unfold andThen. destruct (visit m); done || apply Hrest.
Qed.

Lemma visitChildren_stuck (visit : object -> outcome object)
    (obj : object) :
  (exists key child, (key, VMap child) ∈ obj /\ forall t, visit child <> Ok t)
  \/ (exists key items item,
        (key, VSeq items) ∈ obj /\ VMap item ∈ items /\
        forall t, visit item <> Ok t) ->
  forall t, visitChildren visit obj <> Ok t.
Proof.
  intros H. induction obj as [|[k v] obj IH].
  - destruct H as [(? & ? & H & _)|(? & ? & ? & H & _)];
      by apply elem_of_nil in H.
  - intros t.
    assert (Hrest :
      (exists key child, (key, VMap child) ∈ obj
                         /\ forall t, visit child <> Ok t)
      \/ (exists key items item,
            (key, VSeq items) ∈ obj /\ VMap item ∈ items /\
            forall t, visit item <> Ok t) ->
      forall (f : object -> object) t0,
        omap f (visitChildren visit obj) <> Ok t0).
    { intros H' f t0. specialize (IH H'). unfold omap, andThen.
      destruct (visitChildren visit obj) as [o| | |]; try done.
      by destruct (IH o). }
    destruct H as [(key & child & Hin & Hno)
                  |(key & items & item & Hin & Hitem & Hno)].
    + apply elem_of_cons in Hin as [[= <- <-]|Hin].
      * simpl. unfold andThen.
        destruct (visit child) as [c| | |] eqn:E; try done.
        by destruct (Hno c).
      * assert (Hr := Hrest ltac:(left; by exists key, child)).
        destruct v as [| | | |l|m]; simpl; try apply Hr.
        -- unfold andThen. destruct (visitItems visit l); done || apply Hr.
        -- unfold andThen. destruct (visit m); done || apply Hr.
    + apply elem_of_cons in Hin as [[= <- <-]|Hin].
      * simpl. unfold andThen.
        destruct (visitItems visit items) as [l| | |] eqn:E; try done.
        by destruct (visitItems_stuck visit items item Hitem Hno l).
      * assert (Hr := Hrest ltac:(right; by exists key, items, item)).
        destruct v as [| | | |l|m]; simpl; try apply Hr.
        -- unfold andThen. destruct (visitItems visit l); done || apply Hr.
        -- unfold andThen. destruct (visit m); done || apply Hr.
Qed.

(** The traversal does not get past an ill-typed node it visits. *)
Lemma findAndReplaceTag_not_nil (fuel : nat) (obj node : object) :
  visits obj node -> illTyped node = true ->
  forall t, findAndReplaceTag images fuel obj <> Ok t.
Proof.
  revert obj node. induction fuel as [|fuel IH]; intros obj node Hv Hill t;
    [done|].
  rewrite findAndReplaceTag_S. unfold andThen.
  destruct (handleShapes images obj) as [[found o]| | |] eqn:E; try done.
  pose proof (handleShapes_spec images obj o found E) as (_ & _ & Hfound).
  assert (Hfr : framed imageOrValue (VMap obj) (VMap o)).
  { apply (handleShapes_framed imageOrValue images) with (found := found);
      [by right|left; by left|by rewrite E]. }
  destruct Hv as [obj|obj key child node Hinit Hin Hv
                 |obj key items item node Hinit Hin Hitem Hv].
  - by destruct (handleShapes_illTyped obj Hill (found, o)).
  - rewrite Hfound, Hinit. simpl.
    apply framed_map_inv in Hfr as (m0 & [= <-] & Hm).
    destruct (framed_child imageOrValue obj o key child Hm Hin)
      as (child' & Hin' & Hc).
    destruct (visits_framed child node Hv Hill child' Hc)
      as (node' & Hv' & Hill').
    apply visitChildren_stuck. left. exists key, child'.
    split; [done|]. by apply (IH child' node').
  - rewrite Hfound, Hinit. simpl.
    apply framed_map_inv in Hfr as (m0 & [= <-] & Hm).
    destruct (framed_item imageOrValue obj o key items item Hm Hin Hitem)
      as (items' & item' & Hin' & Hitem' & Hc).
    destruct (visits_framed item node Hv Hill item' Hc)
      as (node' & Hv' & Hill').
    apply visitChildren_stuck. right. exists key, items', item'.
    split; [done|]. split; [done|]. by apply (IH item' node').
Qed.

End Assertions.

(** ** Documents without references *)

Lemma mentionsRef_mget (m : object) (k : string) (v : value) :
  mentionsRef (VMap m) = false -> mget k m = Some v ->
  mentionsRef v = false.
Proof.
  induction m as [|[k' v'] m IH]; simpl; [done|].
  intros [Hv Hm]%orb_false_elim.
  destruct (String.eqb k k'); [by intros [= <-]|by apply IH].
Qed.

Lemma mentionsRef_mset (m : object) (k : string) (v : value) :
  mentionsRef v = false -> mentionsRef (VMap m) = false ->
  mentionsRef (VMap (mset k v m)) = false.
Proof.
  intros Hv. induction m as [|[k' v'] m IH]; simpl.
  - intros _. by rewrite Hv.
  - intros [Hv' Hm]%orb_false_elim.
    destruct (String.eqb k k'); simpl.
    + by rewrite Hv, Hm.
    + rewrite Hv'. by apply IH.
Qed.

Lemma staysFree_andThen {A B : Type} (f : A -> bool) (g : B -> bool)
    (x : outcome A) (wrap : A -> B) (k : A -> outcome B) :
  staysFree f x -> (forall a, f a = false -> staysFree g (k a)) ->
  staysFree g (andThen x wrap k).
Proof. destruct x; simpl; try done. intros Hx Hk. by apply Hk. Qed.

Lemma staysFree_omap {A B : Type} (f : A -> bool) (g : B -> bool)
    (x : outcome A) (h : A -> B) :
  staysFree f x -> (forall a, f a = false -> g (h a) = false) ->
  staysFree g (omap h x).
Proof. intros Hx Hh. apply (staysFree_andThen f); [done|]. apply Hh. Qed.

Section Free.

Variable images : gmap string string.

Hypothesis plain : plainImages images.

Lemma images_at_plain (k : string) : HasPrefix (images_at images k) "//" = false.
Proof.
  unfold images_at. destruct (images !! k) as [v|] eqn:E; [by eapply plain|].
  done.
Qed.

Lemma resolveImageName_plain (imagename newname : string) :
  resolveImageName images imagename = (newname, true) ->
  HasPrefix newname "//" = false.
Proof.
  intros H. apply resolveImageName_cases in H as [H|(_ & key & H & _)];
    by eapply plain.
Qed.

Lemma rewriteEnvValue_free (kv : object) (s : string) :
  mentionsRef (VMap kv) = false ->
  mentionsRef (VMap (rewriteEnvValue images kv s)) = false.
Proof.
  intros H. unfold rewriteEnvValue.
  destruct (HasPrefix s "//"), (HasPrefix s ":");
    repeat apply mentionsRef_mset; done || apply images_at_plain.
Qed.

Lemma updateEnvEntries_free (env : list value) :
  mentionsRef (VSeq env) = false ->
  mentionsRef (VSeq (updateEnvEntries images env)) = false.
Proof.
  induction env as [|e env IH]; [done|].
  intros H. pose proof H as [He Henv]%orb_false_elim.
  cbn [updateEnvEntries].
  destruct e as [| | | | |kv]; try done.
  destruct (mget "name" kv) as [[| | |name| |]|]; try done.
  destruct (Contains name "IMAGE_URL").
  - destruct (mget "value" kv) as [[| | |value| |]|]; try done.
    cbn [mentionsRef existsb]. apply orb_false_intro; [|by apply IH].
    by apply rewriteEnvValue_free.
  - cbn [mentionsRef existsb]. apply orb_false_intro; [done|by apply IH].
Qed.

Lemma updateContainerEnv_free (container : object) :
  mentionsRef (VMap container) = false ->
  mentionsRef (VMap (updateContainerEnv images container)) = false.
Proof.
  intros H. unfold updateContainerEnv.
  destruct (mget "env" container) as [[| | | |env|]|] eqn:E; try done.
  apply mentionsRef_mset; [|done].
  apply updateEnvEntries_free. by eapply mentionsRef_mget.
Qed.

Lemma updateContainerList_free (cs : list value) :
  mentionsRef (VSeq cs) = false ->
  staysFree (fun l => mentionsRef (VSeq l)) (updateContainerList images cs).
Proof.
  induction cs as [|c cs IH]; [done|].
  intros [Hc Hcs]%orb_false_elim. cbn [updateContainerList].
  destruct c as [| | | | |c]; try done.
  pose proof (updateContainerEnv_free c Hc) as Henv.
  assert (Hgo : forall c0 : object, mentionsRef (VMap c0) = false ->
            staysFree (fun l => mentionsRef (VSeq l))
              (omap (cons (VMap c0)) (updateContainerList images cs))).
  { intros c0 Hc0.
    apply (staysFree_omap (fun l => mentionsRef (VSeq l))); [by apply IH|].
    intros l Hl. cbn [mentionsRef existsb]. by apply orb_false_intro. }
  destruct (mget "image" (updateContainerEnv images c))
    as [[| | |n| |]|] eqn:Ei; try by apply Hgo.
  destruct (resolveImageName images n) as [newname [|]] eqn:Er.
  - apply Hgo, mentionsRef_mset; [|done].
    by apply (resolveImageName_plain n).
  - pose proof (mentionsRef_mget _ _ _ Henv Ei) as Hn. simpl in Hn.
    rewrite Hn. by apply Hgo.
Qed.

Lemma updateContainers_free (obj : object) (path : string) :
  mentionsRef (VMap obj) = false ->
  staysFree (fun o => mentionsRef (VMap o)) (updateContainers images obj path).
Proof.
  intros H. unfold updateContainers.
  destruct (mget path obj) as [[| | | |cs|]|] eqn:E; try done.
  apply (staysFree_omap (fun l => mentionsRef (VSeq l))).
  - apply updateContainerList_free. by eapply mentionsRef_mget.
  - intros l Hl. by apply mentionsRef_mset.
Qed.

Lemma updateContainer_free (obj : object) (path : string) :
  mentionsRef (VMap obj) = false ->
  staysFree (fun o => mentionsRef (VMap o)) (updateContainer images obj path).
Proof.
  intros H. unfold updateContainer.
  destruct (mget path obj) as [[| | | | |c]|] eqn:E; try done.
  pose proof (updateContainerEnv_free c (mentionsRef_mget _ _ _ H E))
    as Henv.
  assert (Ho : mentionsRef
                 (VMap (mset path (VMap (updateContainerEnv images c)) obj))
               = false) by (by apply mentionsRef_mset).
  destruct (mget "image" (updateContainerEnv images c))
    as [[| | |n| |]|] eqn:Ei; try done.
  pose proof (mentionsRef_mget _ _ _ Henv Ei) as Hn. simpl in Hn.
  rewrite Hn.
  destruct (resolveImageName images n) as [newname [|]] eqn:Er; [|done].
  simpl. apply mentionsRef_mset; [|done].
  apply mentionsRef_mset; [|done]. by apply (resolveImageName_plain n).
Qed.

Lemma forPaths_free (update : object -> string -> outcome object)
    (paths : list string) (found : bool) (obj : object) :
  (forall o p, mentionsRef (VMap o) = false ->
     staysFree (fun o => mentionsRef (VMap o)) (update o p)) ->
  mentionsRef (VMap obj) = false ->
  staysFree (fun r : bool * object => mentionsRef (VMap r.2))
    (forPaths update paths found obj).
Proof.
  intros Hu. revert found obj.
  induction paths as [|p paths IH]; intros found obj H; [done|].
  cbn [forPaths]. destruct (has p obj); [|by apply IH].
  apply (staysFree_andThen (fun o => mentionsRef (VMap o))); [by apply Hu|].
  intros o Ho. by apply IH.
Qed.

Lemma handleShapes_free (obj : object) :
  mentionsRef (VMap obj) = false ->
  staysFree (fun r : bool * object => mentionsRef (VMap r.2))
    (handleShapes images obj).
Proof.
  intros H. unfold handleShapes.
  apply (staysFree_andThen (fun r : bool * object => mentionsRef (VMap r.2))).
  - apply forPaths_free; [apply updateContainer_free|done].
  - intros [found o] Ho. apply forPaths_free; [apply updateContainers_free|done].
Qed.

Lemma visitItems_free (visit : object -> outcome object)
    (items : list value) :
  (forall o, mentionsRef (VMap o) = false ->
     staysFree (fun o => mentionsRef (VMap o)) (visit o)) ->
  mentionsRef (VSeq items) = false ->
  staysFree (fun l => mentionsRef (VSeq l)) (visitItems visit items).
Proof.
  intros Hv. induction items as [|x items IH]; [done|].
  intros [Hx Hitems]%orb_false_elim.
  assert (Hrest : forall y : value, mentionsRef y = false ->
            staysFree (fun l => mentionsRef (VSeq l))
              (omap (cons y) (visitItems visit items))).
  { intros y Hy.
    apply (staysFree_omap (fun l => mentionsRef (VSeq l))); [by apply IH|].
    intros l Hl. cbn [mentionsRef existsb]. by apply orb_false_intro. }
  destruct x as [| | | | |m]; cbn [visitItems]; try by apply Hrest.
  apply (staysFree_andThen (fun o => mentionsRef (VMap o))); [by apply Hv|].
  intros t Ht. by apply Hrest.
Qed.

Lemma visitChildren_free (visit : object -> outcome object)
    (obj : object) :
  (forall o, mentionsRef (VMap o) = false ->
     staysFree (fun o => mentionsRef (VMap o)) (visit o)) ->
  mentionsRef (VMap obj) = false ->
  staysFree (fun o => mentionsRef (VMap o)) (visitChildren visit obj).
Proof.
  intros Hv. induction obj as [|[k v] obj IH]; [done|].
  intros [Hx Hobj]%orb_false_elim. simpl in Hx.
  assert (Hrest : forall y : value, mentionsRef y = false ->
            staysFree (fun o => mentionsRef (VMap o))
              (omap (cons (k, y)) (visitChildren visit obj))).
  { intros y Hy.
    apply (staysFree_omap (fun o => mentionsRef (VMap o))); [by apply IH|].
    intros l Hl. cbn [mentionsRef existsb]. by apply orb_false_intro. }
  destruct v as [| | | |l|m]; cbn [visitChildren]; try by apply Hrest.
  - apply (staysFree_andThen (fun l => mentionsRef (VSeq l)));
      [by apply visitItems_free|].
    intros t Ht. by apply Hrest.
  - apply (staysFree_andThen (fun o => mentionsRef (VMap o))); [by apply Hv|].
    intros t Ht. by apply Hrest.
Qed.

(** On a document without references, and with an image map of plain
    names, the transformer returns no error. *)
Lemma findAndReplaceTag_free (fuel : nat) (obj : object) :
  mentionsRef (VMap obj) = false ->
  staysFree (fun o => mentionsRef (VMap o))
    (findAndReplaceTag images fuel obj).
Proof.
  revert obj. induction fuel as [|fuel IH]; intros obj H; [done|].
  rewrite findAndReplaceTag_S.
  apply (staysFree_andThen (fun r : bool * object => mentionsRef (VMap r.2)));
    [by apply handleShapes_free|].
  intros [found o] Ho. destruct found; simpl; [done|].
  by apply visitChildren_free.
Qed.

End Free.

(** C9, amended.  Take a document in which the traversal visits a node
    (the root, and from a visited node without an [initContainers] field
    every child mapping and every mapping among the elements of a child
    sequence) where a [containers] or [initContainers] field that is
    there holds anything but a sequence of mappings, or a [container] or
    [spec] field that is there holds anything but a mapping.  On such a
    document the transformer does not skip the node and does not return
    nil: it panics, or it returns the unresolved-image error for a
    reference with the build-target prefix.  When no string of the
    document and no value of the image map begins with that prefix, it
    panics. *)
Theorem C9_ill_typed_shape_panics (images : gmap string string)
    (obj node : object) :
  visits obj node ->
  illTyped node = true ->
  (transform images obj = Panic \/
   exists e t imagename,
     transform images obj = Err e t /\
     HasPrefix imagename "//" = true /\ unresolvedMessage imagename e) /\
  (plainImages images -> mentionsRef (VMap obj) = false ->
   transform images obj = Panic).
Proof.
  intros Hv Hill.
  pose proof (findAndReplaceTag_not_nil images (S (height (VMap obj)))
                obj node Hv Hill) as Hnil.
  pose proof (transform_total images obj) as Htotal.
  fold (transform images obj) in Hnil. split.
  - destruct (transform images obj) as [t|e t| |] eqn:E.
    + by destruct (Hnil t).
    + right.
      destruct (findAndReplaceTag_names_reference images
                  (S (height (VMap obj))) obj e t E)
        as (imagename & Hp & Hm).
      by exists e, t, imagename.
    + by left.
    + done.
  - intros Hplain Hfree.
    pose proof (findAndReplaceTag_free images Hplain
                  (S (height (VMap obj))) obj Hfree) as Hstays.
    fold (transform images obj) in Hstays.
    destruct (transform images obj) as [t|e t| |]; try done.
    by destruct (Hnil t).
Qed.

Lemma C9_ill_typed_shape_panics_witness :
  (transform appImages deepBad = Panic \/
   exists e t imagename,
     transform appImages deepBad = Err e t /\
     HasPrefix imagename "//" = true /\ unresolvedMessage imagename e) /\
  transform appImages deepBad = Panic.
Proof.
  destruct (C9_ill_typed_shape_panics appImages deepBad
              [("containers", VStr "none")]) as [Hout Hpanic].
  - eapply (visits_child deepBad "spec"); [reflexivity| |].
    { do 3 (apply elem_of_cons; right). apply elem_of_cons. by left. }
    eapply (visits_child _ "template"); [reflexivity| |].
    { apply elem_of_cons. right. apply elem_of_cons. by left. }
    eapply (visits_child _ "spec"); [reflexivity| |].
    { apply elem_of_cons. by left. }
    apply visits_here.
  - reflexivity.
  - split; [exact Hout|]. apply Hpanic; [|reflexivity].
    intros k v Hk. unfold appImages in Hk.
    apply lookup_singleton_Some in Hk as [_ <-]. reflexivity.
Defined.

End ResolverShapes.

(** * Further properties of the hosting client *)

Module GithubAppMore.

Import Go GithubApp GithubAppSpec ProcFacts Script.

(** ** Scripts *)

Lemma inOrder_ret {A : Type} (ok : A -> Prop) (a : A) :
  inOrder ok [] (ret a).
Proof. intros tr. exists []. by rewrite app_nil_r. Qed.

Lemma inOrder_emit (e : event) : inOrder any [e] (emit e).
Proof. intros tr. by exists [e]. Qed.

Lemma stops_fatal {A : Type} (ok : A -> Prop) (msg : string) :
  stops ok (@fatal A msg).
Proof. intros tr. done. Qed.

Lemma stops_inOrder {A : Type} (ok : A -> Prop) (full : list event)
    (m : Proc A) :
  stops ok m -> inOrder ok full m.
Proof.
  intros Hm tr. destruct (Hm tr) as [Htr Hno]. exists [].
  rewrite app_nil_r. split; [done|]. split; [apply prefix_nil|].
  intros a Ha Hok. by destruct (Hno a Ha).
Qed.

Lemma inOrder_bind {A B : Type} (ok1 : A -> Prop) (ok2 : B -> Prop)
    (f1 f2 : list event) (m : Proc A) (k : A -> Proc B) :
  inOrder ok1 f1 m ->
  (forall a, ok1 a /\ inOrder ok2 f2 (k a) \/ stops ok2 (k a)) ->
  inOrder ok2 (f1 ++ f2) (m ≫= k).
Proof.
  intros Hm Hk tr. unfold mbind, proc_bind, bind.
  destruct (Hm tr) as (evs & Hevs & Hpre & Hfull).
  destruct (m tr) as [[a|h] tr1]; simpl in *; subst tr1.
  - destruct (Hk a) as [[Hok Hka]|Hka].
    + destruct (Hka (tr ++ evs)%list) as (evs' & Hevs' & Hpre' & Hfull').
      rewrite (Hfull a eq_refl Hok) in *.
      exists (f1 ++ evs')%list. rewrite Hevs', app_assoc.
      split; [done|]. split; [by apply prefix_app|].
      intros b Hb Hokb. by rewrite (Hfull' b Hb Hokb).
    + destruct (Hka (tr ++ evs)%list) as [Htr Hno].
      exists evs. rewrite Htr. split; [done|].
      split; [by apply prefix_app_r|].
      intros b Hb Hokb. by destruct (Hno b Hb).
  - exists evs. split; [done|]. split; [by apply prefix_app_r|]. done.
Qed.

Lemma inOrder_then {A B : Type} (ok : B -> Prop) (f1 f2 : list event)
    (m : Proc A) (k : A -> Proc B) :
  inOrder any f1 m -> (forall a, inOrder ok f2 (k a)) ->
  inOrder ok (f1 ++ f2) (m ≫= k).
Proof.
  intros Hm Hk. apply (inOrder_bind any); [done|].
  intros a. left. by split.
Qed.

Lemma inOrder_nil {A : Type} (ok : A -> Prop) (full : list event)
    (m : Proc A) :
  inOrder ok [] m -> inOrder ok ([] ++ full) m -> inOrder ok full m.
Proof. done. Qed.

Section Files.

Variable gh : Provider.
Variable gitopsPath : string.

(** [filepath.Join] on paths that are not clean, and on empty ones. *)
Lemma Join_cleans :
  Filepath.Join "/tmp/gitops123" "./cloud//prod/app.yaml"
    = "/tmp/gitops123/cloud/prod/app.yaml" /\
  Filepath.Join "/tmp/gitops123" "x/../a.yaml" = "/tmp/gitops123/a.yaml" /\
  Filepath.Join "/tmp/gitops123" "../a.yaml" = "/tmp/a.yaml" /\
  Filepath.Join "/tmp/gitops123" EmptyString = "/tmp/gitops123" /\
  Filepath.Join "gitops" "../../a.yaml" = "../a.yaml" /\
  Filepath.Join "/" "../a.yaml" = "/a.yaml" /\
  Filepath.Join EmptyString "a.yaml" = "a.yaml" /\
  Filepath.Join EmptyString "./" = "." /\
  Filepath.Join EmptyString EmptyString = EmptyString.
Proof. vm_compute. by repeat split. Qed.

Lemma collectFiles_missing (inputPaths : list string) (p err : string) :
  p ∈ inputPaths ->
  Stat gh (FullPath (entryOf gitopsPath p)) = inr err ->
  exists err', collectFiles gh gitopsPath inputPaths = inr err'.
Proof.
  intros Hin Hs. induction inputPaths as [|q inputPaths IH];
    [by apply elem_of_nil in Hin|].
  simpl.
  destruct (Stat gh (Filepath.Join gitopsPath
                       (Strings.TrimSuffixByte q "/")))
    as [isDir|e] eqn:Eq; [|by eexists].
  apply elem_of_cons in Hin as [->|Hin].
  - unfold entryOf in Hs. simpl in Hs. congruence.
  - destruct (IH Hin) as [err' ->].
    destruct isDir; [destruct (Walk gh _ _)|]; by eexists.
Qed.

(** X11.  [getFilesToCommit] returns entries only if every input path can be
    accessed, and then it returns at least one entry: an input path that
    does not exist, wherever it stands in the list, and an input without
    any file in it are errors. *)
Theorem getFilesToCommit_needs_every_path (inputPaths : list string)
    (entries : list FileEntry) :
  getFilesToCommit gh gitopsPath inputPaths = inl entries ->
  entries <> [] /\
  forall p, p ∈ inputPaths ->
    exists isDir, Stat gh (FullPath (entryOf gitopsPath p)) = inl isDir.
Proof.
  unfold getFilesToCommit. intros H. split.
  - destruct (collectFiles gh gitopsPath inputPaths) as [[|e l]|];
      try done. by injection H as <-.
  - intros p Hp.
    destruct (Stat gh (FullPath (entryOf gitopsPath p))) as [isDir|e]
      eqn:Es; [by eexists|].
    destruct (collectFiles_missing inputPaths p e Hp Es) as [err Herr].
    rewrite Herr in H. done.
Qed.

(** X12.  For input paths that are all regular files, [getFilesToCommit]
    returns one entry for each, in the order of the input: the path as
    given but for one trailing slash, and, to read the file from, what
    [filepath.Join] makes of [gitopsPath] and that path (cleaned, an
    empty [gitopsPath] ignored). *)
Theorem getFilesToCommit_regular_files (inputPaths : list string) :
  inputPaths <> [] ->
  (forall p, p ∈ inputPaths ->
     Stat gh (FullPath (entryOf gitopsPath p)) = inl false) ->
  getFilesToCommit gh gitopsPath inputPaths
  = inl (map (entryOf gitopsPath) inputPaths).
Proof.
  intros Hne Hall.
  assert (Hc : collectFiles gh gitopsPath inputPaths
               = inl (map (entryOf gitopsPath) inputPaths)).
  { clear Hne. induction inputPaths as [|q inputPaths IH]; [done|].
    simpl.
    pose proof (Hall q ltac:(apply elem_of_cons; by left)) as Hq.
    unfold entryOf in Hq. simpl in Hq. rewrite Hq.
    rewrite IH; [done|].
    intros p Hp. apply Hall, elem_of_cons. by right. }
  unfold getFilesToCommit. rewrite Hc.
  by destruct inputPaths.
Qed.

End Files.

Lemma getFilesToCommit_needs_every_path_witness :
  [entryOf "/tmp/gitops123" "cloud/prod/"] <> [] /\
  forall p, p ∈ ["cloud/prod/"] ->
    exists isDir,
      Stat (files "none" "none") (FullPath (entryOf "/tmp/gitops123" p))
      = inl isDir.
Proof.
  apply (getFilesToCommit_needs_every_path (files "none" "none")
           "/tmp/gitops123" ["cloud/prod/"]).
  vm_compute. reflexivity.
Defined.

Lemma getFilesToCommit_regular_files_witness :
  getFilesToCommit (files "none" "none") "/tmp/gitops123"
    ["cloud/prod/app.yaml"; "./cloud//dev/"; "x/../a.yaml"]
  = inl [{| RelativePath := "cloud/prod/app.yaml";
            FullPath := "/tmp/gitops123/cloud/prod/app.yaml" |};
         {| RelativePath := "./cloud//dev";
            FullPath := "/tmp/gitops123/cloud/dev" |};
         {| RelativePath := "x/../a.yaml";
            FullPath := "/tmp/gitops123/a.yaml" |}].
Proof.
  change (getFilesToCommit (files "none" "none") "/tmp/gitops123"
            ["cloud/prod/app.yaml"; "./cloud//dev/"; "x/../a.yaml"]
          = inl (map (entryOf "/tmp/gitops123")
                   ["cloud/prod/app.yaml"; "./cloud//dev/"; "x/../a.yaml"])).
  apply (getFilesToCommit_regular_files (files "none" "none")
           "/tmp/gitops123").
  - discriminate.
  - intros p Hp.
    repeat (apply elem_of_cons in Hp as [->|Hp]; [vm_compute; reflexivity|]).
    by apply elem_of_nil in Hp.
Defined.

(** ** The steps of a commit *)

Section Commit.

Variable flags : Flags.
Variable gh : Provider.

Lemma readFiles_first_unreadable (pre post : list FileEntry)
    (f : FileEntry) (err : string) (tr : list event) :
  (forall g, g ∈ pre -> ReadFileContent gh (FullPath g) = None) ->
  ReadFileContent gh (FullPath f) = Some err ->
  readFiles gh (pre ++ f :: post) tr
  = (inl (Some ("failed to read file " ++ FullPath f ++ ": " ++ err)),
     (tr ++ map (fun g => ReadFile (FullPath g)) (pre ++ [f]))%list).
Proof.
  intros Hpre Hf. revert tr.
  induction pre as [|g pre IH]; intros tr; simpl.
  - unfold mbind, proc_bind, bind, emit. simpl. by rewrite Hf.
  - unfold mbind, proc_bind, bind, emit. simpl.
    rewrite (Hpre g ltac:(apply elem_of_cons; by left)).
    rewrite IH.
    + by rewrite <- app_assoc.
    + intros g' Hg'. apply Hpre, elem_of_cons. by right.
Qed.

(** X13.  [getTree] reads the files in their order and gives up at the first
    one that cannot be read: it returns the error that names that file
    and carries the error of the read, the files after it are not read,
    and no tree is requested from the provider. *)
Theorem getTree_stops_at_unreadable_file (pre post : list FileEntry)
    (f : FileEntry) (err : string) (tr : list event) :
  (forall g, g ∈ pre -> ReadFileContent gh (FullPath g) = None) ->
  ReadFileContent gh (FullPath f) = Some err ->
  getTree gh (pre ++ f :: post) tr
  = (inl (Some ("failed to read file " ++ FullPath f ++ ": " ++ err)),
     (tr ++ map (fun g => ReadFile (FullPath g)) (pre ++ [f]))%list).
Proof.
  intros Hpre Hf. unfold getTree, mbind, proc_bind, bind.
  by rewrite (readFiles_first_unreadable pre post f err tr Hpre Hf).
Qed.

Lemma readFiles_inOrder (files : list FileEntry) :
  inOrder isNil (map (fun g => ReadFile (FullPath g)) files)
    (readFiles gh files).
Proof.
  induction files as [|f files IH]; simpl.
  - apply inOrder_ret.
  - apply (inOrder_then isNil [ReadFile (FullPath f)]);
      [apply inOrder_emit|].
    intros _. destruct (ReadFileContent gh (FullPath f)); [|done].
    apply stops_inOrder. intros tr. split; [done|].
    intros a [= <-]. done.
Qed.

Lemma getTree_inOrder (files : list FileEntry) :
  inOrder isNil
    (map (fun g => ReadFile (FullPath g)) files
     ++ [ApiCreateTree (map RelativePath files)])%list
    (getTree gh files).
Proof.
  unfold getTree. apply (inOrder_bind isNil); [apply readFiles_inOrder|].
  intros [e|].
  - right. intros tr. split; [done|]. intros a [= <-]. done.
  - left. split; [done|].
    rewrite <- (app_nil_r [ApiCreateTree _]).
    apply (inOrder_then isNil); [apply inOrder_emit|].
    intros _. apply inOrder_ret.
Qed.

Lemma getRef_inOrder (baseBranch commitBranch : string) :
  inOrder any
    [ApiGetRef ("refs/heads/" ++ baseBranch);
     ApiCreateRef ("refs/heads/" ++ commitBranch)]
    (getRef gh baseBranch commitBranch).
Proof.
  unfold getRef.
  apply (inOrder_then any [ApiGetRef _] [ApiCreateRef _]);
    [apply inOrder_emit|].
  intros _. destruct (GetRef gh _);
    [apply stops_inOrder, stops_fatal|].
  rewrite <- (app_nil_r [ApiCreateRef _]).
  apply (inOrder_then any); [apply inOrder_emit|].
  intros _. destruct (CreateRef gh _);
    [apply stops_inOrder, stops_fatal|apply inOrder_ret].
Qed.

Lemma pushCommit_inOrder (commitMessage : string) :
  inOrder any [ApiGetCommit; ApiCreateCommit commitMessage; ApiUpdateRef]
    (pushCommit gh commitMessage).
Proof.
  unfold pushCommit.
  apply (inOrder_then any [ApiGetCommit] [ApiCreateCommit _; ApiUpdateRef]);
    [apply inOrder_emit|].
  intros _. destruct (GetCommit gh);
    [apply stops_inOrder, stops_fatal|].
  apply (inOrder_then any [ApiCreateCommit _] [ApiUpdateRef]);
    [apply inOrder_emit|].
  intros _. destruct (CreateGitCommit gh _);
    [apply stops_inOrder, stops_fatal|].
  rewrite <- (app_nil_r [ApiUpdateRef]).
  apply (inOrder_then any); [apply inOrder_emit|].
  intros _. destruct (UpdateRef gh);
    [apply stops_inOrder, stops_fatal|apply inOrder_ret].
Qed.

Lemma createPR_inOrder (baseBranch commitBranch subject description : string) :
  inOrder any
    [ApiCreatePullRequest commitBranch baseBranch subject description]
    (createPR gh baseBranch commitBranch subject description).
Proof.
  unfold createPR.
  rewrite <- (app_nil_r [ApiCreatePullRequest _ _ _ _]).
  apply (inOrder_then any); [apply inOrder_emit|].
  intros _. destruct (PullRequestsCreate gh _ _ _ _);
    [apply inOrder_ret|apply stops_inOrder, stops_fatal].
Qed.

Lemma createGithubClient_inOrder :
  inOrder any [] (createGithubClient flags gh).
Proof.
  unfold createGithubClient.
  repeat (case_match; try apply stops_inOrder, stops_fatal).
  apply inOrder_ret.
Qed.

(** X14.  The calls of [CreateCommit] come in one fixed order: the base ref is
    fetched, the branch ref created, every file read, the tree, the
    parent commit, the commit, the ref update and at last the pull
    request.  A run that exits early has performed a prefix of this
    sequence, a run that returns all of it: no pull request is opened
    for a commit that was not pushed, and nothing is pushed before every
    file was read. *)
Theorem CreateCommit_calls_in_order
    (baseBranch commitBranch gitopsPath : string) (files : list string)
    (prTitle prDescription : string) (entries : list FileEntry) :
  getFilesToCommit gh gitopsPath files = inl entries ->
  inOrder any
    (commitCalls baseBranch commitBranch entries prTitle prDescription)
    (CreateCommit flags gh baseBranch commitBranch gitopsPath files
       prTitle prDescription).
Proof.
  intros Hfiles. unfold CreateCommit, commitCalls. rewrite Hfiles.
  apply (inOrder_then any [] _ _ _ createGithubClient_inOrder).
  intros _.
  apply (inOrder_then any _ _ _ _ (getRef_inOrder baseBranch commitBranch)).
  intros _.
  replace (map (fun f => ReadFile (FullPath f)) entries
           ++ [ApiCreateTree (map RelativePath entries); ApiGetCommit;
               ApiCreateCommit prTitle; ApiUpdateRef;
               ApiCreatePullRequest commitBranch baseBranch prTitle
                 prDescription])%list
    with ((map (fun f => ReadFile (FullPath f)) entries
           ++ [ApiCreateTree (map RelativePath entries)])
          ++ ([ApiGetCommit; ApiCreateCommit prTitle; ApiUpdateRef]
              ++ [ApiCreatePullRequest commitBranch baseBranch prTitle
                    prDescription]))%list
    by (by rewrite <- app_assoc).
  apply (inOrder_bind isNil any _ _ _ _ (getTree_inOrder entries)).
  intros [e|].
  - right. apply stops_fatal.
  - left. split; [done|].
    apply (inOrder_then any _ _ _ _ (pushCommit_inOrder prTitle)).
    intros _. apply createPR_inOrder.
Qed.

(** X15.  [CreateCommit] checks its flags and its files before it talks to the
    provider: with a flag missing, or an input path that yields no file
    list, the process exits and not one call has been made. *)
Theorem CreateCommit_checks_before_calling
    (baseBranch commitBranch gitopsPath : string) (files : list string)
    (prTitle prDescription : string) (tr : list event) :
  repoOwner flags = EmptyString \/ repo flags = EmptyString \/
  gitHubAppId flags = 0%Z \/
  (exists err, getFilesToCommit gh gitopsPath files = inr err) ->
  exists msg,
    CreateCommit flags gh baseBranch commitBranch gitopsPath files
      prTitle prDescription tr = (inr (Fatal msg), tr).
Proof.
  intros H. unfold CreateCommit, createGithubClient, mbind, proc_bind,
    bind, fatal, ret.
  destruct (String.eqb (repoOwner flags) EmptyString) eqn:E1;
    [by eexists|].
  destruct (String.eqb (repo flags) EmptyString) eqn:E2; [by eexists|].
  destruct (Z.eqb (gitHubAppId flags) 0) eqn:E3; [by eexists|].
  destruct (NewKeyFromFile gh _ _ _); [by eexists|].
  destruct H as [H|[H|[H|[err H]]]].
  - rewrite H in E1. by rewrite String.eqb_refl in E1.
  - rewrite H in E2. by rewrite String.eqb_refl in E2.
  - rewrite H in E3. done.
  - rewrite H. by eexists.
Qed.

(** X16.  When the standalone [CreatePR] returns nil, a pull request need not
    exist: either the client for the enterprise host could not be made,
    and then nothing was requested at all; or the one request was made
    and the provider created the pull request or refused it with status
    422. *)
Theorem CreatePR_nil_cases (from to title body : string)
    (tr tr' : list event) :
  CreatePR flags gh from to title body tr = (inl None, tr') ->
  (githubEnterpriseHost flags <> EmptyString /\
   (exists err,
      NewEnterpriseClient gh
        ("https://" ++ githubEnterpriseHost flags ++ "/api/v3/")
        ("https://" ++ githubEnterpriseHost flags ++ "/api/uploads/")
      = Some err) /\
   tr' = tr) \/
  (tr' = (tr ++ [ApiCreatePullRequest from to title body])%list /\
   ((exists url, PullRequestsCreate gh from to title body = Created url) \/
    (exists err resp,
       PullRequestsCreate gh from to title body = Rejected err (Some resp) /\
       StatusCode resp = StatusUnprocessableEntity))).
Proof.
  unfold CreatePR.
  destruct (String.eqb (repoOwner flags) EmptyString); [done|].
  destruct (String.eqb (repo flags) EmptyString); [done|].
  destruct (Z.eqb (gitHubAppId flags) 0); [done|].
  destruct (NewKeyFromFile gh _ _ _); [done|].
  assert (Hcreate :
    (emit (ApiCreatePullRequest from to title body) ;;
     match PullRequestsCreate gh from to title body with
     | Created url => ret None
     | Rejected err None =>
         panic "invalid memory address or nil pointer dereference"
     | Rejected err (Some resp) =>
         if Z.eqb (StatusCode resp) StatusUnprocessableEntity
         then ret None else ret (Some err)
     end) tr = (inl None, tr') ->
    tr' = (tr ++ [ApiCreatePullRequest from to title body])%list /\
    ((exists url, PullRequestsCreate gh from to title body = Created url) \/
     (exists err resp,
        PullRequestsCreate gh from to title body = Rejected err (Some resp) /\
        StatusCode resp = StatusUnprocessableEntity))).
  { unfold mbind, proc_bind, bind, emit, ret, panic.
    destruct (PullRequestsCreate gh from to title body)
      as [url|err [resp|]]; [| |done].
    - intros [= <-]. split; [done|]. left. by eexists.
    - destruct (Z.eqb (StatusCode resp) StatusUnprocessableEntity) eqn:Es;
        [|done].
      intros [= <-]. split; [done|]. right. exists err, resp.
      split; [done|]. by apply Z.eqb_eq. }
  destruct (String.eqb (githubEnterpriseHost flags) EmptyString) eqn:Eh;
    simpl.
  - intros H. right. by apply Hcreate.
  - destruct (NewEnterpriseClient gh _ _) as [err|] eqn:Ee.
    + intros [= <-]. left. apply String.eqb_neq in Eh.
      split; [done|]. split; [by eexists|done].
    + intros H. right. by apply Hcreate.
Qed.

End Commit.

Lemma getTree_stops_at_unreadable_file_witness :
  getTree (files "none" "/w/b.yaml")
    ([entryOf "/w" "a.yaml"] ++ entryOf "/w" "b.yaml" :: [entryOf "/w" "c.yaml"]) []
  = (inl (Some ("failed to read file " ++ FullPath (entryOf "/w" "b.yaml")
                ++ ": " ++ "permission denied")),
     ([] ++ map (fun g => ReadFile (FullPath g))
              ([entryOf "/w" "a.yaml"] ++ [entryOf "/w" "b.yaml"]))%list).
Proof.
  apply (getTree_stops_at_unreadable_file (files "none" "/w/b.yaml")
           [entryOf "/w" "a.yaml"] [entryOf "/w" "c.yaml"]
           (entryOf "/w" "b.yaml") "permission denied" []).
  - intros g Hg. apply list_elem_of_singleton in Hg. subst g.
    vm_compute. reflexivity.
  - vm_compute. reflexivity.
Defined.

Lemma CreateCommit_calls_in_order_witness :
  inOrder any
    (commitCalls "main" "deploy/prod" [entryOf "/w" "a.yaml"]
       "Deploy" "Automated")
    (CreateCommit appFlags (files "none" "none") "main" "deploy/prod" "/w"
       ["a.yaml"] "Deploy" "Automated").
Proof.
  apply (CreateCommit_calls_in_order appFlags (files "none" "none")
           "main" "deploy/prod" "/w" ["a.yaml"] "Deploy" "Automated"
           [entryOf "/w" "a.yaml"]).
  vm_compute. reflexivity.
Defined.

Lemma CreateCommit_checks_before_calling_witness :
  exists msg,
    CreateCommit appFlags (files "/w/gone.yaml" "none") "main" "deploy/prod"
      "/w" ["a.yaml"; "gone.yaml"] "Deploy" "Automated" []
    = (inr (Fatal msg), []).
Proof.
  apply (CreateCommit_checks_before_calling appFlags
           (files "/w/gone.yaml" "none")).
  right. right. right. eexists. vm_compute. reflexivity.
Defined.

Lemma CreatePR_nil_cases_witness :
  (githubEnterpriseHost appFlags <> EmptyString /\
   (exists err,
      NewEnterpriseClient (provider alreadyExists)
        ("https://" ++ githubEnterpriseHost appFlags ++ "/api/v3/")
        ("https://" ++ githubEnterpriseHost appFlags ++ "/api/uploads/")
      = Some err) /\
   [ApiCreatePullRequest "deploy/prod" "master" "Deploy" "Automated"] = []) \/
  ([ApiCreatePullRequest "deploy/prod" "master" "Deploy" "Automated"]
   = ([] ++ [ApiCreatePullRequest "deploy/prod" "master" "Deploy"
               "Automated"])%list /\
   ((exists url,
       PullRequestsCreate (provider alreadyExists) "deploy/prod" "master"
         "Deploy" "Automated" = Created url) \/
    (exists err resp,
       PullRequestsCreate (provider alreadyExists) "deploy/prod" "master"
         "Deploy" "Automated" = Rejected err (Some resp) /\
       StatusCode resp = StatusUnprocessableEntity))).
Proof.
  apply (CreatePR_nil_cases appFlags (provider alreadyExists)
           "deploy/prod" "master" "Deploy" "Automated" []).
  vm_compute. reflexivity.
Defined.

End GithubAppMore.

(** * Further properties of the command *)

Module PrerMore.

Import Go Strings GithubApp Prer PrerSpec ProcFacts.

(** ** Release trains *)

Lemma prefix_colon (a : ascii) (s : string) :
  String.prefix ":" (String a s) = Ascii.eqb a ":".
Proof.
  destruct (Ascii.eqb a ":") eqn:E.
  - apply Ascii.eqb_eq in E. subst a.
    apply String.prefix_correct. simpl. by destruct s.
  - destruct (String.prefix ":" (String a s)) eqn:Ep; [|done].
    apply String.prefix_correct in Ep. simpl in Ep.
    assert (a = ":"%char) as -> by (destruct s; by injection Ep).
    by rewrite Ascii.eqb_refl in E.
Qed.

Lemma index_cons (a : ascii) (s : string) :
  String.index 0 ":" (String a s)
  = if Ascii.eqb a ":" then Some 0
    else match String.index 0 ":" s with
         | Some n => Some (S n)
         | None => None
         end.
Proof. cbn [String.index]. by rewrite prefix_colon. Qed.

Lemma index_colon (t b : string) :
  noColon t = true ->
  String.index 0 ":" (t ++ ":" ++ b) = Some (String.length t).
Proof.
  induction t as [|a t IH].
  - intros _. change (EmptyString ++ ":" ++ b) with (String ":" b).
    by rewrite index_cons.
  - intros [Ha Ht]%andb_prop.
    change (String a t ++ ":" ++ b) with (String a (t ++ ":" ++ b)).
    rewrite index_cons, (IH Ht).
    by destruct (Ascii.eqb a ":").
Qed.

Lemma append_nil (s : string) : EmptyString ++ s = s.
Proof. reflexivity. Qed.

Lemma append_cons (a : ascii) (t s : string) :
  String a t ++ s = String a (t ++ s).
Proof. reflexivity. Qed.

Lemma substring_append_l (t s : string) :
  String.substring 0 (String.length t) (t ++ s) = t.
Proof.
  induction t as [|a t IH]; [by destruct s|].
  rewrite append_cons. cbn [String.length String.substring].
  by rewrite IH.
Qed.

Lemma substring_whole (s : string) :
  String.substring 0 (String.length s) s = s.
Proof.
  induction s as [|c s IHs]; [done|].
  cbn [String.length String.substring]. by rewrite IHs.
Qed.

Lemma substring_append_r (t s : string) :
  String.substring (String.length t) (String.length s) (t ++ s) = s.
Proof.
  induction t as [|a t IH].
  - rewrite append_nil. apply substring_whole.
  - rewrite append_cons. cbn [String.length String.substring]. apply IH.
Qed.

Lemma length_append (t s : string) :
  String.length (t ++ s) = String.length t + String.length s.
Proof.
  induction t as [|a t IH]; [done|].
  rewrite append_cons. cbn [String.length]. by rewrite IH.
Qed.

Lemma append_assoc (t s u : string) : (t ++ s) ++ u = t ++ s ++ u.
Proof.
  induction t as [|a t IH]; [done|].
  rewrite !append_cons. by rewrite IH.
Qed.

(** [strings.Cut] splits a binding at its first colon. *)
Lemma Cut_binding (t b : string) :
  noColon t = true -> Cut (t ++ ":" ++ b) ":" = (t, b, true).
Proof.
  intros Ht. unfold Cut. rewrite (index_colon t b Ht).
  rewrite substring_append_l. f_equal. f_equal.
  rewrite <- append_assoc.
  rewrite (length_append (t ++ ":") b), (length_append t ":").
  replace (String.length t + String.length ":" + String.length b
           - (String.length t + String.length ":"))
    with (String.length b) by lia.
  rewrite <- (length_append t ":").
  apply substring_append_r.
Qed.

Lemma appendTo_lookup (trains : gmap string (list string))
    (k v t : string) :
  default [] (appendTo trains k v !! t)
  = (default [] (trains !! t) ++ (if decide (t = k) then [v] else []))%list.
Proof.
  unfold appendTo. destruct (decide (t = k)) as [->|Hne].
  - by rewrite lookup_insert_eq.
  - rewrite lookup_insert_ne by done. by rewrite app_nil_r.
Qed.

Lemma appendTo_is_Some (trains : gmap string (list string))
    (k v t : string) :
  is_Some (appendTo trains k v !! t) <-> t = k \/ is_Some (trains !! t).
Proof.
  unfold appendTo. destruct (decide (t = k)) as [->|Hne].
  - rewrite lookup_insert_eq. split; [by left|by eexists].
  - rewrite lookup_insert_ne by done. split; [by right|].
    by intros [?|?].
Qed.

Lemma resolvedTrains_from (pairs : list (string * string))
    (trains : gmap string (list string)) (tr : list event) :
  (forall p, p ∈ pairs -> noColon p.1 = true) ->
  exists m,
    resolvedTrains (map binding pairs) trains tr = (inl m, tr) /\
    forall t,
      default [] (m !! t)
      = (default [] (trains !! t)
         ++ (filter (fun p => p.1 = t) pairs).*2)%list /\
      (is_Some (m !! t) <-> is_Some (trains !! t) \/ t ∈ pairs.*1).
Proof.
  revert trains. induction pairs as [|[t0 b0] pairs IH]; intros trains Hall.
  - exists trains. split; [done|]. intros t. rewrite app_nil_r.
    split; [done|]. split; [by left|]. intros [H|H]; [done|].
    by apply elem_of_nil in H.
  - simpl. unfold binding at 1. simpl.
    rewrite (Cut_binding t0 b0
               (Hall (t0, b0) ltac:(apply elem_of_cons; by left))).
    destruct (IH (appendTo trains t0 b0)) as (m & Hm & Hlook).
    { intros p Hp. apply Hall, elem_of_cons. by right. }
    exists m. split; [done|]. intros t.
    destruct (Hlook t) as [Hd Hs]. split.
    + rewrite Hd, appendTo_lookup, <- app_assoc. f_equal.
      rewrite filter_cons. simpl.
      destruct (decide (t = t0)) as [->|Hne].
      * by rewrite decide_True.
      * by rewrite decide_False by congruence.
    + rewrite Hs, appendTo_is_Some, elem_of_cons. simpl. tauto.
Qed.

(** X17.  The arguments of [-resolved_binary] are grouped by the train before
    their first colon: a train is visited exactly when an argument names
    it, with the binaries given for it in the order of the command line.
    Nothing else happens while they are read. *)
Theorem resolvedTrains_groups_by_train (pairs : list (string * string))
    (tr : list event) :
  (forall p, p ∈ pairs -> noColon p.1 = true) ->
  exists m,
    resolvedTrains (map binding pairs) ∅ tr = (inl m, tr) /\
    forall t,
      default [] (m !! t) = (filter (fun p => p.1 = t) pairs).*2 /\
      (is_Some (m !! t) <-> t ∈ pairs.*1).
Proof.
  intros Hall. destruct (resolvedTrains_from pairs ∅ tr Hall)
    as (m & Hm & Hlook).
  exists m. split; [done|]. intros t. destruct (Hlook t) as [Hd Hs].
  rewrite lookup_empty in Hd, Hs. simpl in Hd. split; [done|].
  rewrite Hs. split; [intros [[? [=]]|?]; done|by right].
Qed.

Lemma resolvedTrains_groups_by_train_witness :
  exists m,
    resolvedTrains
      (map binding [("prod", "bin/app"); ("dev", "bin/dev:v2");
                    ("prod", "bin/web")]) ∅ []
    = (inl m, []) /\
    forall t,
      default [] (m !! t)
      = (filter (fun p => p.1 = t)
           [("prod", "bin/app"); ("dev", "bin/dev:v2");
            ("prod", "bin/web")]).*2 /\
      (is_Some (m !! t)
       <-> t ∈ [("prod", "bin/app"); ("dev", "bin/dev:v2");
                ("prod", "bin/web")].*1).
Proof.
  apply (resolvedTrains_groups_by_train
           [("prod", "bin/app"); ("dev", "bin/dev:v2"); ("prod", "bin/web")]).
  intros p Hp. repeat (apply elem_of_cons in Hp as [->|Hp]; [reflexivity|]).
  by apply elem_of_nil in Hp.
Defined.

Lemma resolvedTrains_malformed (pre post : list string) (rb : string)
    (trains : gmap string (list string)) (tr : list event) :
  (forall x, x ∈ pre -> (Cut x ":").2 = true) ->
  (Cut rb ":").2 = false ->
  resolvedTrains (pre ++ rb :: post) trains tr
  = (inr (Fatal ("resolved_binaries: invalid resolved_binary format: "
                 ++ rb)), tr).
Proof.
  intros Hpre Hrb. revert trains.
  induction pre as [|x pre IH]; intros trains; simpl.
  - destruct (Cut rb ":") as [[a b] []]; done.
  - pose proof (Hpre x ltac:(apply elem_of_cons; by left)) as Hx.
    destruct (Cut x ":") as [[a b] []]; [|done].
    apply IH. intros y Hy. apply Hpre, elem_of_cons. by right.
Qed.

Section Main.

Variable cfg : Config.
Variable w : World.
Variable flags : Flags.
Variable gh : Provider.

(** X18.  An argument of [-resolved_binary] without a colon ends the run before
    anything is done: no query is made, no directory created and no
    repository cloned, whatever the arguments before and after it. *)
Theorem main_rejects_malformed_binding (pre post : list string)
    (rb : string) :
  Workspace cfg = EmptyString ->
  ResolvedBinaries cfg = (pre ++ rb :: post)%list ->
  (forall x, x ∈ pre -> (Cut x ":").2 = true) ->
  (Cut rb ":").2 = false ->
  run (main cfg w flags gh)
  = (inr (Fatal ("resolved_binaries: invalid resolved_binary format: "
                 ++ rb)), []).
Proof.
  intros Hws Hrbs Hpre Hrb. unfold run, main, findTrains.
  rewrite Hws, Hrbs. simpl.
  unfold mbind, proc_bind, bind, ret. simpl.
  replace (Nat.ltb 0 (length (pre ++ rb :: post))) with true.
  - by rewrite (resolvedTrains_malformed pre post rb ∅ [] Hpre Hrb).
  - symmetry. apply Nat.ltb_lt. rewrite length_app. simpl. lia.
Qed.

(** ** Pull requests *)

Lemma getGitServer_token (tr : list event) :
  GitHost cfg = "github" \/ GitHost cfg = "gitlab"
  \/ GitHost cfg = "bitbucket" ->
  getGitServer w flags gh (GitHost cfg) tr
  = (inl (fun from to title body =>
            emit (ServerCreatePR (GitHost cfg) from to title body) ;;
            ret (serverCreatePR w (GitHost cfg) from to title body)), tr).
Proof.
  unfold getGitServer. intros [H|[H|H]]; by rewrite H.
Qed.

Lemma requests_all (branches : list string) (tr : list event) :
  (forall b, b ∈ branches -> answerTo cfg w b = None) ->
  forEach branches (fun branch =>
      let title :=
        if String.eqb (PRTitle cfg) EmptyString
        then "GitOps deployment " ++ branch else PRTitle cfg in
      let body :=
        if String.eqb (PRBody cfg) EmptyString then branch else PRBody cfg in
      err ← (emit (ServerCreatePR (GitHost cfg) branch (PRTargetBranch cfg)
                     title body) ;;
             ret (serverCreatePR w (GitHost cfg) branch (PRTargetBranch cfg)
                    title body));
      match err with
      | Some e => fatal ("failed to create PR: " ++ e)
      | None => ret tt
      end) tr
  = (inl tt, (tr ++ map (requestOf cfg) branches)%list).
Proof.
  revert tr. induction branches as [|b branches IH]; intros tr Hall; simpl.
  - by rewrite app_nil_r.
  - pose proof (Hall b ltac:(apply elem_of_cons; by left)) as Hb.
    unfold answerTo in Hb.
    unfold bind at 1, mbind, proc_bind, bind, emit, ret. simpl.
    rewrite Hb. rewrite IH.
    + by rewrite <- app_assoc.
    + intros b' Hb'. apply Hall, elem_of_cons. by right.
Qed.

Lemma requests_until (pre post : list string) (b e : string)
    (tr : list event) :
  (forall x, x ∈ pre -> answerTo cfg w x = None) ->
  answerTo cfg w b = Some e ->
  forEach (pre ++ b :: post) (fun branch =>
      let title :=
        if String.eqb (PRTitle cfg) EmptyString
        then "GitOps deployment " ++ branch else PRTitle cfg in
      let body :=
        if String.eqb (PRBody cfg) EmptyString then branch else PRBody cfg in
      err ← (emit (ServerCreatePR (GitHost cfg) branch (PRTargetBranch cfg)
                     title body) ;;
             ret (serverCreatePR w (GitHost cfg) branch (PRTargetBranch cfg)
                    title body));
      match err with
      | Some e => fatal ("failed to create PR: " ++ e)
      | None => ret tt
      end) tr
  = (inr (Fatal ("failed to create PR: " ++ e)),
     (tr ++ map (requestOf cfg) (pre ++ [b]))%list).
Proof.
  intros Hpre Hb. revert tr.
  induction pre as [|x pre IH]; intros tr; simpl.
  - unfold answerTo in Hb.
    unfold bind at 1, mbind, proc_bind, bind, emit, ret. simpl.
    by rewrite Hb.
  - pose proof (Hpre x ltac:(apply elem_of_cons; by left)) as Hx.
    unfold answerTo in Hx.
    unfold bind at 1, mbind, proc_bind, bind, emit, ret. simpl.
    rewrite Hx. rewrite IH.
    + by rewrite <- app_assoc.
    + intros y Hy. apply Hpre, elem_of_cons. by right.
Qed.

(** X19.  With a token-authenticated server that accepts every request,
    [createPullRequests] asks for one pull request per branch, in the
    order of the branches, each from the branch into the target branch;
    title and body are the configured ones, or else the default title
    that names the branch and the branch name as the body. *)
Theorem createPullRequests_one_request_per_branch
    (branches : list string) (tr : list event) :
  DryRun cfg = false ->
  GitHost cfg = "github" \/ GitHost cfg = "gitlab"
  \/ GitHost cfg = "bitbucket" ->
  (forall b, b ∈ branches -> answerTo cfg w b = None) ->
  createPullRequests cfg w flags gh branches tr
  = (inl tt, (tr ++ map (requestOf cfg) branches)%list).
Proof.
  intros Hdry Hhost Hall. unfold createPullRequests. rewrite Hdry.
  unfold mbind at 1, proc_bind, bind.
  rewrite (getGitServer_token tr Hhost).
  by apply requests_all.
Qed.

(** X20.  The first request that the server refuses ends the run at once: the
    branches after it get no pull request, although they have been
    pushed. *)
Theorem createPullRequests_stops_at_first_refusal
    (pre post : list string) (b e : string) (tr : list event) :
  DryRun cfg = false ->
  GitHost cfg = "github" \/ GitHost cfg = "gitlab"
  \/ GitHost cfg = "bitbucket" ->
  (forall x, x ∈ pre -> answerTo cfg w x = None) ->
  answerTo cfg w b = Some e ->
  createPullRequests cfg w flags gh (pre ++ b :: post) tr
  = (inr (Fatal ("failed to create PR: " ++ e)),
     (tr ++ map (requestOf cfg) (pre ++ [b]))%list).
Proof.
  intros Hdry Hhost Hpre Hb. unfold createPullRequests. rewrite Hdry.
  unfold mbind at 1, proc_bind, bind.
  rewrite (getGitServer_token tr Hhost).
  by apply requests_until.
Qed.

(** ** What the loop over the trains accumulates *)

Lemma selectBranch_returns (train : string) (targets : list string)
    (tr tr' : list event) (b : string) :
  selectBranch cfg w train targets tr = (inl b, tr') ->
  b = branchOf cfg train.
Proof.
  unfold selectBranch. intros H.
  apply bind_returned in H as (? & ? & _ & H).
  apply bind_returned in H as (? & ? & _ & H).
  by injection H as <-.
Qed.

Lemma processTrain_returns (dir : string) (acc u : Updates)
    (train : string) (targets : list string) (tr tr' : list event) :
  processTrain cfg w dir acc train targets tr = (inl u, tr') ->
  updatedBranches u
  = (updatedBranches acc
     ++ (if changed cfg w (train, targets) then [branchOf cfg train]
         else []))%list /\
  updatedTargets u
  = (updatedTargets acc
     ++ (if changed cfg w (train, targets) then targets else []))%list /\
  modifiedFiles u = (modifiedFiles acc ++ filesOf cfg w train)%list.
Proof.
  unfold processTrain, changed, filesOf. intros H.
  apply bind_returned in H as (b & tr1 & Hb & H).
  apply selectBranch_returns in Hb. subst b.
  apply bind_returned in H as (? & ? & _ & H).
  apply bind_returned in H as (? & ? & _ & H).
  simpl.
  destruct (getModifiedFiles w (branchOf cfg train)) as [files|err];
    [|done].
  apply bind_returned in H as (? & ? & _ & H).
  destruct (workdirCommit w (branchOf cfg train));
    injection H as <-; simpl; by rewrite ?app_nil_r.
Qed.

(** The accumulators after the loop. *)
Lemma processTrains_returns (dir : string) (acc u : Updates)
    (trains : list (string * list string)) (tr tr' : list event) :
  processTrains cfg w dir acc trains tr = (inl u, tr') ->
  updatedBranches u
  = (updatedBranches acc
     ++ map (fun p => branchOf cfg p.1)
          (List.filter (changed cfg w) trains))%list /\
  updatedTargets u
  = (updatedTargets acc
     ++ concat (map snd (List.filter (changed cfg w) trains)))%list /\
  modifiedFiles u
  = (modifiedFiles acc
     ++ concat (map (fun p => filesOf cfg w p.1) trains))%list.
Proof.
  revert acc tr.
  induction trains as [|[train targets] trains IH]; intros acc tr; simpl.
  - intros [= <- _]. by rewrite !app_nil_r.
  - intros H. apply bind_returned in H as (acc1 & tr1 & H1 & H).
    apply processTrain_returns in H1 as (Hb & Ht & Hf).
    apply IH in H as (Hb' & Ht' & Hf').
    rewrite Hb', Ht', Hf', Hb, Ht, Hf.
    destruct (changed cfg w (train, targets)); simpl;
      by rewrite <- ?app_assoc, ?app_nil_r.
Qed.

(** X21.  What the loop over the trains hands to the publishing step.  The
    branches to push are those of the trains whose commit held changes,
    in the order of the visit, and the targets to push images for are
    the targets of these trains.  The list of modified files, which the
    github_app path commits, holds the files reported for every train
    visited, with or without changes in its commit. *)
Theorem processTrains_accumulates (dir : string) (acc u : Updates)
    (trains : list (string * list string)) (tr tr' : list event) :
  processTrains cfg w dir acc trains tr = (inl u, tr') ->
  updatedBranches u
  = (updatedBranches acc
     ++ map (fun p => branchOf cfg p.1)
          (List.filter (changed cfg w) trains))%list /\
  updatedTargets u
  = (updatedTargets acc
     ++ concat (map snd (List.filter (changed cfg w) trains)))%list /\
  modifiedFiles u
  = (modifiedFiles acc
     ++ concat (map (fun p => filesOf cfg w p.1) trains))%list.
Proof. apply processTrains_returns. Qed.

(** ** The footprint of a run *)

Lemma emits_deferring (P : event -> Prop) {A : Type} (d : Proc unit)
    (body : Proc A) :
  emits P d -> emits P body -> emits P (deferring d body).
Proof.
  intros Hd Hb tr. unfold deferring.
  destruct (Hb tr) as (evs & Hevs & HP).
  destruct (body tr) as [[a|[m|m|]] tr1]; simpl in *; subst tr1.
  - destruct (Hd (tr ++ evs)%list) as (evs' & Hevs' & HP').
    exists (evs ++ evs')%list. rewrite Hevs', app_assoc.
    split; [done|]. by apply Forall_app.
  - by exists evs.
  - destruct (Hd (tr ++ evs)%list) as (evs' & Hevs' & HP').
    exists (evs ++ evs')%list. rewrite Hevs', app_assoc.
    split; [done|]. by apply Forall_app.
  - by exists evs.
Qed.

Section Footprint.

Variable P : event -> Prop.

Hypothesis allow_quiet : forall e, quiet e = true -> P e.
Hypothesis allow_render :
  forall bin dir, P (Exec [bin; "--nopush"; "--deployment_root"; dir]).

Lemma recreateIfStale_footprint (currentTargets : gmap string bool)
    (branch : string) (embedded : list string) :
  emits P (recreateIfStale cfg currentTargets branch embedded).
Proof.
  induction embedded as [|t embedded IH]; simpl.
  - apply emits_ret.
  - destruct (negb _); [|done]. by apply emits_emit, allow_quiet.
Qed.

Lemma selectBranch_footprint (train : string) (targets : list string) :
  emits P (selectBranch cfg w train targets).
Proof.
  unfold selectBranch.
  apply emits_bind; [by apply emits_emit, allow_quiet|]. intros _.
  apply emits_bind; [|intros _; apply emits_ret].
  destruct (negb _); [|apply emits_ret].
  apply emits_bind; [by apply emits_emit, allow_quiet|]. intros _.
  apply recreateIfStale_footprint.
Qed.

Lemma processTrain_footprint (dir : string) (acc : Updates)
    (train : string) (targets : list string) :
  emits P (processTrain cfg w dir acc train targets).
Proof.
  unfold processTrain.
  apply emits_bind; [apply selectBranch_footprint|]. intros branch.
  apply emits_bind.
  { apply emits_forEach. intros target. unfold Mustex.
    apply emits_bind; [apply emits_emit, allow_render|]. intros _.
    destruct (mustex w _); [apply emits_ret|apply emits_fatal]. }
  intros _.
  apply emits_bind; [by apply emits_emit, allow_quiet|]. intros _.
  destruct (getModifiedFiles w branch); [|apply emits_fatal].
  apply emits_bind; [by apply emits_emit, allow_quiet|]. intros _.
  destruct (workdirCommit w branch); apply emits_ret.
Qed.

Lemma processTrains_footprint (dir : string) (acc : Updates)
    (trains : list (string * list string)) :
  emits P (processTrains cfg w dir acc trains).
Proof.
  revert acc. induction trains as [|[train targets] trains IH];
    intros acc; simpl.
  - apply emits_ret.
  - apply emits_bind; [apply processTrain_footprint|]. intros acc1.
    apply IH.
Qed.

(** [main] performs only events in [P] if the part after the loop over
    the trains does. *)
Lemma main_footprint :
  (forall dir trains u tr tr',
     processTrains cfg w dir
       {| updatedTargets := []; updatedBranches := [];
          modifiedFiles := [] |} trains tr = (inl u, tr') ->
     emits P
       (if Nat.eqb (length (updatedTargets u)) 0 then ret tt
        else
          (if Nat.ltb 0 (length (ResolvedPushes cfg))
           then processResolvedImages cfg w
           else processImages cfg w (updatedTargets u)) ;;
          publish cfg w flags gh dir u)) ->
  emits P (main cfg w flags gh).
Proof.
  intros Hrest. unfold main, findTrains.
  apply emits_bind.
  { destruct (negb _); [|apply emits_ret].
    apply emits_bind; [by apply emits_emit, allow_quiet|]. intros _.
    destruct (osChdir w _); [apply emits_fatal|apply emits_ret]. }
  intros _. apply emits_bind.
  { destruct (Nat.ltb 0 (length (ResolvedBinaries cfg)));
      [apply CleanupFacts.resolvedTrains_silent|].
    unfold executeBazelQuery.
    apply emits_bind; [|intros results; apply emits_ret].
    apply emits_bind; [by apply emits_emit, allow_quiet|]. intros _.
    destruct (bazelCquery w _); [apply emits_ret|apply emits_fatal]. }
  intros trains. destruct (Nat.eqb (size trains) 0); [apply emits_ret|].
  apply emits_bind; [by apply emits_emit, allow_quiet|]. intros _.
  destruct (osMkdirTemp w _ _) as [dir|err]; [|apply emits_fatal].
  apply emits_deferring; [by apply emits_emit, allow_quiet|].
  apply emits_bind; [by apply emits_emit, allow_quiet|]. intros _.
  destruct (gitClone w _ _ _ _ _); [apply emits_fatal|].
  apply emits_bind_returned; [apply processTrains_footprint|].
  intros u tr tr' H. exact (Hrest _ _ _ _ _ H).
Qed.

Hypothesis allow_exec : forall cmd, P (Exec cmd).

Lemma Mustex_footprint (command : list string) :
  emits P (Mustex w command).
Proof.
  unfold Mustex. apply emits_bind; [apply emits_emit, allow_exec|].
  intros _. destruct (mustex w command); [apply emits_ret|apply emits_fatal].
Qed.

Lemma workerPool_footprint {A : Type} (queue : list A)
    (work : A -> Proc unit) :
  (forall x, emits P (work x)) -> emits P (workerPool cfg queue work).
Proof.
  intros Hwork. unfold workerPool.
  destruct (Z.ltb _ _); [apply emits_panic|].
  destruct (_ && _); [apply emits_block|].
  by apply emits_forEach.
Qed.

Lemma pushes_footprint (targets : list string) :
  emits P (if Nat.ltb 0 (length (ResolvedPushes cfg))
           then processResolvedImages cfg w
           else processImages cfg w targets).
Proof.
  destruct (Nat.ltb 0 _).
  - unfold processResolvedImages. apply workerPool_footprint.
    intros cmd. apply Mustex_footprint.
  - unfold processImages, executeBazelQuery.
    apply emits_bind.
    { apply emits_bind; [by apply emits_emit, allow_quiet|]. intros _.
      destruct (bazelCquery w _); [apply emits_ret|apply emits_fatal]. }
    intros result. apply workerPool_footprint. intros target.
    unfold processTarget.
    destruct (isRegularFile w _); apply Mustex_footprint.
Qed.

End Footprint.

(** X22.  A dry run stays local: whatever the configuration and the
    collaborators do, and however the run ends, it pushes no branch,
    asks no server for a pull request and makes no call to the hosting
    provider.  (The commands that push the images are run all the
    same.) *)
Theorem main_dry_run_stays_local :
  DryRun cfg = true ->
  Forall (fun e => remote e = false) (snd (run (main cfg w flags gh))).
Proof.
  intros Hdry.
  assert (Hm : emits (fun e => remote e = false) (main cfg w flags gh)).
  { apply main_footprint.
    - intros e He. by destruct e.
    - done.
    - intros dir trains u tr tr' _.
      destruct (Nat.eqb _ 0); [apply emits_ret|].
      apply emits_bind.
      + apply pushes_footprint; [intros e He; by destruct e|done].
      + intros _. unfold publish. rewrite Hdry. apply emits_ret. }
  destruct (Hm []) as (evs & Hevs & HP). unfold run. by rewrite Hevs.
Qed.

(** X23.  When no train's commit holds changes, the run ends after the loop
    over the trains: nothing is pushed and no pull request is asked for,
    and the only commands run are the renderers of the targets, each
    with [--nopush]. *)
Theorem main_without_changes_publishes_nothing :
  (forall branch, workdirCommit w branch = false) ->
  Forall rendersOnly (snd (run (main cfg w flags gh))).
Proof.
  intros Hnone.
  assert (Hm : emits rendersOnly (main cfg w flags gh)).
  { apply main_footprint.
    - intros e He. split; [by destruct e|]. intros cmd ->. done.
    - intros bin dir. split; [done|]. intros cmd [= <-].
      apply elem_of_cons. right. apply elem_of_cons. by left.
    - intros dir trains u tr tr' H.
      apply processTrains_returns in H as (_ & Ht & _).
      assert (Hf : List.filter (changed cfg w) trains = []).
      { clear -Hnone. induction trains as [|p trains IH]; simpl; [done|].
        unfold changed at 1. by rewrite Hnone. }
      rewrite Hf in Ht. simpl in Ht. rewrite Ht. apply emits_ret. }
  destruct (Hm []) as (evs & Hevs & HP). unfold run. by rewrite Hevs.
Qed.

Lemma readFiles_footprint (P : event -> Prop) (files : list FileEntry) :
  (forall path, P (ReadFile path)) -> emits P (readFiles gh files).
Proof.
  intros HP. induction files as [|f files IH]; simpl.
  - apply emits_ret.
  - apply emits_bind; [apply emits_emit, HP|]. intros _.
    destruct (ReadFileContent gh _); [apply emits_ret|done].
Qed.

Lemma CreateCommit_pushes_no_branch
    (baseBranch commitBranch gitopsPath : string) (files : list string)
    (prTitle prDescription : string) :
  emits (fun e => branchPush e = false)
    (CreateCommit flags gh baseBranch commitBranch gitopsPath files
       prTitle prDescription).
Proof.
  unfold CreateCommit.
  apply emits_bind.
  { unfold createGithubClient.
    repeat (case_match; try apply emits_fatal). apply emits_ret. }
  intros _. destruct (getFilesToCommit gh gitopsPath files);
    [|apply emits_fatal].
  apply emits_bind.
  { unfold getRef. apply emits_bind; [by apply emits_emit|]. intros _.
    destruct (GetRef gh _); [apply emits_fatal|].
    apply emits_bind; [by apply emits_emit|]. intros _.
    destruct (CreateRef gh _); [apply emits_fatal|apply emits_ret]. }
  intros _. apply emits_bind.
  { unfold getTree. apply emits_bind; [by apply readFiles_footprint|].
    intros [e|]; [apply emits_ret|].
    apply emits_bind; [by apply emits_emit|]. intros _. apply emits_ret. }
  intros [e|]; [apply emits_fatal|].
  apply emits_bind.
  { unfold pushCommit. apply emits_bind; [by apply emits_emit|]. intros _.
    destruct (GetCommit gh); [apply emits_fatal|].
    apply emits_bind; [by apply emits_emit|]. intros _.
    destruct (CreateGitCommit gh _); [apply emits_fatal|].
    apply emits_bind; [by apply emits_emit|]. intros _.
    destruct (UpdateRef gh); [apply emits_fatal|apply emits_ret]. }
  intros _. unfold createPR.
  apply emits_bind; [by apply emits_emit|]. intros _.
  destruct (PullRequestsCreate gh _ _ _ _);
    [apply emits_ret|apply emits_fatal].
Qed.

(** X24.  With [github_app] as the git host the deployment branches are never
    published: no branch is pushed from the working directory and no
    server is asked for a pull request, whatever the trains and their
    changes; what leaves the machine goes through [CreateCommit]. *)
Theorem main_github_app_pushes_no_branch :
  GitHost cfg = "github_app" ->
  Forall (fun e => branchPush e = false) (snd (run (main cfg w flags gh))).
Proof.
  intros Hhost.
  assert (Hm : emits (fun e => branchPush e = false) (main cfg w flags gh)).
  { apply main_footprint.
    - intros e He. by destruct e.
    - done.
    - intros dir trains u tr tr' _.
      destruct (Nat.eqb _ 0); [apply emits_ret|].
      apply emits_bind.
      + apply pushes_footprint; [intros e He; by destruct e|done].
      + intros _. unfold publish. rewrite Hhost.
        destruct (DryRun cfg); [apply emits_ret|].
        destruct (Nat.ltb _ 7); [apply emits_panic|].
        change (String.eqb "github_app" "github_app") with true.
        cbv iota. apply CreateCommit_pushes_no_branch. }
  destruct (Hm []) as (evs & Hevs & HP). unfold run. by rewrite Hevs.
Qed.

End Main.

(** ** The trains of a query *)

Lemma queriedTrains_attributes (name t : string)
    (attrs : list (string * string)) (trains : gmap string (list string)) :
  default []
    (foldl (fun trains attr =>
              if String.eqb attr.1 "deployment_branch"
              then appendTo trains attr.2 name else trains)
       trains attrs !! t)
  = (default [] (trains !! t)
     ++ flat_map (fun attr =>
          if String.eqb attr.1 "deployment_branch" && String.eqb attr.2 t
          then [name] else []) attrs)%list.
Proof.
  revert trains. induction attrs as [|[k v] attrs IH]; intros trains;
    simpl; [by rewrite app_nil_r|].
  rewrite IH. destruct (String.eqb k "deployment_branch"); simpl.
  - rewrite appendTo_lookup, <- app_assoc. f_equal. f_equal.
    destruct (decide (t = v)) as [->|Hne].
    + by rewrite String.eqb_refl.
    + assert (String.eqb v t = false) as ->; [|done].
      apply String.eqb_neq. congruence.
  - done.
Qed.

(** X25.  The results of the query are grouped by the value of their
    [deployment_branch] attributes: the targets of a train are the
    results that carry the attribute with the train as its value, in the
    order of the results, a result once for every such attribute. *)
Theorem queriedTrains_groups_by_attribute (results : list QueryTarget)
    (t : string) :
  default [] (queriedTrains results !! t)
  = flat_map (fun r =>
      flat_map (fun attr =>
        if String.eqb attr.1 "deployment_branch" && String.eqb attr.2 t
        then [RuleName r] else []) (Attributes r)) results.
Proof.
  unfold queriedTrains.
  assert (H : forall trains : gmap string (list string),
    default []
      (foldl (fun trains r =>
                foldl (fun trains attr =>
                         if String.eqb attr.1 "deployment_branch"
                         then appendTo trains attr.2 (RuleName r)
                         else trains) trains (Attributes r))
         trains results !! t)
    = (default [] (trains !! t)
       ++ flat_map (fun r =>
            flat_map (fun attr =>
              if String.eqb attr.1 "deployment_branch"
                 && String.eqb attr.2 t
              then [RuleName r] else []) (Attributes r)) results)%list).
  { induction results as [|r results IH]; intros trains; simpl;
      [by rewrite app_nil_r|].
    by rewrite IH, queriedTrains_attributes, <- app_assoc. }
  by rewrite H, lookup_empty.
Qed.

(** ** Instances *)

Lemma main_rejects_malformed_binding_witness :
  run (main (serverConfig "github" ["prod:bin/app"; "bin/web"; "dev:bin/dev"])
         (calm (fun _ => true) "none") appFlags (provider alreadyExists))
  = (inr (Fatal ("resolved_binaries: invalid resolved_binary format: "
                 ++ "bin/web")), []).
Proof.
  apply (main_rejects_malformed_binding
           (serverConfig "github" ["prod:bin/app"; "bin/web"; "dev:bin/dev"])
           (calm (fun _ => true) "none") appFlags (provider alreadyExists)
           ["prod:bin/app"] ["dev:bin/dev"] "bin/web").
  - reflexivity.
  - reflexivity.
  - intros x Hx. apply list_elem_of_singleton in Hx. subst x.
    vm_compute. reflexivity.
  - vm_compute. reflexivity.
Defined.

Lemma createPullRequests_one_request_per_branch_witness :
  createPullRequests (serverConfig "gitlab" []) (calm (fun _ => true) "none")
    appFlags (provider alreadyExists) ["deploy/prod"; "deploy/dev"] []
  = (inl tt,
     ([] ++ map (requestOf (serverConfig "gitlab" []))
              ["deploy/prod"; "deploy/dev"])%list).
Proof.
  apply (createPullRequests_one_request_per_branch
           (serverConfig "gitlab" []) (calm (fun _ => true) "none")
           appFlags (provider alreadyExists)).
  - reflexivity.
  - right. left. reflexivity.
  - intros b Hb.
    repeat (apply elem_of_cons in Hb as [->|Hb]; [vm_compute; reflexivity|]).
    by apply elem_of_nil in Hb.
Defined.

Lemma createPullRequests_stops_at_first_refusal_witness :
  createPullRequests (serverConfig "github" [])
    (calm (fun _ => true) "deploy/dev") appFlags (provider alreadyExists)
    (["deploy/prod"] ++ "deploy/dev" :: ["deploy/test"]) []
  = (inr (Fatal ("failed to create PR: " ++ "403 Forbidden")),
     ([] ++ map (requestOf (serverConfig "github" []))
              (["deploy/prod"] ++ ["deploy/dev"]))%list).
Proof.
  apply (createPullRequests_stops_at_first_refusal
           (serverConfig "github" []) (calm (fun _ => true) "deploy/dev")
           appFlags (provider alreadyExists)).
  - reflexivity.
  - left. reflexivity.
  - intros x Hx. apply list_elem_of_singleton in Hx. subst x.
    vm_compute. reflexivity.
  - vm_compute. reflexivity.
Defined.

Lemma processTrains_accumulates_witness :
  updatedBranches
    {| updatedTargets := ["//app:prod"];
       updatedBranches := ["deploy/prod"];
       modifiedFiles := ["deploy/prod/app.yaml"; "deploy/dev/app.yaml"] |}
  = ([] ++ map (fun p => branchOf (serverConfig "github" []) p.1)
             (List.filter
                (changed (serverConfig "github" [])
                   (calm (fun b => String.eqb b "deploy/prod") "none"))
                [("prod", ["//app:prod"]); ("dev", ["//app:dev"])]))%list /\
  updatedTargets
    {| updatedTargets := ["//app:prod"];
       updatedBranches := ["deploy/prod"];
       modifiedFiles := ["deploy/prod/app.yaml"; "deploy/dev/app.yaml"] |}
  = ([] ++ concat (map snd
             (List.filter
                (changed (serverConfig "github" [])
                   (calm (fun b => String.eqb b "deploy/prod") "none"))
                [("prod", ["//app:prod"]); ("dev", ["//app:dev"])])))%list /\
  modifiedFiles
    {| updatedTargets := ["//app:prod"];
       updatedBranches := ["deploy/prod"];
       modifiedFiles := ["deploy/prod/app.yaml"; "deploy/dev/app.yaml"] |}
  = ([] ++ concat (map (fun p =>
                          filesOf (serverConfig "github" [])
                            (calm (fun b => String.eqb b "deploy/prod") "none")
                            p.1)
             [("prod", ["//app:prod"]); ("dev", ["//app:dev"])]))%list.
Proof.
  apply (processTrains_accumulates (serverConfig "github" [])
           (calm (fun b => String.eqb b "deploy/prod") "none")
           "/tmp/gitops123"
           {| updatedTargets := []; updatedBranches := [];
              modifiedFiles := [] |}
           {| updatedTargets := ["//app:prod"];
              updatedBranches := ["deploy/prod"];
              modifiedFiles := ["deploy/prod/app.yaml";
                                "deploy/dev/app.yaml"] |}
           [("prod", ["//app:prod"]); ("dev", ["//app:dev"])] []
           [SwitchToBranch "deploy/prod" "master";
            Exec ["//app:prod"; "--nopush"; "--deployment_root";
                  "/tmp/gitops123"];
            GetModifiedFiles;
            WorkdirCommit
              ("GitOps for release branch main from main commit "
               ++ "0123456789abcdef"
               ++ String (Ascii.ascii_of_nat 10) "//app:prod") "cloud";
            SwitchToBranch "deploy/dev" "master";
            Exec ["//app:dev"; "--nopush"; "--deployment_root";
                  "/tmp/gitops123"];
            GetModifiedFiles;
            WorkdirCommit
              ("GitOps for release branch main from main commit "
               ++ "0123456789abcdef"
               ++ String (Ascii.ascii_of_nat 10) "//app:dev") "cloud"]).
  vm_compute. reflexivity.
Defined.

Lemma main_dry_run_stays_local_witness :
  Forall (fun e => remote e = false)
    (snd (run (main deployConfig (world None None true []) appFlags
                 (provider alreadyExists)))).
Proof.
  apply (main_dry_run_stays_local deployConfig (world None None true [])
           appFlags (provider alreadyExists)).
  reflexivity.
Defined.

Lemma main_without_changes_publishes_nothing_witness :
  Forall rendersOnly
    (snd (run (main (serverConfig "github" ["prod:bin/app.gitops"])
                 (calm (fun _ => false) "none") appFlags
                 (provider alreadyExists)))).
Proof.
  apply (main_without_changes_publishes_nothing
           (serverConfig "github" ["prod:bin/app.gitops"])
           (calm (fun _ => false) "none") appFlags (provider alreadyExists)).
  reflexivity.
Defined.

Lemma main_github_app_pushes_no_branch_witness :
  Forall (fun e => branchPush e = false)
    (snd (run (main (serverConfig "github_app" ["prod:bin/app.gitops"])
                 (calm (fun _ => true) "none") appFlags
                 (provider alreadyExists)))).
Proof.
  apply (main_github_app_pushes_no_branch
           (serverConfig "github_app" ["prod:bin/app.gitops"])
           (calm (fun _ => true) "none") appFlags (provider alreadyExists)).
  reflexivity.
Defined.

Lemma main_fatal_keeps_directory_witness :
  run (main deployConfig (world (Some "denied") None true []) appFlags
         (provider alreadyExists))
  = (inr (Fatal "failed to clone repository: denied"),
     [MkdirTemp "/tmp" "gitops";
      GitClone "git@example.com:acme/deployments.git" "/tmp/gitops123"
        EmptyString "master" "cloud"]) /\
  forall dir,
    RemoveAll dir
    ∉ [MkdirTemp "/tmp" "gitops";
       GitClone "git@example.com:acme/deployments.git" "/tmp/gitops123"
         EmptyString "master" "cloud"].
Proof.
  split; [vm_compute; reflexivity|].
  apply (CleanupFacts.main_fatal_keeps_directory deployConfig
           (world (Some "denied") None true []) appFlags
           (provider alreadyExists) "failed to clone repository: denied").
  vm_compute. reflexivity.
Defined.

Lemma main_return_removes_directory_witness :
  exists dir,
    osMkdirTemp (world None None true []) (GitOpsTmpDir deployConfig) "gitops"
    = inl dir /\
    last (snd (run (main deployConfig (world None None true []) appFlags
                      (provider alreadyExists))))
    = Some (RemoveAll dir).
Proof.
  apply (CleanupFacts.main_return_removes_directory deployConfig
           (world None None true []) appFlags (provider alreadyExists)).
  - vm_compute. reflexivity.
  - exists "/tmp", "gitops". vm_compute. constructor.
Defined.

End PrerMore.

(** * Branch selection in the loop over the trains *)

Module PrerTrains.

Import Go Strings GithubApp Prer PrerSpec ProcFacts PrerFacts PrerMore.

(** ** Runs of a sequence *)

Lemma bind_run {A B : Type} (m : Proc A) (k : A -> Proc B)
    (tr tr' : list event) (r : B + halt) :
  (m ≫= k) tr = (r, tr') ->
  (exists a tr1, m tr = (inl a, tr1) /\ k a tr1 = (r, tr')) \/
  (exists h, m tr = (inr h, tr') /\ r = inr h).
Proof.
  unfold mbind, proc_bind, bind.
  destruct (m tr) as [[a|h] tr1].
  - intros H. left. by exists a, tr1.
  - intros [= <- <-]. right. by exists h.
Qed.

(** One step of a proof that a process performs no event of branch
    selection. *)
Ltac others_step :=
  first
    [ apply emits_ret | apply emits_mret | apply emits_fatal
    | apply emits_panic | apply emits_block
    | apply emits_emit; reflexivity
    | apply emits_forEach; intros ?
    | apply emits_bind; [|intros ?]
    | progress case_match ].

Ltac others := repeat others_step.

(** ** Branch names *)

Lemma append_cancel_l (s t t' : string) : s ++ t = s ++ t' -> t = t'.
Proof.
  induction s as [|a s IH]; [done|].
  rewrite !append_cons. intros [= H]. by apply IH.
Qed.

Lemma append_cancel_r (s t u : string) : s ++ u = t ++ u -> s = t.
Proof.
  intros H.
  assert (Hlen : String.length s = String.length t).
  { apply (f_equal String.length) in H. rewrite !length_append in H. lia. }
  revert t H Hlen. induction s as [|a s IH]; intros [|b t]; try done.
  rewrite !append_cons. intros [= -> H] [= Hlen]. f_equal. by apply IH.
Qed.

Lemma branchOf_inj (cfg : Config) (train train' : string) :
  branchOf cfg train = branchOf cfg train' -> train = train'.
Proof.
  unfold branchOf. intros H.
  apply append_cancel_l in H. by apply append_cancel_r in H.
Qed.

Section Loop.

Variable cfg : Config.
Variable w : World.
Variable flags : Flags.
Variable gh : Provider.

(** ** What a trace says of branch selection *)

Lemma selected_others (evs : list event) :
  Forall (fun e => selects e = false) evs -> selected cfg w [] evs.
Proof.
  intros H b q. rewrite Forall_forall in H. split; split.
  - intros Hin. by apply H in Hin.
  - intros (_ & p & Hp & _). by apply elem_of_nil in Hp.
  - intros Hin. by apply H in Hin.
  - intros (_ & p & Hp & _). by apply elem_of_nil in Hp.
Qed.

Lemma selected_app (v1 v2 : list (string * list string))
    (e1 e2 : list event) :
  selected cfg w v1 e1 -> selected cfg w v2 e2 ->
  selected cfg w (v1 ++ v2) (e1 ++ e2).
Proof.
  intros H1 H2 b q.
  destruct (H1 b q) as [Hs1 Hr1]. destruct (H2 b q) as [Hs2 Hr2].
  split; rewrite elem_of_app.
  - rewrite Hs1, Hs2. split.
    + intros [(-> & p & Hp & Hb)|(-> & p & Hp & Hb)]; (split; [done|]);
        exists p; (split; [|done]); apply elem_of_app; tauto.
    + intros (-> & p & Hp & Hb). apply elem_of_app in Hp as [Hp|Hp];
        [left|right]; (split; [done|]); by exists p.
  - rewrite Hr1, Hr2. split.
    + intros [(-> & p & Hp & Hb)|(-> & p & Hp & Hb)]; (split; [done|]);
        exists p; (split; [|done]); apply elem_of_app; tauto.
    + intros (-> & p & Hp & Hb). apply elem_of_app in Hp as [Hp|Hp];
        [left|right]; (split; [done|]); by exists p.
Qed.

Lemma selected_nil_l (visited : list (string * list string))
    (e1 e2 : list event) :
  Forall (fun e => selects e = false) e1 -> selected cfg w visited e2 ->
  selected cfg w visited (e1 ++ e2).
Proof.
  intros H1 H2.
  apply (selected_app [] visited); [by apply selected_others|done].
Qed.

Lemma selected_nil_r (visited : list (string * list string))
    (e1 e2 : list event) :
  selected cfg w visited e1 -> Forall (fun e => selects e = false) e2 ->
  selected cfg w visited (e1 ++ e2).
Proof.
  intros H1 H2. rewrite <- (app_nil_r visited).
  apply selected_app; [done|by apply selected_others].
Qed.

(** ** One train *)

(** Branch selection for one train: it always returns, with the switch,
    and for a branch that exists the look at its last commit message and
    the recreation if a target has gone. *)
Lemma selectBranch_events (train : string) (targets : list string)
    (tr : list event) :
  let branch := branchOf cfg train in
  selectBranch cfg w train targets tr
  = (inl branch,
     (tr ++ SwitchToBranch branch (PRTargetBranch cfg)
         :: (if switchToBranch w branch (PRTargetBranch cfg) then []
             else GetLastCommitMessage
                  :: (if decide (Exists (fun t => t ∉ targets)
                                   (ExtractTargets w
                                      (getLastCommitMessage w branch)))
                      then [RecreateBranch branch (PRTargetBranch cfg)]
                      else [])))%list).
Proof.
  intros branch. unfold selectBranch. fold (branchOf cfg train). fold branch.
  unfold mbind, proc_bind, bind, emit, ret.
  destruct (switchToBranch w branch (PRTargetBranch cfg)); simpl.
  - done.
  - rewrite recreateIfStale_spec. by rewrite <- !app_assoc.
Qed.

Lemma selectBranch_selected (train : string) (targets : list string)
    (tr : list event) :
  exists evs,
    selectBranch cfg w train targets tr
    = (inl (branchOf cfg train), (tr ++ evs)%list) /\
    selected cfg w [(train, targets)] evs.
Proof.
  eexists. split; [apply selectBranch_events|].
  intros b q. unfold stale. simpl.
  set (branch := branchOf cfg train).
  set (embedded := ExtractTargets w (getLastCommitMessage w branch)).
  split.
  - rewrite elem_of_cons. split.
    + intros [[= -> ->]|Hin].
      * split; [done|]. exists (train, targets).
        split; [apply elem_of_cons; by left|done].
      * exfalso. destruct (switchToBranch w branch (PRTargetBranch cfg));
          [by apply elem_of_nil in Hin|].
        apply elem_of_cons in Hin as [?|Hin]; [done|].
        destruct (decide _); [|by apply elem_of_nil in Hin].
        apply list_elem_of_singleton in Hin. done.
    + intros (-> & p & Hp & ->). apply list_elem_of_singleton in Hp.
      subst p. by left.
  - rewrite elem_of_cons. split.
    + intros [?|Hin]; [done|].
      destruct (switchToBranch w branch (PRTargetBranch cfg)) eqn:Esw;
        [by apply elem_of_nil in Hin|].
      apply elem_of_cons in Hin as [?|Hin]; [done|].
      destruct (decide (Exists (fun t => t ∉ targets) embedded))
        as [Hex|Hex]; [|by apply elem_of_nil in Hin].
      apply list_elem_of_singleton in Hin. injection Hin as -> ->.
      split; [done|]. exists (train, targets).
      split; [apply elem_of_cons; by left|]. split; [done|].
      split; [done|]. by apply Exists_exists in Hex.
    + intros (-> & p & Hp & -> & Hsw & Hex).
      apply list_elem_of_singleton in Hp. subst p. simpl in *.
      fold branch in Hsw. fold branch embedded in Hex.
      right. rewrite Hsw. apply elem_of_cons. right.
      apply Exists_exists in Hex.
      destruct (decide (Exists (fun t => t ∉ targets) embedded));
        [|done].
      by apply list_elem_of_singleton.
Qed.

Lemma Mustex_others (command : list string) :
  emits (fun e => selects e = false) (Mustex w command).
Proof. unfold Mustex. others. Qed.

Lemma processTrain_selected (dir : string) (acc : Updates)
    (train : string) (targets : list string) (tr tr' : list event)
    (r : Updates + halt) :
  processTrain cfg w dir acc train targets tr = (r, tr') ->
  exists evs,
    tr' = (tr ++ evs)%list /\ selected cfg w [(train, targets)] evs.
Proof.
  unfold processTrain. intros H.
  destruct (selectBranch_selected train targets tr) as (evs & Hsel & Hevs).
  apply bind_run in H as [(b & tr1 & Hb & H)|(h & Hh & _)];
    [|by rewrite Hsel in Hh].
  rewrite Hsel in Hb. injection Hb as <- <-.
  match type of H with
  | ?rest _ = _ =>
      assert (Hrest : emits (fun e => selects e = false) rest)
  end.
  { apply emits_bind.
    - apply emits_forEach. intros target. apply Mustex_others.
    - intros _. others. }
  destruct (emits_result _ _ _ _ _ Hrest H) as (evs' & -> & Hothers).
  exists (evs ++ evs')%list. split; [by rewrite app_assoc|].
  by apply selected_nil_r.
Qed.

(** ** The loop *)

Lemma processTrains_selected (dir : string) (acc : Updates)
    (trains : list (string * list string)) (tr tr' : list event)
    (r : Updates + halt) :
  processTrains cfg w dir acc trains tr = (r, tr') ->
  exists evs visited rest,
    tr' = (tr ++ evs)%list /\ trains = (visited ++ rest)%list /\
    selected cfg w visited evs /\
    (forall u, r = inl u -> rest = []).
Proof.
  revert acc tr. induction trains as [|[train targets] trains IH];
    intros acc tr; simpl.
  - intros [= <- <-]. exists [], [], []. rewrite app_nil_r.
    split; [done|]. split; [done|]. split; [|done].
    by apply selected_others.
  - intros H. apply bind_run in H as [(acc1 & tr1 & H1 & H)|(h & Hh & ->)].
    + apply processTrain_selected in H1 as (evs1 & -> & Hs1).
      apply IH in H as (evs & visited & rest & -> & -> & Hs & Hr).
      exists (evs1 ++ evs)%list, ((train, targets) :: visited), rest.
      split; [by rewrite app_assoc|]. split; [done|]. split; [|done].
      by apply (selected_app [(train, targets)] visited).
    + apply processTrain_selected in Hh as (evs1 & -> & Hs1).
      exists evs1, [(train, targets)], trains.
      split; [done|]. split; [done|]. split; [done|]. done.
Qed.

(** ** The run of [main] *)

Lemma resolvedTrains_result (rbs : list string)
    (trains : gmap string (list string)) (tr : list event) :
  resolvedTrains rbs trains tr = (fst (resolvedTrains rbs trains []), tr).
Proof.
  revert trains. induction rbs as [|rb rbs IH]; intros trains; simpl;
    [done|].
  destruct (Cut rb ":") as [[t b] []]; [apply IH|done].
Qed.

Lemma findTrains_result (tr : list event) :
  fst (findTrains cfg w tr) = fst (findTrains cfg w []).
Proof.
  unfold findTrains. destruct (Nat.ltb 0 _).
  - by rewrite resolvedTrains_result.
  - unfold executeBazelQuery, mbind, proc_bind, bind, emit, ret.
    by destruct (bazelCquery w _).
Qed.

Lemma findTrains_others :
  emits (fun e => selects e = false) (findTrains cfg w).
Proof.
  unfold findTrains. destruct (Nat.ltb 0 _).
  - apply CleanupFacts.resolvedTrains_silent.
  - unfold executeBazelQuery. others.
Qed.

Lemma CreateCommit_others
    (baseBranch commitBranch gitopsPath : string) (files : list string)
    (prTitle prDescription : string) :
  emits (fun e => selects e = false)
    (CreateCommit flags gh baseBranch commitBranch gitopsPath files
       prTitle prDescription).
Proof.
  unfold CreateCommit.
  apply emits_bind; [unfold createGithubClient; others|]. intros _.
  destruct (getFilesToCommit gh gitopsPath files); [|apply emits_fatal].
  apply emits_bind; [unfold getRef; others|]. intros _.
  apply emits_bind.
  { unfold getTree. apply emits_bind; [by apply readFiles_footprint|].
    intros ?. others. }
  intros ?. case_match; [apply emits_fatal|].
  apply emits_bind; [unfold pushCommit; others|]. intros _.
  unfold createPR. others.
Qed.

Lemma after_loop_others (dir : string) (u : Updates) :
  emits (fun e => selects e = false)
    (if Nat.eqb (length (updatedTargets u)) 0 then ret tt
     else
       (if Nat.ltb 0 (length (ResolvedPushes cfg))
        then processResolvedImages cfg w
        else processImages cfg w (updatedTargets u)) ;;
       publish cfg w flags gh dir u).
Proof.
  destruct (Nat.eqb _ 0); [apply emits_ret|].
  apply emits_bind.
  - destruct (Nat.ltb 0 _).
    + unfold processResolvedImages, workerPool.
      repeat (case_match; [others|]).
      apply emits_forEach. intros cmd. apply Mustex_others.
    + unfold processImages, executeBazelQuery.
      apply emits_bind; [others|]. intros result.
      unfold workerPool. repeat (case_match; [others|]).
      apply emits_forEach. intros target. unfold processTarget.
      case_match; apply Mustex_others.
  - intros _. unfold publish.
    destruct (DryRun cfg); [apply emits_ret|].
    destruct (Nat.ltb _ 7); [apply emits_panic|].
    destruct (String.eqb (GitHost cfg) "github_app");
      [apply CreateCommit_others|].
    apply emits_bind; [others|]. intros _.
    unfold createPullRequests. destruct (DryRun cfg); [apply emits_ret|].
    apply emits_bind_returned.
    + unfold getGitServer. others.
    + intros CreatePR tr tr' Hserver.
      apply emits_forEach. intros branch.
      apply emits_bind; [|intros ?; others].
      unfold getGitServer in Hserver.
      destruct (_ || _) in Hserver.
      * injection Hserver as <- _. others.
      * destruct (String.eqb (GitHost cfg) "github_app") in Hserver;
          [|done].
        injection Hserver as <- _. unfold GithubApp.CreatePR. others.
Qed.

Lemma main_selected (trains : gmap string (list string))
    (r : unit + halt) (tr : list event) :
  fst (findTrains cfg w []) = inl trains ->
  run (main cfg w flags gh) = (r, tr) ->
  exists visited rest,
    map_to_list trains = (visited ++ rest)%list /\
    selected cfg w visited tr /\
    (r = inl tt -> rest = []).
Proof.
  intros Htrains. unfold run, main.
  match goal with
  | |- (?pre ≫= _) [] = _ -> _ =>
      assert (Hpre : emits (fun e => selects e = false) pre) by others
  end.
  intros H.
  assert (Hnone : forall evs : list event,
            Forall (fun e => selects e = false) evs ->
            r <> inl tt ->
            exists visited rest,
              map_to_list trains = (visited ++ rest)%list /\
              selected cfg w visited evs /\ (r = inl tt -> rest = [])).
  { intros evs Hevs Hr. exists [], (map_to_list trains).
    split; [done|]. split; [by apply selected_others|done]. }
  apply bind_run in H as [([] & tr1 & H1 & H)|(h & Hh & ->)].
  2:{ destruct (emits_result _ _ _ _ _ Hpre Hh) as (evs & -> & Hevs).
      by apply Hnone. }
  destruct (emits_result _ _ _ _ _ Hpre H1) as (evs1 & -> & Hevs1).
  simpl in H.
  apply bind_run in H as [(trains' & tr2 & H2 & H)|(h & Hh & ->)].
  2:{ destruct (emits_result _ _ _ _ _ findTrains_others Hh)
        as (evs & -> & Hevs).
      apply Hnone; [by apply Forall_app|done]. }
  assert (trains' = trains) as ->.
  { pose proof (findTrains_result evs1) as Hres.
    rewrite H2, Htrains in Hres. by injection Hres. }
  destruct (emits_result _ _ _ _ _ findTrains_others H2)
    as (evs2 & -> & Hevs2).
  destruct (Nat.eqb (size trains) 0) eqn:Esize.
  { injection H as <- <-. exists [], [].
    apply Nat.eqb_eq, map_size_empty_iff in Esize. subst trains.
    rewrite map_to_list_empty. split; [done|]. split; [|done].
    apply selected_others. by apply Forall_app. }
  apply bind_run in H as [([] & tr3 & H3 & H)|(h & Hh & ->)]; [|done].
  injection H3 as <-.
  assert (Hhead : Forall (fun e => selects e = false)
            ((evs1 ++ evs2) ++ [MkdirTemp (GitOpsTmpDir cfg) "gitops"])).
  { apply Forall_app. split; [by apply Forall_app|by constructor]. }
  destruct (osMkdirTemp w (GitOpsTmpDir cfg) "gitops") as [dir|err].
  2:{ injection H as <- <-. by apply Hnone. }
  revert H. unfold deferring.
  match goal with
  | |- (let (_, _) := ?body ?t in _) = _ -> _ =>
      destruct (body t) as [r0 tr0] eqn:Hbody
  end.
  assert (Hloop : exists visited rest,
            map_to_list trains = (visited ++ rest)%list /\
            selected cfg w visited tr0 /\ (r0 = inl tt -> rest = [])).
  { apply bind_run in Hbody as [([] & tr4 & H4 & H)|(h & Hh & ->)]; [|done].
    injection H4 as <-.
    assert (Hhead' : Forall (fun e => selects e = false)
              (((evs1 ++ evs2) ++ [MkdirTemp (GitOpsTmpDir cfg) "gitops"])
               ++ [GitClone (GitRepo cfg) dir (GitMirror cfg)
                     (PRTargetBranch cfg) (GitOpsPath cfg)])).
    { apply Forall_app. split; [done|by constructor]. }
    destruct (gitClone w _ _ _ _ _).
    { injection H as <- <-. exists [], (map_to_list trains).
      split; [done|]. split; [by apply selected_others|done]. }
    apply bind_run in H as [(u & tr5 & H5 & H)|(h & Hh & ->)].
    - apply processTrains_selected in H5
        as (evs & visited & rest & -> & Hlist & Hsel & Hrest).
      destruct (emits_result _ _ _ _ _ (after_loop_others dir u) H)
        as (evs' & -> & Hevs').
      exists visited, rest. split; [done|]. split.
      + apply selected_nil_r; [|done]. by apply selected_nil_l.
      + intros _. by apply (Hrest u).
    - apply processTrains_selected in Hh
        as (evs & visited & rest & -> & Hlist & Hsel & Hrest).
      exists visited, rest. split; [done|]. split; [|done].
      by apply selected_nil_l. }
  destruct Hloop as (visited & rest & Hlist & Hsel & Hrest).
  assert (Hend : selected cfg w visited (tr0 ++ [RemoveAll dir])).
  { apply selected_nil_r; [done|]. by constructor. }
  destruct r0 as [[]|[m|m|]]; simpl; intros [= <- <-];
    exists visited, rest; (split; [done|]); (split; [done|]); done.
Qed.

End Loop.

(** C4.  Take a run of [main], a release train that [main] has found
    and its current targets.  In a run that returns, the branch of the
    train has been switched to.  And the branch is recreated from the
    target branch exactly when it has been switched to, exists already
    (the switch did not create it) and the target list embedded in its
    last commit message holds a target that the train does not have now;
    when every embedded target is still a target of the train, the
    existing branch is reused and not recreated.  No other branch is
    ever recreated. *)
Theorem C4_recreate_iff_target_removed (cfg : Config) (w : World)
    (flags : Flags) (gh : Provider) (trains : gmap string (list string))
    (train : string) (targets : list string) (r : unit + halt)
    (tr : list event) :
  let branch := "deploy/" ++ train ++ DeploymentBranchSuffix cfg in
  let embedded := ExtractTargets w (getLastCommitMessage w branch) in
  let switch := SwitchToBranch branch (PRTargetBranch cfg) in
  let recreate := RecreateBranch branch (PRTargetBranch cfg) in
  fst (findTrains cfg w []) = inl trains ->
  trains !! train = Some targets ->
  run (main cfg w flags gh) = (r, tr) ->
  (r = inl tt -> switch ∈ tr) /\
  (recreate ∈ tr <->
   switch ∈ tr /\
   switchToBranch w branch (PRTargetBranch cfg) = false /\
   exists t, t ∈ embedded /\ t ∉ targets) /\
  (forall b q, RecreateBranch b q ∈ tr ->
     q = PRTargetBranch cfg /\
     exists train', is_Some (trains !! train') /\
       b = "deploy/" ++ train' ++ DeploymentBranchSuffix cfg).
Proof.
  intros branch embedded switch recreate Htrains Htrain Hrun.
  destruct (main_selected cfg w flags gh trains r tr Htrains Hrun)
    as (visited & rest & Hlist & Hsel & Hrest).
  assert (Hin : forall p, p ∈ visited -> trains !! p.1 = Some p.2).
  { intros [t ts] Hp. apply elem_of_map_to_list. rewrite Hlist.
    apply elem_of_app. by left. }
  assert (Hmine : forall p, p ∈ visited -> branch = branchOf cfg p.1 ->
                    p = (train, targets)).
  { intros [t ts] Hp Hb. apply branchOf_inj in Hb. simpl in Hb. subst t.
    apply Hin in Hp. simpl in Hp. congruence. }
  assert (Hswitch : switch ∈ tr <-> (train, targets) ∈ visited).
  { destruct (Hsel branch (PRTargetBranch cfg)) as [Hs _].
    unfold switch. rewrite Hs. split.
    - intros (_ & p & Hp & Hb). pose proof (Hmine p Hp Hb) as Hpe.
      by subst p.
    - intros Hp. split; [done|]. by exists (train, targets). }
  split; [|split].
  - intros Hr. apply Hswitch. specialize (Hrest Hr). subst rest.
    rewrite app_nil_r in Hlist. rewrite <- Hlist.
    by apply elem_of_map_to_list.
  - destruct (Hsel branch (PRTargetBranch cfg)) as [_ Hr].
    unfold recreate. rewrite Hr, Hswitch. unfold stale. split.
    + intros (_ & p & Hp & Hb & Hst).
      pose proof (Hmine p Hp Hb) as Hpe. subst p. done.
    + intros (Hp & Hst). split; [done|]. by exists (train, targets).
  - intros b q Hbq. destruct (Hsel b q) as [_ Hr].
    apply Hr in Hbq as (-> & p & Hp & -> & _). split; [done|].
    exists p.1. split; [|done]. rewrite (Hin p Hp). by eexists.
Qed.

Lemma C4_recreate_iff_target_removed_witness :
  (@inl unit halt tt = inl tt ->
   SwitchToBranch "deploy/prod" "master"
   ∈ snd (run (main deployConfig
                 (world None None false ["bin/app.gitops"; "bin/old.gitops"])
                 appFlags (provider alreadyExists)))) /\
  (RecreateBranch "deploy/prod" "master"
   ∈ snd (run (main deployConfig
                 (world None None false ["bin/app.gitops"; "bin/old.gitops"])
                 appFlags (provider alreadyExists)))
   <->
   SwitchToBranch "deploy/prod" "master"
   ∈ snd (run (main deployConfig
                 (world None None false ["bin/app.gitops"; "bin/old.gitops"])
                 appFlags (provider alreadyExists))) /\
   switchToBranch
     (world None None false ["bin/app.gitops"; "bin/old.gitops"])
     "deploy/prod" "master" = false /\
   exists t, t ∈ ["bin/app.gitops"; "bin/old.gitops"]
             /\ t ∉ ["bin/app.gitops"]) /\
  (forall b q,
     RecreateBranch b q
     ∈ snd (run (main deployConfig
                   (world None None false ["bin/app.gitops"; "bin/old.gitops"])
                   appFlags (provider alreadyExists))) ->
     q = "master" /\
     exists train',
       is_Some (({[ "prod" := ["bin/app.gitops"] ]}
                 : gmap string (list string)) !! train') /\
       b = "deploy/" ++ train' ++ EmptyString).
Proof.
  apply (C4_recreate_iff_target_removed deployConfig
           (world None None false ["bin/app.gitops"; "bin/old.gitops"])
           appFlags (provider alreadyExists)
           {[ "prod" := ["bin/app.gitops"] ]} "prod" ["bin/app.gitops"]
           (inl tt)).
  - vm_compute. reflexivity.
  - vm_compute. reflexivity.
  - vm_compute. reflexivity.
Defined.

End PrerTrains.

(** * The worker pool when commands may fail *)

Module PushCoordinatorMore.

Import PushCoordinator PushCoordinatorSpec PushCoordinatorFacts.

Section Failures.

Variable mustex : string -> bool.
Variable n : nat.
Variable cmds : list string.

Lemma sound_init : sound mustex n cmds (init n cmds).
Proof.
  split; simpl.
  - apply length_replicate.
  - done.
  - assert (running (replicate n Receiving) = []) as ->; [|done].
    induction n as [|m IH]; simpl; done.
  - done.
  - apply Forall_replicate. done.
Qed.

Lemma step_sound (a : action) (s s' : state) :
  sound mustex n cmds s -> step mustex a s = Some s' ->
  sound mustex n cmds s'.
Proof.
  intros Hs. pose proof Hs as [Hw Hq Hp Hc Hph]. unfold step.
  destruct (exited s) eqn:He; [done|].
  destruct a as [i|i| |i|].
  - destruct (coord s) as [[|c q]| |] eqn:Ec; try done.
    destruct (workers s !! i) as [[]|] eqn:Ei; try done.
    intros [= <-]. split; simpl.
    + by rewrite length_insert.
    + rewrite <- Hq. simpl. by rewrite <- app_assoc.
    + rewrite running_insert_running by done.
      etrans; [symmetry; apply Permutation_cons_append|].
      rewrite <- Permutation_middle. by apply perm_skip.
    + done.
    + apply Forall_insert; done.
  - destruct (workers s !! i) as [[|c|]|] eqn:Ei; try done.
    assert (Hnot : coord s <> Returned).
    { intros Hr. rewrite Hr in Hph. destruct Hph as [Hd _].
      apply running_all_done in Hd. apply running_elem in Ei.
      rewrite Hd in Ei. by apply elem_of_nil in Ei. }
    destruct (mustex c) eqn:Em; intros [= <-]; split; simpl; try done.
    + by rewrite length_insert.
    + rewrite Hp, (running_insert_receiving (workers s) i c Ei).
      by rewrite <- app_assoc.
    + apply Forall_app. split; [done|]. by constructor.
    + destruct (coord s); try done. apply Forall_insert; done.
    + destruct (coord s); done.
  - destruct (coord s) as [[|c q]| |] eqn:Ec; try done.
    intros [= <-]. split; simpl; done || (by rewrite <- Hq).
  - destruct (coord s) as [q| |] eqn:Ec; try done.
    destruct (workers s !! i) as [[]|] eqn:Ei; try done.
    intros [= <-].
    split; simpl;
      done || (by rewrite length_insert)
           || (by rewrite running_insert_done).
  - destruct (coord s) as [q| |] eqn:Ec; try done.
    destruct (forallb is_done (workers s)) eqn:Ed; try done.
    intros [= <-]. split; simpl; done.
Qed.

Lemma exec_sound (acts : list action) (s s' : state) :
  sound mustex n cmds s -> exec mustex acts s = Some s' ->
  sound mustex n cmds s'.
Proof.
  revert s. induction acts as [|a acts IH]; intros s Hs; simpl.
  - by intros [= <-].
  - destruct (step mustex a s) as [s1|] eqn:E; [|done].
    apply IH. by eapply step_sound.
Qed.

(** X28.  The pool when commands may fail.  In every state that a run
    reaches, under whatever schedule and whatever the commands do: at
    most n commands are running; the commands received so far are the
    first ones of the queue; each of them is completed or still running;
    every completed command has succeeded.  The coordinator returns only
    from a run in which the process has not exited and every queued
    command has succeeded: one failing command anywhere in the queue and
    [processResolvedImages] never returns. *)
Theorem pool_returns_only_if_all_succeed (acts : list action) (s : state) :
  exec mustex acts (init n cmds) = Some s ->
  length (running (workers s)) <= n /\
  (started s ++ queue (coord s))%list = cmds /\
  Permutation (started s) (completed s ++ running (workers s))%list /\
  Forall (fun c => mustex c = true) (completed s) /\
  (coord s = Returned ->
   exited s = false /\ Permutation (completed s) cmds /\
   Forall (fun c => mustex c = true) cmds).
Proof.
  intros Hrun.
  pose proof (exec_sound acts _ s sound_init Hrun) as [Hw Hq Hp Hc Hph].
  split; [rewrite <- Hw; apply running_length|].
  split; [done|]. split; [done|]. split; [done|].
  intros Hr. rewrite Hr in Hph, Hq. simpl in Hq. destruct Hph as [Hd He].
  apply running_all_done in Hd. rewrite Hd, !app_nil_r in *.
  assert (Hperm : Permutation (completed s) cmds)
    by (by rewrite <- Hp, Hq).
  split; [done|]. split; [done|].
  by rewrite <- Hperm.
Qed.

End Failures.

Lemma pool_returns_only_if_all_succeed_witness :
  length (running (workers afterFailure)) <= 3 /\
  (started afterFailure ++ queue (coord afterFailure))%list = sevenPushes /\
  Permutation (started afterFailure)
    (completed afterFailure ++ running (workers afterFailure))%list /\
  Forall (fun c => secondFails c = true) (completed afterFailure) /\
  (coord afterFailure = Returned ->
   exited afterFailure = false /\
   Permutation (completed afterFailure) sevenPushes /\
   Forall (fun c => secondFails c = true) sevenPushes).
Proof.
  apply (pool_returns_only_if_all_succeed secondFails 3 sevenPushes
           failingSchedule afterFailure).
  vm_compute. reflexivity.
Defined.

End PushCoordinatorMore.
